(** * Tuple: a schema-shaped view over a byte buffer

    A verification development for [src/storage/tuple.cpp] (namespace
    [nstore::storage]).  The member functions of [Tuple] are embedded as
    computations over an explicit memory ([Mem]) that may raise the
    exceptions the C++ code raises.  The collaborators whose code lives in
    other files ([Schema], [Value], [Pool], the byte streams) appear the way
    [tuple.cpp] uses them: [Schema] as a record of column descriptors, the
    [Value] member functions as the fields of an interface record
    ([Value.Interface]) over which every [Tuple] operation is parametric. *)

From Stdlib Require Import ZArith NArith List Lia Bool.
From Stdlib Require Import Strings.Byte.
From stdpp Require Import base option list gmap.

Local Open Scope Z_scope.

(** ** Bytes *)

Abbreviation byte := Byte.byte.

Definition Z_of_byte (b : byte) : Z := Z.of_N (Byte.to_N b).

Definition byte_of_Z (z : Z) : byte :=
  match Byte.of_N (Z.to_N (z mod 256)) with
  | Some b => b
  | None => Byte.x00
  end.

#[global] Instance byte_eq_dec : EqDecision byte := Byte.byte_eq_dec.

(** ** Column types and exceptions *)

(** The enumerators [tuple.cpp] names, and one constructor standing for every
    other enumerator of [ValueType] (the enum is declared in another file). *)
Inductive ValueType : Set :=
| VALUE_TYPE_TINYINT
| VALUE_TYPE_SMALLINT
| VALUE_TYPE_INTEGER
| VALUE_TYPE_BIGINT
| VALUE_TYPE_TIMESTAMP
| VALUE_TYPE_DOUBLE
| VALUE_TYPE_DECIMAL
| VALUE_TYPE_VARCHAR
| VALUE_TYPE_VARBINARY
| VALUE_TYPE_OTHER (code : nat).

#[global] Instance ValueType_eq_dec : EqDecision ValueType.
Proof. solve_decision. Defined.

(** What a call can end with instead of a result.  [UnknownTypeException] is
    thrown by [tuple.cpp] itself; the next three are raised by collaborators;
    [PreconditionViolation] stands for the executions C++ leaves undefined or
    stops at an [assert]: an unbound tuple, a column id outside the schema,
    an index outside an array, a read past the end of the input. *)
Inductive Exception : Set :=
| UnknownTypeException (type : ValueType)
| TypeMismatchError
| MissingPoolError
| AllocationFailure
| PreconditionViolation.

#[global] Instance Exception_eq_dec : EqDecision Exception.
Proof. solve_decision. Defined.

Inductive Result (A : Type) : Type :=
| Ok (a : A)
| Err (e : Exception).
Arguments Ok {A} a.
Arguments Err {A} e.

(** ** Schema *)

(** Modelled from the spec: the [Schema] class is declared in another file.
    A schema is an ordered sequence of column descriptors
    [{type, fixedLength, byteOffset, isInlined}] and a total length; the
    uninlined column indices and the whole-row inlined flag are derived from
    the descriptors.  [variable_length] is what [GetVariableLength], which
    [SetValueAllocate] calls for uninlined columns, returns. *)
Record ColumnInfo : Set := {
  column_type : ValueType;
  fixed_length : Z;
  variable_length : Z;
  column_offset : N;
  column_is_inlined : bool
}.

Record Schema : Set := {
  columns : list ColumnInfo;
  tuple_length : N
}.

Module SchemaOps.

Definition GetColumnCount (s : Schema) : nat := length (columns s).

Definition column (s : Schema) (column_id : nat) : Result ColumnInfo :=
  match columns s !! column_id with
  | Some c => Ok c
  | None => Err PreconditionViolation
  end.

(** [GetLength()] without argument: the length of the fixed-size region. *)
Definition GetTupleLength (s : Schema) : N := tuple_length s.

(** The indices of the columns with [isInlined = false], in schema order. *)
Definition uninlined_columns (s : Schema) : list nat :=
  List.filter (fun i => match columns s !! i with
                        | Some c => negb (column_is_inlined c)
                        | None => false
                        end)
              (seq 0 (length (columns s))).

Definition GetUninlinedColumnCount (s : Schema) : nat :=
  length (uninlined_columns s).

Definition GetUninlinedColumnIndex (s : Schema) (i : nat) : Result nat :=
  match uninlined_columns s !! i with
  | Some c => Ok c
  | None => Err PreconditionViolation
  end.

(** [IsInlined()] without argument: the whole-row flag. *)
Definition IsTupleInlined (s : Schema) : bool :=
  forallb column_is_inlined (columns s).

End SchemaOps.

(** ** Memory *)

(** A [Pool*] is [None] for the null pointer and the pool's identity
    otherwise. *)
Abbreviation Pool := N (only parsing).

(** An out-of-line payload block: the pool it was drawn from and its payload
    bytes.  The block's 4-byte length prefix is the length of the payload. *)
Record Block : Set := {
  block_pool : Pool;
  block_payload : list byte
}.

(** Addresses are natural numbers, 0 is the null pointer.  [mem_bytes] is the
    byte-addressed memory the tuple buffers live in and [mem_heap] maps the
    handle of each live payload block to the block. *)
Record Mem : Type := {
  mem_bytes : gmap N byte;
  mem_heap : gmap N Block
}.

(** The state a member function of [Tuple] runs in: the memory and the schema
    objects, by address.  [Value]'s member functions see the memory only. *)
Record State : Type := {
  memory : Mem;
  schemas : gmap N Schema
}.

Definition load_byte (m : Mem) (a : N) : byte :=
  default Byte.x00 (mem_bytes m !! a).

Fixpoint load_bytes (m : Mem) (a : N) (n : nat) : list byte :=
  match n with
  | O => []
  | S k => load_byte m a :: load_bytes m (N.succ a) k
  end.

Fixpoint insert_bytes (a : N) (bs : list byte) (bytes : gmap N byte) : gmap N byte :=
  match bs with
  | [] => bytes
  | b :: bs' => <[a := b]> (insert_bytes (N.succ a) bs' bytes)
  end.

Definition store_bytes (a : N) (bs : list byte) (m : Mem) : Mem :=
  {| mem_bytes := insert_bytes a bs (mem_bytes m);
     mem_heap := mem_heap m |}.

(** [::memcpy(dst, src, n)]. *)
Definition memcpy (dst src : N) (n : N) (m : Mem) : Mem :=
  store_bytes dst (load_bytes m src (N.to_nat n)) m.

(** ** The monad of member functions: a state, failure with an [Exception] *)

Definition StateM (S A : Type) : Type := S -> Result (A * S).

Definition ret {S A} (a : A) : StateM S A := fun s => Ok (a, s).

Definition bind {S A B} (c : StateM S A) (k : A -> StateM S B) : StateM S B :=
  fun s => match c s with
           | Ok (a, s') => k a s'
           | Err e => Err e
           end.

Definition throw {S A} (e : Exception) : StateM S A := fun _ => Err e.

Definition get {S} : StateM S S := fun s => Ok (s, s).

Definition modify {S} (f : S -> S) : StateM S unit := fun s => Ok (tt, f s).

Definition lift {S A} (r : Result A) : StateM S A :=
  fun s => match r with Ok a => Ok (a, s) | Err e => Err e end.

(** [M] for the member functions of [Tuple], [VM] for those of [Value]. *)
Abbreviation M := (StateM State).
Abbreviation VM := (StateM Mem).

(** A [Value] member function called from a [Tuple] member function. *)
Definition on_memory {A} (c : VM A) : M A :=
  fun st => match c (memory st) with
            | Ok (a, m') => Ok (a, {| memory := m'; schemas := schemas st |})
            | Err e => Err e
            end.

Definition get_mem : M Mem := fun st => Ok (memory st, st).

Definition modify_mem (f : Mem -> Mem) : M unit :=
  on_memory (modify f).

(** [assert(cond)] *)
Definition assert {S} (cond : bool) : StateM S unit :=
  if cond then ret tt else throw PreconditionViolation.

Declare Scope tuple_monad_scope.
Delimit Scope tuple_monad_scope with tm.
Notation "x <- c1 ;; c2" := (bind c1 (fun x => c2))
  (at level 100, c1 at next level, right associativity) : tuple_monad_scope.
Notation "c1 ;; c2" := (bind c1 (fun _ => c2))
  (at level 100, right associativity) : tuple_monad_scope.
Local Open Scope tuple_monad_scope.

(** [for (column_itr = start; column_itr < start + count; column_itr++)] with a
    loop-carried value. *)
Fixpoint for_loop {St S} (body : nat -> S -> StateM St S) (column_itr count : nat) (acc : S)
    : StateM St S :=
  match count with
  | O => ret acc
  | Datatypes.S k => acc' <- body column_itr acc ;; for_loop body (Datatypes.S column_itr) k acc'
  end.

(** The same loop when the body may [return] from the function: the body
    answers [Some r] to return [r], [None] to go on; the loop answers [None]
    when it ran to its end. *)
Fixpoint for_loop_return {St R} (body : nat -> StateM St (option R)) (column_itr count : nat)
    : StateM St (option R) :=
  match count with
  | O => ret None
  | Datatypes.S k =>
      r <- body column_itr ;;
      match r with
      | Some x => ret (Some x)
      | None => for_loop_return body (Datatypes.S column_itr) k
      end
  end.

(** ** Machine integers *)

Definition UINT64_MOD : Z := 2 ^ 64.
Definition INT32_MAX : Z := 2 ^ 31 - 1.
Definition INT64_MAX : Z := 2 ^ 63 - 1.

(** [size_t] arithmetic wraps. *)
Definition size_t_add (a b : Z) : Z := (a + b) mod UINT64_MOD.

(** Signed addition is undefined on overflow. *)
Definition int_add (a b : Z) : Result Z :=
  if (- INT32_MAX - 1 <=? a + b) && (a + b <=? INT32_MAX) then Ok (a + b)
  else Err PreconditionViolation.

Definition int64_add (a b : Z) : Result Z :=
  if (- INT64_MAX - 1 <=? a + b) && (a + b <=? INT64_MAX) then Ok (a + b)
  else Err PreconditionViolation.

(** ** Byte streams *)

(** Modelled from the spec: [SerializeInput], [SerializeOutput] and
    [ExportSerializeOutput] are declared in another file.  An input is the
    bytes not read yet; an output is the bytes written so far, its position
    their number. *)
Abbreviation SerializeInput := (list byte) (only parsing).
Abbreviation SerializeOutput := (list byte) (only parsing).
Abbreviation ExportSerializeOutput := (list byte) (only parsing).

(** Big-endian (network order) encoding of the low [8 * w] bits of [n]. *)
Fixpoint be_bytes (w : nat) (n : Z) : list byte :=
  match w with
  | O => []
  | S k => be_bytes k (n / 256) ++ [byte_of_Z n]
  end.

Definition be_unsigned (bs : list byte) : Z :=
  fold_left (fun acc b => 256 * acc + Z_of_byte b) bs 0.

Definition to_signed (w : nat) (u : Z) : Z :=
  if u <? 2 ^ (8 * Z.of_nat w - 1) then u else u - 2 ^ (8 * Z.of_nat w).

(** [input.ReadInt()]: a 32-bit big-endian integer. *)
Definition ReadInt (input : SerializeInput) : Result (Z * SerializeInput) :=
  if decide (4 <= length input)%nat
  then Ok (to_signed 4 (be_unsigned (take 4 input)), drop 4 input)
  else Err PreconditionViolation.

(** [output.Position()] *)
Definition Position (output : SerializeOutput) : Z := Z.of_nat (length output).

(** [output.ReserveBytes(n)]: returns the position and advances by [n]. *)
Definition ReserveBytes (n : nat) (output : SerializeOutput) : Z * SerializeOutput :=
  (Position output, output ++ replicate n Byte.x00).

(** [output.WriteInt(v)] *)
Definition WriteInt (v : Z) (output : SerializeOutput) : SerializeOutput :=
  output ++ be_bytes 4 v.

(** [output.WriteIntAt(position, v)]: overwrites four bytes written before. *)
Definition WriteIntAt (position : Z) (v : Z) (output : SerializeOutput) : SerializeOutput :=
  take (Z.to_nat position) output ++ be_bytes 4 v ++ drop (Z.to_nat position + 4) output.

(** [static_cast<int32_t>(z)] and the conversion of an integer to [size_t]. *)
Definition int32_cast (z : Z) : Z := to_signed 4 (z mod 2 ^ 32).
Definition to_size_t (z : Z) : Z := z mod UINT64_MOD.

(** ** The interface of [Value] *)

(** The member functions of [Value] and [ValuePeeker] that [tuple.cpp] calls;
    their code is in another file, so every [Tuple] operation below takes them
    as a parameter.  A function that writes through a storage pointer, or
    allocates, is a computation on [Mem]; [Deserialize] reads memory; the
    others are functions of the value alone.  [HashCombine] takes the seed it
    updates (a [size_t&]) and returns the new seed; [SerializeTo] and
    [SerializeToExport] take the output stream they advance. *)
Module Value.

Record Interface : Type := {
  t : Type;
  max_decimal_precision : Z;
  CastAs : t -> ValueType -> Result t;
  IsNull : t -> bool;
  IsTrue : t -> bool;
  OpNotEquals : t -> t -> t;
  Compare : t -> t -> Z;
  HashCombine : t -> Z -> Z;
  PeekObjectLength : t -> Z;
  Deserialize : Mem -> N -> ValueType -> bool -> t;
  SerializeWithAllocation : t -> N -> bool -> Z -> option Pool -> VM unit;
  SerializeTo : t -> SerializeOutput -> SerializeOutput;
  SerializeToExport : t -> ExportSerializeOutput -> ExportSerializeOutput;
  DeserializeFrom :
    SerializeInput -> ValueType -> N -> bool -> Z -> option Pool -> VM (Z * SerializeInput)
}.

End Value.

(** ** Tuple *)

Module Tuple.

(** [tuple_schema] is a [Schema*], [tuple_data] a [char*]: both addresses. *)
Record t : Set := {
  tuple_schema : N;
  tuple_data : N
}.

(** [*p] for a [Schema* p]. *)
Definition schema_at (p : N) : M Schema :=
  fun st =>
    if (p =? 0)%N then Err PreconditionViolation
    else match schemas st !! p with
         | Some s => Ok (s, st)
         | None => Err PreconditionViolation
         end.

(** [tuple_schema->f(...)] *)
Definition schema_call {A} (tuple : t) (f : Schema -> Result A) : M A :=
  s <- schema_at (tuple_schema tuple) ;; lift (f s).

Definition schema_GetType (tuple : t) (column_id : nat) : M ValueType :=
  schema_call tuple (fun s =>
    match SchemaOps.column s column_id with Ok c => Ok (column_type c) | Err e => Err e end).

Definition schema_IsInlined (tuple : t) (column_id : nat) : M bool :=
  schema_call tuple (fun s =>
    match SchemaOps.column s column_id with Ok c => Ok (column_is_inlined c) | Err e => Err e end).

Definition schema_GetLength (tuple : t) (column_id : nat) : M Z :=
  schema_call tuple (fun s =>
    match SchemaOps.column s column_id with Ok c => Ok (fixed_length c) | Err e => Err e end).

Definition schema_GetVariableLength (tuple : t) (column_id : nat) : M Z :=
  schema_call tuple (fun s =>
    match SchemaOps.column s column_id with Ok c => Ok (variable_length c) | Err e => Err e end).

Definition schema_GetOffset (tuple : t) (column_id : nat) : M N :=
  schema_call tuple (fun s =>
    match SchemaOps.column s column_id with Ok c => Ok (column_offset c) | Err e => Err e end).

Definition schema_GetColumnCount (tuple : t) : M nat :=
  schema_call tuple (fun s => Ok (SchemaOps.GetColumnCount s)).

Definition is_set (p : N) : bool := negb (p =? 0)%N.

Section WithValue.

Variable V : Value.Interface.

(** [char* Tuple::GetDataPtr(const id_t column_id)] *)
Definition GetDataPtr (tuple : t) (column_id : nat) : M N :=
  assert (is_set (tuple_schema tuple)) ;;
  assert (is_set (tuple_data tuple)) ;;
  offset <- schema_GetOffset tuple column_id ;;
  ret (tuple_data tuple + offset)%N.

(** Modelled from the spec: [GetValue], [IsNull], [GetType] and
    [GetColumnCount] of [Tuple] are defined inline in [tuple.h].
    [GetValue] reads the column through [Value]'s materialization at the
    column's data pointer, with the column's type and inlined flag;
    [IsNull] asks the value read; the other two ask the schema. *)
Definition GetValue (tuple : t) (column_id : nat) : M (Value.t V) :=
  column_type <- schema_GetType tuple column_id ;;
  data_ptr <- GetDataPtr tuple column_id ;;
  is_inlined <- schema_IsInlined tuple column_id ;;
  m <- get_mem ;;
  ret (Value.Deserialize V m data_ptr column_type is_inlined).

Definition IsNull (tuple : t) (column_id : nat) : M bool :=
  value <- GetValue tuple column_id ;;
  ret (Value.IsNull V value).

Definition GetType (tuple : t) (column_id : nat) : M ValueType :=
  schema_GetType tuple column_id.

Definition GetColumnCount (tuple : t) : M nat :=
  schema_GetColumnCount tuple.

(** [void Tuple::SetValueAllocate(const id_t column_id, Value value, Pool *dataPool)] *)
Definition SetValueAllocate (tuple : t) (column_id : nat) (value : Value.t V)
    (dataPool : option Pool) : M unit :=
  assert (is_set (tuple_schema tuple)) ;;
  assert (is_set (tuple_data tuple)) ;;
  type <- schema_GetType tuple column_id ;;
  value <- lift (Value.CastAs V value type) ;;
  is_inlined <- schema_IsInlined tuple column_id ;;
  dataPtr <- GetDataPtr tuple column_id ;;
  column_length <- schema_GetLength tuple column_id ;;
  column_length <- (if negb is_inlined
                    then schema_GetVariableLength tuple column_id
                    else ret column_length) ;;
  on_memory (Value.SerializeWithAllocation V value dataPtr is_inlined column_length dataPool).

(** [void Tuple::Copy(const void *source, Pool *pool)] *)
Definition Copy (tuple : t) (source : N) (pool : option Pool) : M unit :=
  assert (is_set (tuple_schema tuple)) ;;
  assert (is_set (tuple_data tuple)) ;;
  is_inlined <- schema_call tuple (fun s => Ok (SchemaOps.IsTupleInlined s)) ;;
  uninlineable_column_count <-
    schema_call tuple (fun s => Ok (SchemaOps.GetUninlinedColumnCount s)) ;;
  if is_inlined then
    length <- schema_call tuple (fun s => Ok (SchemaOps.GetTupleLength s)) ;;
    modify_mem (memcpy (tuple_data tuple) source length)
  else
    length <- schema_call tuple (fun s => Ok (SchemaOps.GetTupleLength s)) ;;
    modify_mem (memcpy (tuple_data tuple) source length) ;;
    for_loop (fun column_itr _ =>
                unlineable_column_id <-
                  schema_call tuple (fun s => SchemaOps.GetUninlinedColumnIndex s column_itr) ;;
                value <- GetValue tuple unlineable_column_id ;;
                SetValueAllocate tuple unlineable_column_id value pool)
             0 uninlineable_column_count tt.

(** [size_t Tuple::ExportSerializationSize() const] *)
Definition ExportSerializationSize (tuple : t) : M Z :=
  let bytes := 0 in
  column_count <- GetColumnCount tuple ;;
  for_loop (fun column_itr bytes =>
              type <- GetType tuple column_itr ;;
              match type with
              | VALUE_TYPE_TINYINT
              | VALUE_TYPE_SMALLINT
              | VALUE_TYPE_INTEGER
              | VALUE_TYPE_BIGINT
              | VALUE_TYPE_TIMESTAMP
              | VALUE_TYPE_DOUBLE =>
                  ret (size_t_add bytes 8)
              | VALUE_TYPE_DECIMAL =>
                  ret (size_t_add bytes (to_size_t (4 + Value.max_decimal_precision V + 1 + 1)))
              | VALUE_TYPE_VARCHAR
              | VALUE_TYPE_VARBINARY =>
                  value <- GetValue tuple column_itr ;;
                  if negb (Value.IsNull V value) then
                    value' <- GetValue tuple column_itr ;;
                    ret (size_t_add bytes (to_size_t (4 + Value.PeekObjectLength V value')))
                  else ret bytes
              | _ =>
                  type' <- GetType tuple column_itr ;;
                  throw (UnknownTypeException type')
              end)
           0 column_count bytes.

(** [size_t Tuple::GetUninlinedMemorySize() const] *)
Definition GetUninlinedMemorySize (tuple : t) : M Z :=
  let bytes := 0 in
  column_count <- GetColumnCount tuple ;;
  is_inlined <- schema_call tuple (fun s => Ok (SchemaOps.IsTupleInlined s)) ;;
  if negb is_inlined then
    for_loop (fun column_itr bytes =>
                type <- GetType tuple column_itr ;;
                is_varchar_or_varbinary <-
                  (if bool_decide (type = VALUE_TYPE_VARCHAR) then ret true
                   else type' <- GetType tuple column_itr ;;
                        ret (bool_decide (type' = VALUE_TYPE_VARBINARY))) ;;
                cond <- (if is_varchar_or_varbinary
                         then column_inlined <- schema_IsInlined tuple column_itr ;;
                              ret (negb column_inlined)
                         else ret false) ;;
                if cond then
                  value <- GetValue tuple column_itr ;;
                  if negb (Value.IsNull V value) then
                    value' <- GetValue tuple column_itr ;;
                    ret (size_t_add bytes (to_size_t (4 + Value.PeekObjectLength V value')))
                  else ret bytes
                else ret bytes)
             0 column_count bytes
  else ret bytes.

(** [void Tuple::DeserializeFrom(SerializeInput &input, Pool *dataPool)];
    the result is the input after the call. *)
Definition DeserializeFrom (tuple : t) (input : SerializeInput) (dataPool : option Pool)
    : M SerializeInput :=
  assert (is_set (tuple_schema tuple)) ;;
  assert (is_set (tuple_data tuple)) ;;
  r <- lift (ReadInt input) ;;
  let input := snd r in
  column_count <- schema_GetColumnCount tuple ;;
  for_loop (fun column_itr input =>
              type <- schema_GetType tuple column_itr ;;
              is_inlined <- schema_IsInlined tuple column_itr ;;
              data_ptr <- GetDataPtr tuple column_itr ;;
              column_length <- schema_GetLength tuple column_itr ;;
              r <- on_memory (Value.DeserializeFrom V input type data_ptr is_inlined
                                column_length dataPool) ;;
              ret (snd r))
           0 column_count input.

(** [int64_t Tuple::DeserializeWithHeaderFrom(SerializeInput &input)];
    the result is the returned count and the input after the call. *)
Definition DeserializeWithHeaderFrom (tuple : t) (input : SerializeInput)
    : M (Z * SerializeInput) :=
  let total_bytes_deserialized := 0 in
  assert (is_set (tuple_schema tuple)) ;;
  assert (is_set (tuple_data tuple)) ;;
  r <- lift (ReadInt input) ;;
  let input := snd r in
  total_bytes_deserialized <- lift (int64_add total_bytes_deserialized 4) ;;
  column_count <- schema_GetColumnCount tuple ;;
  for_loop (fun column_itr (st : Z * SerializeInput) =>
              let '(total_bytes_deserialized, input) := st in
              type <- schema_GetType tuple column_itr ;;
              is_inlined <- schema_IsInlined tuple column_itr ;;
              data_ptr <- GetDataPtr tuple column_itr ;;
              column_length <- schema_GetLength tuple column_itr ;;
              r <- on_memory (Value.DeserializeFrom V input type data_ptr is_inlined
                                column_length None) ;;
              total_bytes_deserialized <- lift (int64_add total_bytes_deserialized (fst r)) ;;
              ret (total_bytes_deserialized, snd r))
           0 column_count (total_bytes_deserialized, input).

(** [void Tuple::SerializeWithHeaderTo(SerializeOutput &output)]; the result
    is the output after the call. *)
Definition SerializeWithHeaderTo (tuple : t) (output : SerializeOutput) : M SerializeOutput :=
  assert (is_set (tuple_schema tuple)) ;;
  assert (is_set (tuple_data tuple)) ;;
  let start := Position output in
  let output := WriteInt 0 output in
  column_count <- schema_GetColumnCount tuple ;;
  output <- for_loop (fun column_itr output =>
                        value <- GetValue tuple column_itr ;;
                        ret (Value.SerializeTo V value output))
                     0 column_count output ;;
  let serialized_size := int32_cast (to_size_t (Position output - start - 4)) in
  ret (WriteIntAt start serialized_size output).

(** [void Tuple::SerializeTo(SerializeOutput &output)]; the result is the
    output after the call. *)
Definition SerializeTo (tuple : t) (output : SerializeOutput) : M SerializeOutput :=
  let '(start, output) := ReserveBytes 4 output in
  column_count <- schema_GetColumnCount tuple ;;
  output <- for_loop (fun column_itr output =>
                        value <- GetValue tuple column_itr ;;
                        ret (Value.SerializeTo V value output))
                     0 column_count output ;;
  ret (WriteIntAt start (int32_cast (to_size_t (Position output - start - 4))) output).

(** [null_array[byte] = (uint8_t) (null_array[byte] | mask)] *)
Definition or_into (null_array : list byte) (byte_ : Z) (mask : Z) : Result (list byte) :=
  if (0 <=? byte_) && (byte_ <? Z.of_nat (length null_array)) then
    match null_array !! Z.to_nat byte_ with
    | Some old => Ok (<[Z.to_nat byte_ := byte_of_Z (Z.lor (Z_of_byte old) mask)]> null_array)
    | None => Err PreconditionViolation
    end
  else Err PreconditionViolation.

(** [void Tuple::SerializeToExport(ExportSerializeOutput &output, int colOffset,
    uint8_t *null_array)]; the result is the output and the bitmap after
    the call. *)
Definition SerializeToExport (tuple : t) (output : ExportSerializeOutput) (colOffset : Z)
    (null_array : list byte) : M (ExportSerializeOutput * list byte) :=
  column_count <- GetColumnCount tuple ;;
  for_loop (fun column_itr (st : ExportSerializeOutput * list byte) =>
              let '(output, null_array) := st in
              is_null <- IsNull tuple column_itr ;;
              if is_null then
                index <- lift (int_add colOffset (Z.of_nat column_itr)) ;;
                let byte_ := Z.shiftr index 3 in
                index' <- lift (int_add colOffset (Z.of_nat column_itr)) ;;
                let bit := Z.rem index' 8 in
                let mask := Z.shiftr 128 bit in
                null_array <- lift (or_into null_array byte_ mask) ;;
                ret (output, null_array)
              else
                value <- GetValue tuple column_itr ;;
                ret (Value.SerializeToExport V value output, null_array))
           0 column_count (output, null_array).

(** [bool Tuple::EqualsNoSchemaCheck(const Tuple &other) const] *)
Definition EqualsNoSchemaCheck (tuple other : t) : M bool :=
  column_count <- schema_GetColumnCount tuple ;;
  r <- for_loop_return (fun column_itr =>
                          lhs <- GetValue tuple column_itr ;;
                          rhs <- GetValue other column_itr ;;
                          if Value.IsTrue V (Value.OpNotEquals V lhs rhs)
                          then ret (Some false)
                          else ret None)
                       0 column_count ;;
  match r with
  | Some b => ret b
  | None => ret true
  end.

(** [bool Tuple::operator==(const Tuple &other) const] *)
Definition op_eq (tuple other : t) : M bool :=
  if negb (tuple_schema tuple =? tuple_schema other)%N then ret false
  else EqualsNoSchemaCheck tuple other.

(** [bool Tuple::operator!=(const Tuple &other) const] *)
Definition op_ne (tuple other : t) : M bool :=
  b <- op_eq tuple other ;; ret (negb b).

(** [int Tuple::Compare(const Tuple &other) const] *)
Definition Compare (tuple other : t) : M Z :=
  column_count <- schema_GetColumnCount tuple ;;
  r <- for_loop_return (fun column_itr =>
                          lhs <- GetValue tuple column_itr ;;
                          rhs <- GetValue other column_itr ;;
                          let diff := Value.Compare V lhs rhs in
                          if negb (diff =? 0) then ret (Some diff) else ret None)
                       0 column_count ;;
  match r with
  | Some diff => ret diff
  | None => ret 0
  end.

(** [size_t Tuple::HashCode(size_t seed) const] *)
Definition HashCode_seed (tuple : t) (seed : Z) : M Z :=
  column_count <- schema_GetColumnCount tuple ;;
  for_loop (fun column_itr seed =>
              value <- GetValue tuple column_itr ;;
              ret (Value.HashCombine V value seed))
           0 column_count seed.

(** [size_t Tuple::HashCode() const] *)
Definition HashCode (tuple : t) : M Z :=
  let seed := 0 in
  HashCode_seed tuple seed.

End WithValue.

(** [static_cast<uint16_t>(n)] *)
Definition uint16_cast (n : nat) : nat := (n mod 2 ^ 16)%nat.

Section WithRelease.

Variable V : Value.Interface.

(** [void Value::FreeUninlinedData() const]: its code is in another file, so
    [FreeUninlinedData] below takes it as a parameter. *)
Variable Value_FreeUninlinedData : Value.t V -> VM unit.

(** [void Tuple::FreeUninlinedData()] *)
Definition FreeUninlinedData (tuple : t) : M unit :=
  if (tuple_data tuple =? 0)%N then ret tt
  else
    unlinlined_column_count <-
      schema_call tuple (fun s => Ok (uint16_cast (SchemaOps.GetUninlinedColumnCount s))) ;;
    for_loop (fun column_itr _ =>
                unlineable_column_id <-
                  schema_call tuple (fun s => SchemaOps.GetUninlinedColumnIndex s column_itr) ;;
                value <- GetValue V tuple unlineable_column_id ;;
                on_memory (Value_FreeUninlinedData value))
             0 unlinlined_column_count tt.

End WithRelease.

End Tuple.

(** ** A reference implementation of the [Value] interface *)

(** Modelled from the spec: the [Value] class (casting, comparison, hashing
    and the three encodings of a value) and [Pool] are defined in other
    files.  [StubValue] implements the interface the spec gives for them
    (sections 3, 4 and 6) for the integer kinds, timestamps and the two
    variable-length types; floating point and decimals are not modelled.
    - Storage: an integer kind occupies its width in little-endian two's
      complement, the smallest value of the width being the null sentinel.
      An inlined variable-length column holds a length byte (255 for null)
      and the payload, truncated and padded to the declared length.  An
      uninlined column holds an 8-byte indirection record: the handle of a
      block drawn from the pool, or 0 for null, which needs no block.
    - Storage/page format: an integer kind in big-endian two's complement of
      its width; a variable-length value as a 4-byte length (-1 for null)
      and the payload.
    - Export format: an integer kind in 8 bytes; a variable-length value as
      a 4-byte length and the payload.
    - Allocation for an uninlined payload without a pool fails with
      [MissingPoolError]. *)
Module StubValue.

Inductive t : Set :=
| Num (type : ValueType) (n : Z)
| Obj (type : ValueType) (payload : option (list byte))
| Boolean (b : bool)
| Invalid.

(** The storage width of the fixed-width types modelled. *)
Definition width (type : ValueType) : option nat :=
  match type with
  | VALUE_TYPE_TINYINT => Some 1%nat
  | VALUE_TYPE_SMALLINT => Some 2%nat
  | VALUE_TYPE_INTEGER => Some 4%nat
  | VALUE_TYPE_BIGINT => Some 8%nat
  | VALUE_TYPE_TIMESTAMP => Some 8%nat
  | _ => None
  end.

Definition is_object (type : ValueType) : bool :=
  match type with
  | VALUE_TYPE_VARCHAR | VALUE_TYPE_VARBINARY => true
  | _ => false
  end.

Definition null_of (w : nat) : Z := - 2 ^ (8 * Z.of_nat w - 1).

Definition in_range (w : nat) (n : Z) : bool :=
  (- 2 ^ (8 * Z.of_nat w - 1) <=? n) && (n <? 2 ^ (8 * Z.of_nat w - 1)).

Definition le_bytes (w : nat) (n : Z) : list byte := rev (be_bytes w n).
Definition le_unsigned (bs : list byte) : Z := be_unsigned (rev bs).

(** The handle an uninlined column's indirection record holds. *)
Definition handle_at (m : Mem) (ptr : N) : N :=
  Z.to_N (le_unsigned (load_bytes m ptr 8)).

Definition Deserialize (m : Mem) (ptr : N) (type : ValueType) (is_inlined : bool) : t :=
  match width type with
  | Some w => Num type (to_signed w (le_unsigned (load_bytes m ptr w)))
  | None =>
      if is_object type then
        if is_inlined then
          let l := Z_of_byte (load_byte m ptr) in
          if l =? 255 then Obj type None
          else Obj type (Some (load_bytes m (N.succ ptr) (Z.to_nat l)))
        else
          let h := handle_at m ptr in
          if (h =? 0)%N then Obj type None
          else match mem_heap m !! h with
               | Some b => Obj type (Some (block_payload b))
               | None => Invalid
               end
      else Invalid
  end.

(** The bytes of an inlined variable-length slot of [len] bytes. *)
Definition inline_slot (payload : option (list byte)) (len : Z) : list byte :=
  let body :=
    match payload with
    | None => [Byte.xff]
    | Some p =>
        let p' := take (Nat.min (Z.to_nat len - 1) 254) p in
        byte_of_Z (Z.of_nat (length p')) :: p'
    end in
  take (Z.to_nat len) (body ++ replicate (Z.to_nat len) Byte.x00).

Definition fresh_handle (m : Mem) : N := fresh ({[0%N]} ∪ dom (mem_heap m)).

(** [Pool::allocate]: a block that no live handle names, filled with
    [payload]. *)
Definition allocate (pool : option Pool) (payload : list byte) : VM N :=
  fun m =>
    match pool with
    | None => Err MissingPoolError
    | Some p =>
        let h := fresh_handle m in
        if (h <? 2 ^ 64)%N then
          Ok (h, {| mem_bytes := mem_bytes m;
                    mem_heap := <[h := {| block_pool := p; block_payload := payload |}]> (mem_heap m) |})
        else Err AllocationFailure
    end.

(** Writes a variable-length value into the slot at [ptr]. *)
Definition store_object (payload : option (list byte)) (ptr : N) (is_inlined : bool)
    (len : Z) (pool : option Pool) : VM unit :=
  if is_inlined then modify (store_bytes ptr (inline_slot payload len))
  else match payload with
       | None => modify (store_bytes ptr (le_bytes 8 0))
       | Some p =>
           h <- allocate pool p ;;
           modify (store_bytes ptr (le_bytes 8 (Z.of_N h)))
       end.

Definition SerializeWithAllocation (v : t) (ptr : N) (is_inlined : bool) (len : Z)
    (pool : option Pool) : VM unit :=
  match v with
  | Num type n =>
      match width type with
      | Some w => modify (store_bytes ptr (le_bytes w n))
      | None => throw TypeMismatchError
      end
  | Obj type payload => store_object payload ptr is_inlined len pool
  | _ => throw TypeMismatchError
  end.

Definition SerializeTo (v : t) (output : SerializeOutput) : SerializeOutput :=
  match v with
  | Num type n =>
      match width type with
      | Some w => output ++ be_bytes w n
      | None => output
      end
  | Obj _ None => output ++ be_bytes 4 (-1)
  | Obj _ (Some p) => output ++ be_bytes 4 (Z.of_nat (length p)) ++ p
  | _ => output
  end.

Definition SerializeToExport (v : t) (output : ExportSerializeOutput) : ExportSerializeOutput :=
  match v with
  | Num _ n => output ++ be_bytes 8 n
  | Obj _ (Some p) => output ++ be_bytes 4 (Z.of_nat (length p)) ++ p
  | _ => output
  end.

Definition DeserializeFrom (input : SerializeInput) (type : ValueType) (ptr : N)
    (is_inlined : bool) (len : Z) (pool : option Pool) : VM (Z * SerializeInput) :=
  match width type with
  | Some w =>
      if decide (w <= length input)%nat then
        modify (store_bytes ptr (rev (take w input))) ;;
        ret (Z.of_nat w, drop w input)
      else throw PreconditionViolation
  | None =>
      if is_object type then
        r <- lift (ReadInt input) ;;
        let '(l, input) := r in
        if l =? -1 then
          store_object None ptr is_inlined len pool ;;
          ret (4, input)
        else if (0 <=? l) && (l <=? Z.of_nat (length input)) then
          store_object (Some (take (Z.to_nat l) input)) ptr is_inlined len pool ;;
          ret (4 + l, drop (Z.to_nat l) input)
        else throw PreconditionViolation
      else throw (UnknownTypeException type)
  end.

Definition IsNull (v : t) : bool :=
  match v with
  | Num type n =>
      match width type with
      | Some w => n =? null_of w
      | None => false
      end
  | Obj _ None => true
  | _ => false
  end.

Definition PeekObjectLength (v : t) : Z :=
  match v with
  | Obj _ (Some p) => Z.of_nat (length p)
  | _ => -1
  end.

Definition CastAs (v : t) (type : ValueType) : Result t :=
  match v with
  | Num _ n =>
      match width type with
      | Some w =>
          if IsNull v then Ok (Num type (null_of w))
          else if in_range w n then Ok (Num type n)
          else Err TypeMismatchError
      | None => Err TypeMismatchError
      end
  | Obj _ payload =>
      if is_object type then Ok (Obj type payload) else Err TypeMismatchError
  | _ => Err TypeMismatchError
  end.

Definition sign (c : comparison) : Z :=
  match c with
  | Lt => -1
  | Eq => 0
  | Gt => 1
  end.

Fixpoint compare_bytes (a b : list byte) : Z :=
  match a, b with
  | [], [] => 0
  | [], _ :: _ => -1
  | _ :: _, [] => 1
  | x :: a', y :: b' =>
      match Z.compare (Z_of_byte x) (Z_of_byte y) with
      | Lt => -1
      | Gt => 1
      | Eq => compare_bytes a' b'
      end
  end.

Definition rank (v : t) : Z :=
  match v with
  | Num _ _ => 0
  | Obj _ _ => 1
  | Boolean _ => 2
  | Invalid => 3
  end.

(** Three-way comparison: numbers by value whatever their width, a null
    payload before every payload, payloads bytewise. *)
Definition Compare (a b : t) : Z :=
  match a, b with
  | Num _ x, Num _ y => sign (Z.compare x y)
  | Obj _ None, Obj _ None => 0
  | Obj _ None, Obj _ (Some _) => -1
  | Obj _ (Some _), Obj _ None => 1
  | Obj _ (Some p), Obj _ (Some q) => compare_bytes p q
  | Boolean x, Boolean y => sign (Z.compare (Z.b2z x) (Z.b2z y))
  | _, _ => sign (Z.compare (rank a) (rank b))
  end.

Definition OpNotEquals (a b : t) : t := Boolean (negb (Compare a b =? 0)).

Definition IsTrue (v : t) : bool :=
  match v with
  | Boolean b => b
  | _ => false
  end.

Definition hash_value (v : t) : Z :=
  match v with
  | Num _ n => n mod UINT64_MOD
  | Obj _ None => 0
  | Obj _ (Some p) => fold_left (fun h b => (31 * h + Z_of_byte b) mod UINT64_MOD) p 7
  | Boolean b => Z.b2z b
  | Invalid => 0
  end.

Definition HashCombine (v : t) (seed : Z) : Z :=
  Z.lxor seed ((hash_value v + 2654435769 + Z.shiftl seed 6 + Z.shiftr seed 2) mod UINT64_MOD)
    mod UINT64_MOD.

Definition ops : Value.Interface :=
  {| Value.t := t;
     Value.max_decimal_precision := 38;
     Value.CastAs := CastAs;
     Value.IsNull := IsNull;
     Value.IsTrue := IsTrue;
     Value.OpNotEquals := OpNotEquals;
     Value.Compare := Compare;
     Value.HashCombine := HashCombine;
     Value.PeekObjectLength := PeekObjectLength;
     Value.Deserialize := Deserialize;
     Value.SerializeWithAllocation := SerializeWithAllocation;
     Value.SerializeTo := SerializeTo;
     Value.SerializeToExport := SerializeToExport;
     Value.DeserializeFrom := DeserializeFrom |}.

End StubValue.

(** ** Vocabulary of the statements *)

(** The tuple is bound: both pointers are set and the schema pointer is the
    address of the schema object [s]. *)
Definition bound (st : State) (tuple : Tuple.t) (s : Schema) : Prop :=
  Tuple.tuple_schema tuple ≠ 0%N ∧ Tuple.tuple_data tuple ≠ 0%N ∧
  schemas st !! Tuple.tuple_schema tuple = Some s.

(** Where column [c] of the tuple starts, and the value it holds in [m]. *)
Definition column_ptr (tuple : Tuple.t) (c : ColumnInfo) : N :=
  (Tuple.tuple_data tuple + column_offset c)%N.

Definition column_value (V : Value.Interface) (m : Mem) (tuple : Tuple.t) (c : ColumnInfo)
    : Value.t V :=
  Value.Deserialize V m (column_ptr tuple c) (column_type c) (column_is_inlined c).

Definition column_values (V : Value.Interface) (m : Mem) (tuple : Tuple.t) (s : Schema)
    : list (Value.t V) :=
  map (column_value V m tuple) (columns s).

(** A loop body run over the elements of a list, as a function. *)
Fixpoint fold_result {A S} (step : A -> S -> Result S) (l : list A) (acc : S) : Result S :=
  match l with
  | [] => Ok acc
  | x :: l' =>
      match step x acc with
      | Ok acc' => fold_result step l' acc'
      | Err e => Err e
      end
  end.

Fixpoint first_some {A R} (step : A -> Result (option R)) (l : list A) : Result (option R) :=
  match l with
  | [] => Ok None
  | x :: l' =>
      match step x with
      | Ok (Some r) => Ok (Some r)
      | Ok None => first_some step l'
      | Err e => Err e
      end
  end.

(** The outcome [r] of a computation that leaves the state [st] as it is. *)
Definition unchanged {S A} (r : Result A) (st : S) : Result (A * S) :=
  match r with
  | Ok a => Ok (a, st)
  | Err e => Err e
  end.

(** A computation that never changes the state it returns in. *)
Definition read_only {S A} (c : StateM S A) : Prop :=
  ∀ st a st', c st = Ok (a, st') → st' = st.

(** *** Comparison, equality, hashing in the words of the specification *)

(** The first nonzero entry of a list of comparator results, else 0. *)
Definition first_nonzero (diffs : list Z) : Z :=
  match List.find (fun d => negb (d =? 0)) diffs with
  | Some d => d
  | None => 0
  end.

(** The per-column comparator results of two tuples over the schema [s]. *)
Definition column_diffs (V : Value.Interface) (m : Mem) (t1 t2 : Tuple.t) (s : Schema) : list Z :=
  map (fun c => Value.Compare V (column_value V m t1 c) (column_value V m t2 c)) (columns s).

(** Column [c] is value-equal in the two tuples: Value's not-equals is not true. *)
Definition column_equal (V : Value.Interface) (m : Mem) (t1 t2 : Tuple.t) (c : ColumnInfo) : bool :=
  negb (Value.IsTrue V (Value.OpNotEquals V (column_value V m t1 c) (column_value V m t2 c))).

Definition columns_equal (V : Value.Interface) (m : Mem) (t1 t2 : Tuple.t) (s : Schema) : bool :=
  forallb (column_equal V m t1 t2) (columns s).

(** Every column's hash contribution folded into the seed, in schema order. *)
Definition hash_fold (V : Value.Interface) (m : Mem) (tuple : Tuple.t) (s : Schema) (seed : Z) : Z :=
  fold_left (fun seed v => Value.HashCombine V v seed) (column_values V m tuple s) seed.

(** *** Export size in the words of the specification *)

Definition export_type_known (type : ValueType) : bool :=
  match type with
  | VALUE_TYPE_OTHER _ => false
  | _ => true
  end.

(** The bytes a column contributes: 8 for the fixed numeric kinds, the
    length prefix, the digits, the radix point and the sign for a decimal,
    the length prefix and the payload for a non-null variable-length value,
    nothing for a null one. *)
Definition export_column_bytes (V : Value.Interface) (m : Mem) (tuple : Tuple.t) (c : ColumnInfo) : Z :=
  match column_type c with
  | VALUE_TYPE_TINYINT | VALUE_TYPE_SMALLINT | VALUE_TYPE_INTEGER | VALUE_TYPE_BIGINT
  | VALUE_TYPE_TIMESTAMP | VALUE_TYPE_DOUBLE => 8
  | VALUE_TYPE_DECIMAL => 4 + Value.max_decimal_precision V + 1 + 1
  | VALUE_TYPE_VARCHAR | VALUE_TYPE_VARBINARY =>
      if Value.IsNull V (column_value V m tuple c) then 0
      else 4 + Value.PeekObjectLength V (column_value V m tuple c)
  | VALUE_TYPE_OTHER _ => 0
  end.

Definition sum_Z (l : list Z) : Z := fold_right Z.add 0 l.

Definition export_size_sum (V : Value.Interface) (m : Mem) (tuple : Tuple.t) (s : Schema) : Z :=
  sum_Z (map (export_column_bytes V m tuple) (columns s)).

(** The first column, in schema order, whose type is none of the nine. *)
Definition first_unknown_type (s : Schema) : option ValueType :=
  column_type <$> List.find (fun c => negb (export_type_known (column_type c))) (columns s).

Definition export_size_spec (V : Value.Interface) (m : Mem) (tuple : Tuple.t) (s : Schema) : Result Z :=
  match first_unknown_type s with
  | Some type => Err (UnknownTypeException type)
  | None => Ok (to_size_t (export_size_sum V m tuple s))
  end.

(** The body of the loop of [ExportSerializationSize] as a function of the
    column descriptor. *)
Definition export_size_step (V : Value.Interface) (m : Mem) (tuple : Tuple.t)
    (c : ColumnInfo) (bytes : Z) : Result Z :=
  match column_type c with
  | VALUE_TYPE_TINYINT | VALUE_TYPE_SMALLINT | VALUE_TYPE_INTEGER | VALUE_TYPE_BIGINT
  | VALUE_TYPE_TIMESTAMP | VALUE_TYPE_DOUBLE => Ok (size_t_add bytes 8)
  | VALUE_TYPE_DECIMAL =>
      Ok (size_t_add bytes (to_size_t (4 + Value.max_decimal_precision V + 1 + 1)))
  | VALUE_TYPE_VARCHAR | VALUE_TYPE_VARBINARY =>
      if negb (Value.IsNull V (column_value V m tuple c))
      then Ok (size_t_add bytes (to_size_t (4 + Value.PeekObjectLength V (column_value V m tuple c))))
      else Ok bytes
  | VALUE_TYPE_OTHER n => Err (UnknownTypeException (VALUE_TYPE_OTHER n))
  end.


(** *** Export serialization in the words of the specification *)

(** The columns of a schema with their indices, in schema order. *)
Definition indexed_columns (s : Schema) : list (nat * ColumnInfo) :=
  zip (seq 0 (length (columns s))) (columns s).

(** The output after the columns: a null column adds nothing, a non-null one
    what the value's export encoding writes. *)
Definition export_output_spec (V : Value.Interface) (m : Mem) (tuple : Tuple.t)
    (l : list ColumnInfo) (output : ExportSerializeOutput) : ExportSerializeOutput :=
  fold_left (fun out c =>
               let v := column_value V m tuple c in
               if Value.IsNull V v then out else Value.SerializeToExport V v out)
            l output.

(** Bit [j] (numbered from the least significant) of byte [k] of the bitmap
    is the bit of some null column among [l]: the column with index [i] owns
    the bit with mask [0x80 >> ((colOffset + i) mod 8)] of byte
    [(colOffset + i) >> 3]. *)
Definition null_bit_of (V : Value.Interface) (m : Mem) (tuple : Tuple.t) (colOffset : Z)
    (l : list (nat * ColumnInfo)) (k : nat) (j : Z) : bool :=
  existsb (fun ic : nat * ColumnInfo =>
             Value.IsNull V (column_value V m tuple (snd ic))
             && (Z.shiftr (colOffset + Z.of_nat (fst ic)) 3 =? Z.of_nat k)
             && Z.testbit (Z.shiftr 128 ((colOffset + Z.of_nat (fst ic)) mod 8)) j)
          l.

(** The body of the loop of [SerializeToExport] as a function of the column
    index and descriptor. *)
Definition export_step (V : Value.Interface) (m : Mem) (tuple : Tuple.t) (colOffset : Z)
    (ic : nat * ColumnInfo) (acc : ExportSerializeOutput * list byte)
    : Result (ExportSerializeOutput * list byte) :=
  let '(output, null_array) := acc in
  let v := column_value V m tuple (snd ic) in
  if Value.IsNull V v then
    match int_add colOffset (Z.of_nat (fst ic)) with
    | Ok index =>
        match Tuple.or_into null_array (Z.shiftr index 3) (Z.shiftr 128 (Z.rem index 8)) with
        | Ok null_array' => Ok (output, null_array')
        | Err e => Err e
        end
    | Err e => Err e
    end
  else Ok (Value.SerializeToExport V v output, null_array).

(** *** The mutating operations on the memory alone *)

(** A loop body run over the elements of a list, as a computation. *)
Fixpoint vfold {St A Acc} (step : A -> Acc -> StateM St Acc) (l : list A) (acc : Acc)
    : StateM St Acc :=
  match l with
  | [] => ret acc
  | x :: l' => acc' <- step x acc ;; vfold step l' acc'
  end.

(** The per-column deserialization call of the two storage formats for the
    column [c], with the pool [pool] passed on. *)
Definition deserialize_column (V : Value.Interface) (tuple : Tuple.t) (pool : option Pool)
    (c : ColumnInfo) (input : SerializeInput) : VM (Z * SerializeInput) :=
  Value.DeserializeFrom V input (column_type c) (column_ptr tuple c) (column_is_inlined c)
    (fixed_length c) pool.

(** The calls for the columns [l] in order, each on the input the call before
    left; the result is the counts the calls returned and the input left. *)
Fixpoint deserialize_columns (V : Value.Interface) (tuple : Tuple.t) (pool : option Pool)
    (l : list ColumnInfo) (input : SerializeInput) : VM (list Z * SerializeInput) :=
  match l with
  | [] => ret ([], input)
  | c :: l' =>
      r <- deserialize_column V tuple pool c input ;;
      r' <- deserialize_columns V tuple pool l' (snd r) ;;
      ret (fst r :: fst r', snd r')
  end.

(** [Value::DeserializeFrom] returns the number of bytes it consumed and
    leaves the input advanced past them. *)
Definition reports_consumption (V : Value.Interface) : Prop :=
  ∀ input type ptr is_inlined len pool m n input' m',
    Value.DeserializeFrom V input type ptr is_inlined len pool m = Ok ((n, input'), m') →
    ∃ consumed, input = consumed ++ input' ∧ n = Z.of_nat (length consumed).

(** The body of the loop of [DeserializeWithHeaderFrom] on the memory. *)
Definition header_step (V : Value.Interface) (tuple : Tuple.t) (c : ColumnInfo)
    (acc : Z * SerializeInput) : VM (Z * SerializeInput) :=
  r <- deserialize_column V tuple None c (snd acc) ;;
  total <- lift (int64_add (fst acc) (fst r)) ;;
  ret (total, snd r).

(** The body of the loop of [Copy] on the memory, for the uninlined column
    [c]: the value read through the copied record is cast to the column's
    type and written with an allocation. *)
Definition copy_column (V : Value.Interface) (tuple : Tuple.t) (pool : option Pool)
    (c : ColumnInfo) : VM unit :=
  m <- get ;;
  value <- lift (Value.CastAs V (column_value V m tuple c) (column_type c)) ;;
  Value.SerializeWithAllocation V value (column_ptr tuple c) (column_is_inlined c)
    (if negb (column_is_inlined c) then variable_length c else fixed_length c) pool.

(** The descriptors of the uninlined columns, in schema order. *)
Definition uninlined_infos (s : Schema) : list ColumnInfo :=
  List.filter (fun c => negb (column_is_inlined c)) (columns s).

(** [Copy] on the memory: the raw copy, then the uninlined columns. *)
Definition copy_memory (V : Value.Interface) (tuple : Tuple.t) (s : Schema) (source : N)
    (pool : option Pool) : VM unit :=
  modify (memcpy (Tuple.tuple_data tuple) source (tuple_length s)) ;;
  vfold (fun c _ => copy_column V tuple pool c) (uninlined_infos s) tt.

(** ** A concrete scenario *)

(** The schema [[INTEGER, VARCHAR(inlined = false)]], held at two addresses,
    and the rows [(42, "peloton")] and [(42, NULL)] written with
    [SetValueAllocate] into buffers of an otherwise empty memory. *)
Module Example.

Definition schema : Schema :=
  {| columns :=
       [ {| column_type := VALUE_TYPE_INTEGER; fixed_length := 4; variable_length := 0;
            column_offset := 0; column_is_inlined := true |};
         {| column_type := VALUE_TYPE_VARCHAR; fixed_length := 8; variable_length := 64;
            column_offset := 4; column_is_inlined := false |} ];
     tuple_length := 12 |}.

Definition schema_addr : N := 4096.
Definition twin_schema_addr : N := 8192.

Definition empty_state : State :=
  {| memory := {| mem_bytes := ∅; mem_heap := ∅ |};
     schemas := {[ schema_addr := schema; twin_schema_addr := schema ]} |}.

Definition tuple : Tuple.t := {| Tuple.tuple_schema := schema_addr; Tuple.tuple_data := 256 |}.
Definition other : Tuple.t := {| Tuple.tuple_schema := schema_addr; Tuple.tuple_data := 512 |}.
Definition twin : Tuple.t := {| Tuple.tuple_schema := twin_schema_addr; Tuple.tuple_data := 512 |}.

Definition peloton : list byte :=
  [Byte.x70; Byte.x65; Byte.x6c; Byte.x6f; Byte.x74; Byte.x6f; Byte.x6e].

Definition pool : N := 1.

(** The state a computation ends in ([st] itself when it raises). *)
Definition state_after {A} (c : M A) (st : State) : State :=
  match c st with
  | Ok (_, st') => st'
  | Err _ => st
  end.

Definition set_row (tuple : Tuple.t) (name : option (list byte)) : M unit :=
  Tuple.SetValueAllocate StubValue.ops tuple 0 (StubValue.Num VALUE_TYPE_INTEGER 42) (Some pool) ;;
  Tuple.SetValueAllocate StubValue.ops tuple 1 (StubValue.Obj VALUE_TYPE_VARCHAR name) (Some pool).

(** [tuple] holds [(42, "peloton")]. *)
Definition st_peloton : State := state_after (set_row tuple (Some peloton)) empty_state.

(** [tuple] holds [(42, NULL)]. *)
Definition st_null : State := state_after (set_row tuple None) empty_state.

(** [tuple] and [other] (and so [twin], which shares [other]'s buffer) both
    hold [(42, "peloton")], each with a block of its own. *)
Definition st_pair : State := state_after (set_row other (Some peloton)) st_peloton.

End Example.

(** ** Vocabulary of the memory statements *)

(** The two memories hold the same byte at every address of [[a, a + n)]. *)
Definition bytes_agree (m m' : Mem) (a n : N) : Prop :=
  ∀ x, (a <= x < a + n)%N → load_byte m x = load_byte m' x.

(** The two memories hold the same byte at every address outside
    [[a, a + n)]. *)
Definition bytes_agree_outside (m m' : Mem) (a n : N) : Prop :=
  ∀ x, (x < a ∨ a + n <= x)%N → load_byte m x = load_byte m' x.

(** Every block live in [m] is live and the same in [m']. *)
Definition heap_extends (m m' : Mem) : Prop :=
  ∀ h b, mem_heap m !! h = Some b → mem_heap m' !! h = Some b.

(** The number of bytes the reference [Value] reads at [ptr] to materialize a
    value of the given type. *)
Definition stub_extent (m : Mem) (ptr : N) (type : ValueType) (is_inlined : bool) : N :=
  match StubValue.width type with
  | Some w => N.of_nat w
  | None =>
      if StubValue.is_object type then
        if is_inlined then
          let l := Z_of_byte (load_byte m ptr) in
          if l =? 255 then 1 else (1 + Z.to_N l)%N
        else 8
      else 0
  end.

(** The number of bytes of the slot of a column in the layout of the
    reference [Value]. *)
Definition stub_slot_size (c : ColumnInfo) : N :=
  match StubValue.width (column_type c) with
  | Some w => N.of_nat w
  | None => if column_is_inlined c then Z.to_N (fixed_length c) else 8
  end.

(** The slots of two columns do not overlap. *)
Definition slots_apart (c c' : ColumnInfo) : Prop :=
  (column_offset c + stub_slot_size c <= column_offset c' ∨
   column_offset c' + stub_slot_size c' <= column_offset c)%N.

(** The schema invariant of the data model, for the layout of the reference
    [Value]: the slots of distinct columns do not overlap and lie in the
    fixed-size region, and only variable-length columns are uninlined. *)
Record schema_layout (s : Schema) : Prop := {
  layout_apart :
    ∀ i j c c', i ≠ j → columns s !! i = Some c → columns s !! j = Some c' → slots_apart c c';
  layout_inside :
    ∀ c, c ∈ columns s → (column_offset c + stub_slot_size c <= tuple_length s)%N;
  layout_uninlined :
    ∀ c, c ∈ columns s → column_is_inlined c = false →
         StubValue.is_object (column_type c) = true
}.

(** The two buffers of [len] bytes do not overlap. *)
Definition buffers_apart (a b len : N) : Prop :=
  (a + len <= b ∨ b + len <= a)%N.

(** The indirection record of the uninlined column [c] of the tuple is null
    or names a live block. *)
Definition handle_valid (m : Mem) (tuple : Tuple.t) (c : ColumnInfo) : Prop :=
  StubValue.handle_at m (column_ptr tuple c) = 0%N ∨
  is_Some (mem_heap m !! StubValue.handle_at m (column_ptr tuple c)).

(** The column holds a value of the reference [Value] in its slot: its type
    is one the reference models; an inlined variable-length slot has room for
    its length byte and holds null or a payload that fits; an uninlined one
    is null or names a live block whose length fits the 4-byte prefix. *)
Definition column_valid (m : Mem) (tuple : Tuple.t) (c : ColumnInfo) : Prop :=
  match StubValue.width (column_type c) with
  | Some _ => True
  | None =>
      StubValue.is_object (column_type c) = true ∧
      if column_is_inlined c then
        1 <= fixed_length c ∧
        (Z_of_byte (load_byte m (column_ptr tuple c)) = 255 ∨
         Z_of_byte (load_byte m (column_ptr tuple c)) < fixed_length c)
      else
        StubValue.handle_at m (column_ptr tuple c) = 0%N ∨
        ∃ b, mem_heap m !! StubValue.handle_at m (column_ptr tuple c) = Some b ∧
             Z.of_nat (length (block_payload b)) < 2 ^ 31
  end.

(** The tuple over [s] whose buffer starts at [source]. *)
Definition tuple_at (tuple : Tuple.t) (source : N) : Tuple.t :=
  {| Tuple.tuple_schema := Tuple.tuple_schema tuple; Tuple.tuple_data := source |}.

(** The slots of the columns of the list do not overlap one another. *)
Fixpoint slots_pairwise (l : list ColumnInfo) : Prop :=
  match l with
  | [] => True
  | c :: l' => Forall (slots_apart c) l' ∧ slots_pairwise l'
  end.

(** The address [x] lies in the slot of none of the columns [l] of the tuple. *)
Definition outside_slots (tuple : Tuple.t) (l : list ColumnInfo) (x : N) : Prop :=
  Forall (fun c => (x < column_ptr tuple c ∨ column_ptr tuple c + stub_slot_size c <= x)%N) l.

(** The bytes the reference [Value] writes for the values of the columns [l]
    of the tuple, one after the other. *)
Definition serialized_columns (m : Mem) (tuple : Tuple.t) (l : list ColumnInfo) : list byte :=
  concat (map (fun c => StubValue.SerializeTo (column_value StubValue.ops m tuple c) []) l).

(** The uninlined column [c] of [dst] in [m'] is a copy of the column of
    [src] in [m0] made with an allocation from [pool]: both records are null,
    or the record of [src] names a block live in [m0] and the record of [dst]
    names a block that was not live in [m0], drawn from [pool], with the same
    payload. *)
Definition copied_column (m0 m' : Mem) (pool : option Pool) (src dst : Tuple.t)
    (c : ColumnInfo) : Prop :=
  (StubValue.handle_at m' (column_ptr dst c) = 0%N ∧
   StubValue.handle_at m0 (column_ptr src c) = 0%N) ∨
  (∃ p b,
     pool = Some p ∧
     StubValue.handle_at m0 (column_ptr src c) ≠ 0%N ∧
     mem_heap m0 !! StubValue.handle_at m0 (column_ptr src c) = Some b ∧
     StubValue.handle_at m' (column_ptr dst c) ≠ 0%N ∧
     mem_heap m0 !! StubValue.handle_at m' (column_ptr dst c) = None ∧
     mem_heap m' !! StubValue.handle_at m' (column_ptr dst c)
     = Some {| block_pool := p; block_payload := block_payload b |}).

(** [h] is the handle in the record of no uninlined column of the tuple. *)
Definition unreferenced (m : Mem) (tuple : Tuple.t) (s : Schema) (h : N) : Prop :=
  ∀ c, c ∈ columns s → column_is_inlined c = false →
       h ≠ StubValue.handle_at m (column_ptr tuple c).

(** [m'] is [m] after the payload blocks of the uninlined columns of the
    tuple were changed or freed: the bytes are those of [m] and so is every
    block no record of the tuple names. *)
Definition payloads_changed (m m' : Mem) (tuple : Tuple.t) (s : Schema) : Prop :=
  (∀ x, load_byte m' x = load_byte m x) ∧
  (∀ h, unreferenced m tuple s h → mem_heap m' !! h = mem_heap m !! h).

(** After [Copy]: every uninlined column of the destination is a copy made
    with an allocation and reads as the source's column did; no block is named
    by a record of the destination and by a record of the source; and changing
    or freeing the payload blocks of one of the two tuples leaves every value
    read from the other as it was. *)
Definition copies_apart (m0 m' : Mem) (pool : option Pool) (tuple : Tuple.t) (s : Schema)
    (source : N) : Prop :=
  let src := tuple_at tuple source in
  (∀ c, c ∈ columns s → column_is_inlined c = false →
        copied_column m0 m' pool src tuple c ∧
        column_value StubValue.ops m' tuple c = column_value StubValue.ops m0 src c) ∧
  (∀ c c', c ∈ columns s → c' ∈ columns s →
           column_is_inlined c = false → column_is_inlined c' = false →
           StubValue.handle_at m' (column_ptr tuple c) ≠ 0%N →
           StubValue.handle_at m' (column_ptr tuple c)
           ≠ StubValue.handle_at m' (column_ptr src c')) ∧
  (∀ m'', payloads_changed m' m'' src s →
          ∀ c, c ∈ columns s →
               column_value StubValue.ops m'' tuple c = column_value StubValue.ops m' tuple c) ∧
  (∀ m'', payloads_changed m' m'' tuple s →
          ∀ c, c ∈ columns s →
               column_value StubValue.ops m'' src c = column_value StubValue.ops m' src c).

(** The record of the column [c] of [dst] names in [m'] a block drawn from
    [pool] that was not live in [m0]. *)
Definition refers_to_fresh_block (m0 m' : Mem) (pool : option Pool) (dst : Tuple.t)
    (c : ColumnInfo) : Prop :=
  ∃ p b,
    pool = Some p ∧
    mem_heap m0 !! StubValue.handle_at m' (column_ptr dst c) = None ∧
    mem_heap m' !! StubValue.handle_at m' (column_ptr dst c) = Some b ∧
    block_pool b = p.

(** ** Vocabulary of the size accounting *)

Definition is_variable_length (type : ValueType) : bool :=
  match type with
  | VALUE_TYPE_VARCHAR | VALUE_TYPE_VARBINARY => true
  | _ => false
  end.

(** The out-of-line bytes of a column: the length prefix and the payload of a
    non-null value of a variable-length column that is not inlined, nothing
    for any other column. *)
Definition uninlined_column_bytes (V : Value.Interface) (m : Mem) (tuple : Tuple.t)
    (c : ColumnInfo) : Z :=
  if is_variable_length (column_type c) && negb (column_is_inlined c) then
    if Value.IsNull V (column_value V m tuple c) then 0
    else 4 + Value.PeekObjectLength V (column_value V m tuple c)
  else 0.

Definition uninlined_size_sum (V : Value.Interface) (m : Mem) (tuple : Tuple.t) (s : Schema) : Z :=
  sum_Z (map (uninlined_column_bytes V m tuple) (columns s)).

(** The body of the loop of [GetUninlinedMemorySize] as a function of the
    column descriptor. *)
Definition uninlined_size_step (V : Value.Interface) (m : Mem) (tuple : Tuple.t)
    (c : ColumnInfo) (bytes : Z) : Result Z :=
  if is_variable_length (column_type c) && negb (column_is_inlined c) then
    if negb (Value.IsNull V (column_value V m tuple c))
    then Ok (size_t_add bytes (to_size_t (4 + Value.PeekObjectLength V (column_value V m tuple c))))
    else Ok bytes
  else Ok bytes.

(** The export bytes of a column of fixed size; nothing for the others. *)
Definition fixed_export_bytes (V : Value.Interface) (c : ColumnInfo) : Z :=
  match column_type c with
  | VALUE_TYPE_TINYINT | VALUE_TYPE_SMALLINT | VALUE_TYPE_INTEGER | VALUE_TYPE_BIGINT
  | VALUE_TYPE_TIMESTAMP | VALUE_TYPE_DOUBLE => 8
  | VALUE_TYPE_DECIMAL => 4 + Value.max_decimal_precision V + 1 + 1
  | _ => 0
  end.

Definition fixed_export_sum (V : Value.Interface) (s : Schema) : Z :=
  sum_Z (map (fixed_export_bytes V) (columns s)).

(** ** Vocabulary of the storage format *)

(** The bytes [Value::SerializeTo] writes for the values of the columns of
    the tuple, one after the other. *)
Definition encoded_columns (V : Value.Interface) (m : Mem) (tuple : Tuple.t) (s : Schema)
    : list byte :=
  concat (map (fun c => Value.SerializeTo V (column_value V m tuple c) []) (columns s)).

(** [Value::SerializeTo] writes at the end of the output and leaves what was
    written before as it is. *)
Definition appends_only (V : Value.Interface) : Prop :=
  ∀ v output, Value.SerializeTo V v output = output ++ Value.SerializeTo V v [].

(** ** A second scenario: inlined columns only *)

(** The schema [[INTEGER, VARCHAR(8, inlined)]] and the row [(42, "peloton")]
    written with [SetValueAllocate], without a pool, into the buffer of
    [tuple] in an otherwise empty memory. *)
Module ExampleInlined.

Definition schema : Schema :=
  {| columns :=
       [ {| column_type := VALUE_TYPE_INTEGER; fixed_length := 4; variable_length := 0;
            column_offset := 0; column_is_inlined := true |};
         {| column_type := VALUE_TYPE_VARCHAR; fixed_length := 8; variable_length := 0;
            column_offset := 4; column_is_inlined := true |} ];
     tuple_length := 12 |}.

Definition schema_addr : N := 4096.

Definition empty_state : State :=
  {| memory := {| mem_bytes := ∅; mem_heap := ∅ |};
     schemas := {[ schema_addr := schema ]} |}.

Definition tuple : Tuple.t := {| Tuple.tuple_schema := schema_addr; Tuple.tuple_data := 256 |}.
Definition other : Tuple.t := {| Tuple.tuple_schema := schema_addr; Tuple.tuple_data := 512 |}.

Definition set_row (tuple : Tuple.t) (name : option (list byte)) : M unit :=
  Tuple.SetValueAllocate StubValue.ops tuple 0 (StubValue.Num VALUE_TYPE_INTEGER 42) None ;;
  Tuple.SetValueAllocate StubValue.ops tuple 1 (StubValue.Obj VALUE_TYPE_VARCHAR name) None.

(** [tuple] holds [(42, "peloton")]. *)
Definition st_peloton : State :=
  Example.state_after (set_row tuple (Some Example.peloton)) empty_state.

End ExampleInlined.

(** ** Vocabulary of the ordering *)

(** [Value::Compare] is antisymmetric, and transitive as "at most". *)
Definition compare_antisymmetric (V : Value.Interface) : Prop :=
  ∀ a b : Value.t V, Value.Compare V b a = - Value.Compare V a b.

Definition compare_transitive (V : Value.Interface) : Prop :=
  ∀ a b c : Value.t V,
    Value.Compare V a b <= 0 → Value.Compare V b c <= 0 → Value.Compare V a c <= 0.

(** [Value::OpNotEquals] is false exactly on the values [Value::Compare]
    finds equal. *)
Definition compare_zero_is_equal (V : Value.Interface) : Prop :=
  ∀ a b : Value.t V,
    Value.Compare V a b = 0 ↔ Value.IsTrue V (Value.OpNotEquals V a b) = false.

(** ** Vocabulary of the release *)

(** The body of the loop of [FreeUninlinedData] on the memory, for the
    uninlined column [c]: the value is read, then released. *)
Definition free_column (V : Value.Interface) (Value_FreeUninlinedData : Value.t V -> VM unit)
    (tuple : Tuple.t) (c : ColumnInfo) : VM unit :=
  m <- get ;; Value_FreeUninlinedData (column_value V m tuple c).

(** ** Vocabulary of the export contract *)

(** [Value::SerializeToExport] writes at the end of the output and leaves
    what was written before as it is. *)
Definition export_appends_only (V : Value.Interface) : Prop :=
  ∀ v output, Value.SerializeToExport V v output = output ++ Value.SerializeToExport V v [].

(** The export encoding of a non-null value read from a column of a listed
    type takes at most the bytes [ExportSerializationSize] counts for the
    column. *)
Definition export_within_count (V : Value.Interface) : Prop :=
  ∀ m tuple c,
    Value.IsNull V (column_value V m tuple c) = false →
    export_type_known (column_type c) = true →
    Z.of_nat (length (Value.SerializeToExport V (column_value V m tuple c) []))
    <= export_column_bytes V m tuple c.

Definition is_fixed_numeric (type : ValueType) : bool :=
  match type with
  | VALUE_TYPE_TINYINT | VALUE_TYPE_SMALLINT | VALUE_TYPE_INTEGER | VALUE_TYPE_BIGINT
  | VALUE_TYPE_TIMESTAMP | VALUE_TYPE_DOUBLE => true
  | _ => false
  end.

(** The columns of a fixed numeric type that hold null. *)
Definition null_fixed_columns (V : Value.Interface) (m : Mem) (tuple : Tuple.t)
    (l : list ColumnInfo) : list ColumnInfo :=
  List.filter (fun c => is_fixed_numeric (column_type c)
                        && Value.IsNull V (column_value V m tuple c)) l.

(** ** Vocabulary of the field mutation *)

(** The value fits the slot of the column in the layout of the reference
    [Value]: an inlined variable-length slot has room for the length byte and
    for the whole payload, and a payload's length fits the 4-byte prefix. *)
Definition storable (c : ColumnInfo) (v : StubValue.t) : Prop :=
  match v with
  | StubValue.Obj _ o =>
      (column_is_inlined c = true →
       1 <= fixed_length c ∧
       ∀ p, o = Some p → Z.of_nat (length p) < fixed_length c ∧ (length p <= 254)%nat) ∧
      (∀ p, o = Some p → Z.of_nat (length p) < 2 ^ 31)
  | _ => True
  end.

(** ** Vocabulary of the storage contract *)

(** The pool of the reference [Value] can hand out [k] more blocks: the
    handle it gives out next, and the [k - 1] after it, fit the 8-byte
    indirection record. *)
Definition pool_room (m : Mem) (k : nat) : Prop :=
  (StubValue.fresh_handle m + N.of_nat k <= 2 ^ 64)%N.

(** The slots of two columns, of the sizes [slot] gives, do not overlap. *)
Definition apart_for (slot : ColumnInfo -> N) (c c' : ColumnInfo) : Prop :=
  (column_offset c + slot c <= column_offset c' ∨
   column_offset c' + slot c' <= column_offset c)%N.

(** The schema invariant of the data model for the slot sizes [slot]: the
    slots of distinct columns do not overlap and lie in the fixed-size
    region. *)
Record layout_for (slot : ColumnInfo -> N) (s : Schema) : Prop := {
  layout_for_apart :
    ∀ i j c c', i ≠ j → columns s !! i = Some c → columns s !! j = Some c' →
                apart_for slot c c';
  layout_for_inside :
    ∀ c, c ∈ columns s → (column_offset c + slot c <= tuple_length s)%N
}.

(** [Value::OpNotEquals] does not find the two values different. *)
Definition value_equal (V : Value.Interface) (a b : Value.t V) : Prop :=
  Value.IsTrue V (Value.OpNotEquals V a b) = false.

(** The contract of [Value]'s storage format, for slots of the sizes [slot],
    the columns that hold a value ([valid]) and the memories in which the
    pool can serve [k] more uninlined columns ([ready]):
    - [SerializeTo] only appends to the output;
    - a column that holds a value reads the same, and still holds a value,
      when the bytes of its slot are kept and the payload blocks stay;
    - [DeserializeFrom], called as [Tuple::DeserializeFrom] calls it for a
      column (its type, its data pointer, its inlined flag, [GetLength] as the
      length), on the bytes [SerializeTo] wrote for the value a column of that
      descriptor holds, returns, consumes these bytes and no more, leaves in
      the slot a value that [OpNotEquals] finds equal to the one written,
      writes no byte outside the slot and releases no block; an uninlined
      column takes one unit of the pool's room, an inlined one none. *)
Record storage_contract (V : Value.Interface) (slot : ColumnInfo -> N)
    (valid : Mem -> Tuple.t -> ColumnInfo -> Prop) (ready : Mem -> nat -> Prop) : Prop := {
  contract_appends : appends_only V;
  contract_read :
    ∀ m m2 tuple c,
      valid m tuple c →
      bytes_agree m m2 (column_ptr tuple c) (slot c) →
      heap_extends m m2 →
      column_value V m2 tuple c = column_value V m tuple c ∧ valid m2 tuple c;
  contract_store :
    ∀ m0 tuple c tuple' pool rest m k,
      valid m0 tuple c →
      ready m (if column_is_inlined c then k else S k) →
      ∃ n m',
        deserialize_column V tuple' (Some pool) c
          (Value.SerializeTo V (column_value V m0 tuple c) [] ++ rest) m
        = Ok ((n, rest), m') ∧
        value_equal V (column_value V m' tuple' c) (column_value V m0 tuple c) ∧
        value_equal V (column_value V m0 tuple c) (column_value V m' tuple' c) ∧
        valid m' tuple' c ∧
        bytes_agree_outside m m' (column_ptr tuple' c) (slot c) ∧
        heap_extends m m' ∧
        ready m' k
}.

(** ** A release for the scenarios *)

(** A value the reference [Value] reads from a column keeps no handle, so
    this release finds the block by its payload: it drops every payload block
    that holds the payload of the value, and does nothing for null. *)
Definition release_by_payload (v : StubValue.t) : VM unit :=
  match v with
  | StubValue.Obj _ (Some p) =>
      modify (fun m => {| mem_bytes := mem_bytes m;
                          mem_heap := filter (fun hb => block_payload hb.2 ≠ p) (mem_heap m) |})
  | _ => ret tt
  end.

(** The slots of the columns of the list, of the sizes [slot] gives, do not
    overlap one another; the address [x] lies in none of them. *)
Fixpoint pairwise_for (slot : ColumnInfo -> N) (l : list ColumnInfo) : Prop :=
  match l with
  | [] => True
  | c :: l' => Forall (apart_for slot c) l' ∧ pairwise_for slot l'
  end.

Definition outside_for (slot : ColumnInfo -> N) (tuple : Tuple.t) (l : list ColumnInfo)
    (x : N) : Prop :=
  Forall (fun c => (x < column_ptr tuple c ∨ column_ptr tuple c + slot c <= x)%N) l.


(** * Facts *)

(** ** The monad *)

Create HintDb read_only.

Lemma bind_Ok {S A B} (c : StateM S A) (k : A -> StateM S B) st a st' :
  c st = Ok (a, st') → bind c k st = k a st'.
Proof. intros H. unfold bind. by rewrite H. Qed.

Lemma bind_Err {S A B} (c : StateM S A) (k : A -> StateM S B) st e :
  c st = Err e → bind c k st = Err e.
Proof. intros H. unfold bind. by rewrite H. Qed.

Lemma bind_unchanged {S A B} (c : StateM S A) (k : A -> StateM S B) st (r : Result A) :
  c st = unchanged r st →
  bind c k st = match r with Ok a => k a st | Err e => Err e end.
Proof. intros H. unfold bind. rewrite H. by destruct r. Qed.

Lemma bind_inv {S A B} (c : StateM S A) (k : A -> StateM S B) st b st' :
  bind c k st = Ok (b, st') → ∃ a st1, c st = Ok (a, st1) ∧ k a st1 = Ok (b, st').
Proof.
  unfold bind. destruct (c st) as [[a st1]|e] eqn:E; [|done]. intros H. by exists a, st1.
Qed.

Lemma read_only_ret {S A} (a : A) : read_only (@ret S A a).
Proof. intros st x st' H. by inversion H. Qed.

Lemma read_only_throw {S A} e : read_only (@throw S A e).
Proof. by intros st x st' H. Qed.

Lemma read_only_lift {S A} (r : Result A) : read_only (@lift S A r).
Proof. intros st x st' H. unfold lift in H. destruct r; by inversion H. Qed.

Lemma read_only_assert {S} b : read_only (@assert S b).
Proof. destruct b; [apply read_only_ret | apply read_only_throw]. Qed.

Lemma read_only_get_mem : read_only get_mem.
Proof. intros st x st' H. by inversion H. Qed.

Lemma read_only_bind {S A B} (c : StateM S A) (k : A -> StateM S B) :
  read_only c → (∀ a, read_only (k a)) → read_only (bind c k).
Proof.
  intros Hc Hk st b st' H. apply bind_inv in H as (a & st1 & H1 & H2).
  apply Hc in H1 as ->. by apply Hk in H2.
Qed.

Lemma read_only_if {S A} (b : bool) (c1 c2 : StateM S A) :
  read_only c1 → read_only c2 → read_only (if b then c1 else c2).
Proof. by destruct b. Qed.

Lemma read_only_for_loop {St S} (body : nat -> S -> StateM St S) :
  (∀ i acc, read_only (body i acc)) → ∀ n i acc, read_only (for_loop body i n acc).
Proof.
  intros Hb n. induction n as [|n IH]; intros i acc; simpl.
  - apply read_only_ret.
  - apply read_only_bind; [apply Hb | intros a; apply IH].
Qed.

Lemma read_only_for_loop_return {St R} (body : nat -> StateM St (option R)) :
  (∀ i, read_only (body i)) → ∀ n i, read_only (for_loop_return body i n).
Proof.
  intros Hb n. induction n as [|n IH]; intros i; simpl.
  - apply read_only_ret.
  - apply read_only_bind; [apply Hb|]. intros [r|]; [apply read_only_ret | apply IH].
Qed.

#[global] Hint Resolve read_only_ret read_only_throw read_only_lift read_only_assert
  read_only_get_mem read_only_bind read_only_if read_only_for_loop
  read_only_for_loop_return : read_only.

(** A loop whose body, in the state [st], computes a function of the list
    element at the loop index and leaves [st] alone is a fold over the list. *)
Lemma for_loop_fold_from {St Acc A} (body : nat -> Acc -> StateM St Acc)
    (step : A -> Acc -> Result Acc) (st : St) (l : list A) :
  ∀ (i : nat) (acc : Acc),
    (∀ j x a, l !! j = Some x → body (i + j)%nat a st = unchanged (step x a) st) →
    for_loop body i (length l) acc st = unchanged (fold_result step l acc) st.
Proof.
  induction l as [|x l IH]; intros i acc Hb; simpl; [done|].
  rewrite (bind_unchanged _ _ _ (step x acc)).
  - destruct (step x acc) as [acc'|e]; [|done].
    apply IH. intros j y a Hj. replace (S i + j)%nat with (i + S j)%nat by lia. by apply Hb.
  - replace i with (i + 0)%nat at 1 by lia. by apply Hb.
Qed.

Lemma for_loop_fold {St Acc A} (body : nat -> Acc -> StateM St Acc)
    (step : A -> Acc -> Result Acc) (st : St) (l : list A) (acc : Acc) :
  (∀ j x a, l !! j = Some x → body j a st = unchanged (step x a) st) →
  for_loop body 0 (length l) acc st = unchanged (fold_result step l acc) st.
Proof. intros Hb. by apply for_loop_fold_from. Qed.

Lemma for_loop_return_first_from {St A R} (body : nat -> StateM St (option R))
    (step : A -> Result (option R)) (st : St) (l : list A) :
  ∀ (i : nat),
    (∀ j x, l !! j = Some x → body (i + j)%nat st = unchanged (step x) st) →
    for_loop_return body i (length l) st = unchanged (first_some step l) st.
Proof.
  induction l as [|x l IH]; intros i Hb; simpl; [done|].
  rewrite (bind_unchanged _ _ _ (step x)).
  - destruct (step x) as [[r|]|e]; [done| |done].
    apply IH. intros j y Hj. replace (S i + j)%nat with (i + S j)%nat by lia. by apply Hb.
  - replace i with (i + 0)%nat at 1 by lia. by apply Hb.
Qed.

Lemma for_loop_return_first {St A R} (body : nat -> StateM St (option R))
    (step : A -> Result (option R)) (st : St) (l : list A) :
  (∀ j x, l !! j = Some x → body j st = unchanged (step x) st) →
  for_loop_return body 0 (length l) st = unchanged (first_some step l) st.
Proof. intros Hb. by apply for_loop_return_first_from. Qed.

Lemma fold_result_Ok {A Acc} (g : A -> Acc -> Acc) (l : list A) (acc : Acc) :
  fold_result (fun x a => Ok (g x a)) l acc = Ok (fold_left (fun a x => g x a) l acc).
Proof. revert acc. induction l as [|x l IH]; intros acc; simpl; [done | apply IH]. Qed.

(** ** Reading a bound tuple *)

Lemma is_set_true p : p ≠ 0%N → Tuple.is_set p = true.
Proof. intros H. unfold Tuple.is_set. by destruct (N.eqb_spec p 0). Qed.

Lemma schema_at_bound st tuple s :
  bound st tuple s → Tuple.schema_at (Tuple.tuple_schema tuple) st = Ok (s, st).
Proof.
  intros (Hs & _ & Hl). unfold Tuple.schema_at.
  destruct (N.eqb_spec (Tuple.tuple_schema tuple) 0); [done|]. by rewrite Hl.
Qed.

Lemma schema_call_bound {A} st tuple s (f : Schema -> Result A) :
  bound st tuple s → Tuple.schema_call tuple f st = unchanged (f s) st.
Proof.
  intros Hb. unfold Tuple.schema_call, bind. rewrite (schema_at_bound _ _ _ Hb).
  unfold lift, unchanged. by destruct (f s).
Qed.

Lemma column_lookup s i c : columns s !! i = Some c → SchemaOps.column s i = Ok c.
Proof. intros H. unfold SchemaOps.column. by rewrite H. Qed.

Lemma column_outside s i : columns s !! i = None → SchemaOps.column s i = Err PreconditionViolation.
Proof. intros H. unfold SchemaOps.column. by rewrite H. Qed.

Section BoundColumn.

Context (st : State) (tuple : Tuple.t) (s : Schema) (i : nat) (c : ColumnInfo).
Hypothesis Hbound : bound st tuple s.
Hypothesis Hcol : columns s !! i = Some c.

Lemma schema_GetType_bound : Tuple.schema_GetType tuple i st = Ok (column_type c, st).
Proof.
  unfold Tuple.schema_GetType. rewrite (schema_call_bound _ _ _ _ Hbound).
  by rewrite (column_lookup _ _ _ Hcol).
Qed.

Lemma schema_IsInlined_bound : Tuple.schema_IsInlined tuple i st = Ok (column_is_inlined c, st).
Proof.
  unfold Tuple.schema_IsInlined. rewrite (schema_call_bound _ _ _ _ Hbound).
  by rewrite (column_lookup _ _ _ Hcol).
Qed.

Lemma schema_GetLength_bound : Tuple.schema_GetLength tuple i st = Ok (fixed_length c, st).
Proof.
  unfold Tuple.schema_GetLength. rewrite (schema_call_bound _ _ _ _ Hbound).
  by rewrite (column_lookup _ _ _ Hcol).
Qed.

Lemma schema_GetVariableLength_bound :
  Tuple.schema_GetVariableLength tuple i st = Ok (variable_length c, st).
Proof.
  unfold Tuple.schema_GetVariableLength. rewrite (schema_call_bound _ _ _ _ Hbound).
  by rewrite (column_lookup _ _ _ Hcol).
Qed.

Lemma schema_GetOffset_bound : Tuple.schema_GetOffset tuple i st = Ok (column_offset c, st).
Proof.
  unfold Tuple.schema_GetOffset. rewrite (schema_call_bound _ _ _ _ Hbound).
  by rewrite (column_lookup _ _ _ Hcol).
Qed.

Lemma GetDataPtr_bound : Tuple.GetDataPtr tuple i st = Ok (column_ptr tuple c, st).
Proof.
  destruct Hbound as (Hs & Hd & _).
  unfold Tuple.GetDataPtr, bind. rewrite (is_set_true _ Hs), (is_set_true _ Hd). simpl.
  by rewrite schema_GetOffset_bound.
Qed.

Lemma GetValue_bound (V : Value.Interface) :
  Tuple.GetValue V tuple i st = Ok (column_value V (memory st) tuple c, st).
Proof.
  unfold Tuple.GetValue, bind.
  by rewrite schema_GetType_bound, GetDataPtr_bound, schema_IsInlined_bound.
Qed.

Lemma IsNull_bound (V : Value.Interface) :
  Tuple.IsNull V tuple i st = Ok (Value.IsNull V (column_value V (memory st) tuple c), st).
Proof. unfold Tuple.IsNull, bind. by rewrite GetValue_bound. Qed.

End BoundColumn.

Lemma schema_GetColumnCount_bound st tuple s :
  bound st tuple s → Tuple.schema_GetColumnCount tuple st = Ok (length (columns s), st).
Proof. intros Hb. unfold Tuple.schema_GetColumnCount. by rewrite (schema_call_bound _ _ _ _ Hb). Qed.

Lemma GetValue_outside (V : Value.Interface) st tuple s i :
  bound st tuple s → columns s !! i = None →
  Tuple.GetValue V tuple i st = Err PreconditionViolation.
Proof.
  intros Hb Hc. unfold Tuple.GetValue, bind, Tuple.schema_GetType.
  rewrite (schema_call_bound _ _ _ _ Hb). by rewrite (column_outside _ _ Hc).
Qed.

(** ** Read-only computations *)

Lemma read_only_schema_at p : read_only (Tuple.schema_at p).
Proof.
  intros st s st' H. unfold Tuple.schema_at in H.
  destruct (p =? 0)%N; [done|]. destruct (schemas st !! p); by inversion H.
Qed.

#[global] Hint Resolve read_only_schema_at : read_only.

Lemma read_only_schema_call {A} tuple (f : Schema -> Result A) :
  read_only (Tuple.schema_call tuple f).
Proof. unfold Tuple.schema_call. eauto with read_only. Qed.

#[global] Hint Resolve read_only_schema_call : read_only.

Lemma read_only_GetDataPtr tuple i : read_only (Tuple.GetDataPtr tuple i).
Proof.
  unfold Tuple.GetDataPtr, Tuple.schema_GetOffset. eauto 10 with read_only.
Qed.

#[global] Hint Resolve read_only_GetDataPtr : read_only.

Lemma read_only_GetValue V tuple i : read_only (Tuple.GetValue V tuple i).
Proof.
  unfold Tuple.GetValue, Tuple.schema_GetType, Tuple.schema_IsInlined.
  eauto 12 with read_only.
Qed.

#[global] Hint Resolve read_only_GetValue : read_only.

Lemma read_only_EqualsNoSchemaCheck V tuple other :
  read_only (Tuple.EqualsNoSchemaCheck V tuple other).
Proof.
  unfold Tuple.EqualsNoSchemaCheck, Tuple.schema_GetColumnCount.
  apply read_only_bind; [eauto with read_only|]. intros n.
  apply read_only_bind.
  - apply read_only_for_loop_return. intros i.
    apply read_only_bind; [eauto with read_only|]. intros lhs.
    apply read_only_bind; [eauto with read_only|]. intros rhs.
    apply read_only_if; eauto with read_only.
  - intros [b|]; eauto with read_only.
Qed.

Lemma read_only_Compare V tuple other : read_only (Tuple.Compare V tuple other).
Proof.
  unfold Tuple.Compare, Tuple.schema_GetColumnCount.
  apply read_only_bind; [eauto with read_only|]. intros n.
  apply read_only_bind.
  - apply read_only_for_loop_return. intros i.
    apply read_only_bind; [eauto with read_only|]. intros lhs.
    apply read_only_bind; [eauto with read_only|]. intros rhs.
    apply read_only_if; eauto with read_only.
  - intros [b|]; eauto with read_only.
Qed.

Lemma read_only_HashCode_seed V tuple seed : read_only (Tuple.HashCode_seed V tuple seed).
Proof.
  unfold Tuple.HashCode_seed, Tuple.schema_GetColumnCount.
  apply read_only_bind; [eauto with read_only|]. intros n.
  apply read_only_for_loop. intros i acc. eauto with read_only.
Qed.

Lemma read_only_HashCode V tuple : read_only (Tuple.HashCode V tuple).
Proof. apply read_only_HashCode_seed. Qed.

Lemma read_only_ExportSerializationSize V tuple :
  read_only (Tuple.ExportSerializationSize V tuple).
Proof.
  unfold Tuple.ExportSerializationSize, Tuple.GetColumnCount, Tuple.schema_GetColumnCount,
    Tuple.GetType, Tuple.schema_GetType.
  apply read_only_bind; [eauto with read_only|]. intros n.
  apply read_only_for_loop. intros i acc.
  apply read_only_bind; [eauto with read_only|]. intros ty.
  destruct ty; eauto 8 with read_only.
  all: apply read_only_bind; [eauto with read_only|]; intros v;
    apply read_only_if; eauto with read_only.
Qed.

(** ** Equality, comparison and hashing of bound tuples *)

Section SameSchema.

Context (V : Value.Interface) (st : State) (t1 t2 : Tuple.t) (s : Schema).
Hypothesis Hb1 : bound st t1 s.
Hypothesis Hb2 : bound st t2 s.

Lemma first_some_equal (l : list ColumnInfo) :
  first_some (fun c => Ok (if Value.IsTrue V (Value.OpNotEquals V
                                  (column_value V (memory st) t1 c)
                                  (column_value V (memory st) t2 c))
                           then Some false else None)) l
  = Ok (if forallb (column_equal V (memory st) t1 t2) l then None else Some false).
Proof.
  induction l as [|c l IH]; simpl; [done|]. unfold column_equal at 1.
  destruct (Value.IsTrue V _); simpl; [done | apply IH].
Qed.

Lemma EqualsNoSchemaCheck_bound :
  Tuple.EqualsNoSchemaCheck V t1 t2 st = Ok (columns_equal V (memory st) t1 t2 s, st).
Proof.
  unfold Tuple.EqualsNoSchemaCheck.
  rewrite (bind_Ok _ _ _ _ _ (schema_GetColumnCount_bound _ _ _ Hb1)).
  erewrite bind_unchanged; cycle 1.
  { apply for_loop_return_first with
      (step := fun c => Ok (if Value.IsTrue V (Value.OpNotEquals V
                                     (column_value V (memory st) t1 c)
                                     (column_value V (memory st) t2 c))
                            then Some false else None)).
    intros j c Hc. unfold bind.
    rewrite (GetValue_bound _ _ _ _ _ Hb1 Hc), (GetValue_bound _ _ _ _ _ Hb2 Hc).
    by destruct (Value.IsTrue V _). }
  rewrite first_some_equal. unfold columns_equal.
  by destruct (forallb _ _).
Qed.

Lemma first_some_diff (l : list ColumnInfo) :
  first_some (fun c => Ok (let diff := Value.Compare V (column_value V (memory st) t1 c)
                                         (column_value V (memory st) t2 c) in
                           if negb (diff =? 0) then Some diff else None)) l
  = Ok (List.find (fun d => negb (d =? 0))
          (map (fun c => Value.Compare V (column_value V (memory st) t1 c)
                           (column_value V (memory st) t2 c)) l)).
Proof.
  induction l as [|c l IH]; simpl; [done|].
  destruct (negb _); simpl; [done | apply IH].
Qed.

Lemma Compare_bound :
  Tuple.Compare V t1 t2 st = Ok (first_nonzero (column_diffs V (memory st) t1 t2 s), st).
Proof.
  unfold Tuple.Compare.
  rewrite (bind_Ok _ _ _ _ _ (schema_GetColumnCount_bound _ _ _ Hb1)).
  erewrite bind_unchanged; cycle 1.
  { apply for_loop_return_first with
      (step := fun c => Ok (let diff := Value.Compare V (column_value V (memory st) t1 c)
                                          (column_value V (memory st) t2 c) in
                            if negb (diff =? 0) then Some diff else None)).
    intros j c Hc. unfold bind.
    rewrite (GetValue_bound _ _ _ _ _ Hb1 Hc), (GetValue_bound _ _ _ _ _ Hb2 Hc).
    simpl. by destruct (negb _). }
  rewrite first_some_diff. unfold first_nonzero, column_diffs.
  by destruct (List.find _ _).
Qed.

Lemma HashCode_seed_bound seed :
  Tuple.HashCode_seed V t1 seed st = Ok (hash_fold V (memory st) t1 s seed, st).
Proof.
  unfold Tuple.HashCode_seed.
  rewrite (bind_Ok _ _ _ _ _ (schema_GetColumnCount_bound _ _ _ Hb1)).
  rewrite (for_loop_fold _
             (fun c seed => Ok (Value.HashCombine V (column_value V (memory st) t1 c) seed))).
  - rewrite (fold_result_Ok (fun c seed => Value.HashCombine V (column_value V (memory st) t1 c) seed)).
    simpl. unfold hash_fold, column_values. f_equal. f_equal.
    generalize seed. induction (columns s) as [|c l IH]; intros sd; simpl; [done | apply IH].
  - intros j c seed' Hc. unfold bind. by rewrite (GetValue_bound _ _ _ _ _ Hb1 Hc).
Qed.

End SameSchema.

Lemma bound_same_schema st t1 t2 s :
  bound st t1 s → Tuple.tuple_schema t2 = Tuple.tuple_schema t1 → Tuple.tuple_data t2 ≠ 0%N →
  bound st t2 s.
Proof. intros (Hs & Hd & Hl) Heq Hd2. unfold bound. rewrite Heq. done. Qed.

(** Value-equal columns hash alike from every seed, when [Value] does. *)
Lemma hash_fold_equal (V : Value.Interface) m t1 t2 s :
  (∀ a b : Value.t V, Value.IsTrue V (Value.OpNotEquals V a b) = false →
                      ∀ seed, Value.HashCombine V a seed = Value.HashCombine V b seed) →
  columns_equal V m t1 t2 s = true →
  ∀ seed, hash_fold V m t1 s seed = hash_fold V m t2 s seed.
Proof.
  intros Hlaw. unfold columns_equal, hash_fold, column_values.
  induction (columns s) as [|c l IH]; intros Heq seed; simpl; [done|].
  simpl in Heq. apply andb_true_iff in Heq as [Hc Hl].
  unfold column_equal in Hc. apply negb_true_iff in Hc.
  rewrite (Hlaw _ _ Hc). by apply IH.
Qed.

(** ** Lexicographic comparison *)

Lemma first_nonzero_cons d l :
  first_nonzero (d :: l) = if d =? 0 then first_nonzero l else d.
Proof. unfold first_nonzero. simpl. by destruct (d =? 0). Qed.

Lemma first_nonzero_opp (l1 l2 : list Z) :
  Forall2 (fun a b => b = - a) l1 l2 → first_nonzero l2 = - first_nonzero l1.
Proof.
  induction 1 as [|a b l1 l2 Hab _ IH]; [done|].
  rewrite !first_nonzero_cons. subst b.
  destruct (Z.eqb_spec a 0) as [->|Ha]; simpl; [done|].
  destruct (Z.eqb_spec (- a) 0); [lia | done].
Qed.

Lemma first_nonzero_zero (l : list Z) :
  first_nonzero l = 0 ↔ Forall (fun d => d = 0) l.
Proof.
  induction l as [|d l IH]; [by split; [constructor|]|].
  rewrite first_nonzero_cons. destruct (Z.eqb_spec d 0) as [->|Hd].
  - rewrite IH. split; [by constructor | by inversion 1].
  - split; [done | by inversion 1].
Qed.

Lemma column_diffs_opp (V : Value.Interface) m t1 t2 s :
  (∀ a b : Value.t V, Value.Compare V b a = - Value.Compare V a b) →
  Forall2 (fun a b => b = - a) (column_diffs V m t1 t2 s) (column_diffs V m t2 t1 s).
Proof.
  intros Hlaw. unfold column_diffs.
  induction (columns s) as [|c l IH]; simpl; constructor; [apply Hlaw | apply IH].
Qed.

Lemma column_diffs_zero (V : Value.Interface) m t1 t2 s :
  (∀ a b : Value.t V, Value.Compare V a b = 0 ↔ Value.IsTrue V (Value.OpNotEquals V a b) = false) →
  first_nonzero (column_diffs V m t1 t2 s) = 0 ↔ columns_equal V m t1 t2 s = true.
Proof.
  intros Hlaw. rewrite first_nonzero_zero. unfold column_diffs, columns_equal.
  induction (columns s) as [|c l IH]; simpl; [by split; [|constructor]|].
  rewrite andb_true_iff, <- IH. unfold column_equal. rewrite negb_true_iff, <- Hlaw.
  split; [by inversion 1 | by intros []; constructor].
Qed.

(** ** Export size *)

Lemma UINT64_MOD_pos : 0 < UINT64_MOD.
Proof. by compute. Qed.

Lemma size_t_add_range a b : 0 <= size_t_add a b < UINT64_MOD.
Proof. unfold size_t_add. apply Z.mod_pos_bound, UINT64_MOD_pos. Qed.

Lemma size_t_add_to_size_t a b : size_t_add a (to_size_t b) = size_t_add a b.
Proof. unfold size_t_add, to_size_t. by rewrite Zplus_mod_idemp_r. Qed.

Lemma size_t_add_continue a b r :
  to_size_t (size_t_add a b + r) = to_size_t (a + (b + r)).
Proof.
  unfold size_t_add, to_size_t. rewrite Zplus_mod_idemp_l. f_equal. lia.
Qed.

Lemma export_size_fold (V : Value.Interface) m tuple (l : list ColumnInfo) :
  ∀ bytes, 0 <= bytes < UINT64_MOD →
    fold_result (export_size_step V m tuple) l bytes
    = match List.find (fun c => negb (export_type_known (column_type c))) l with
      | Some c => Err (UnknownTypeException (column_type c))
      | None => Ok (to_size_t (bytes + sum_Z (map (export_column_bytes V m tuple) l)))
      end.
Proof.
  assert (Hgo : ∀ l' bytes x,
    (∀ b, 0 <= b < UINT64_MOD →
       fold_result (export_size_step V m tuple) l' b
       = match List.find (fun c => negb (export_type_known (column_type c))) l' with
         | Some c => Err (UnknownTypeException (column_type c))
         | None => Ok (to_size_t (b + sum_Z (map (export_column_bytes V m tuple) l')))
         end) →
    fold_result (export_size_step V m tuple) l' (size_t_add bytes x)
    = match List.find (fun c => negb (export_type_known (column_type c))) l' with
      | Some c => Err (UnknownTypeException (column_type c))
      | None => Ok (to_size_t (bytes + (x + sum_Z (map (export_column_bytes V m tuple) l'))))
      end).
  { intros l' bytes x IH. rewrite IH by apply size_t_add_range.
    destruct (List.find _ l'); [done|]. by rewrite size_t_add_continue. }
  induction l as [|c l IH]; intros bytes Hr; simpl.
  - unfold to_size_t. rewrite Z.add_0_r, Z.mod_small; done.
  - unfold export_size_step at 1, export_column_bytes at 1.
    destruct (column_type c) eqn:Hty; simpl; rewrite ?Hty; simpl;
      rewrite ?size_t_add_to_size_t; try (by apply Hgo); try done.
    all: destruct (Value.IsNull V _); simpl; [by rewrite IH | by apply Hgo].
Qed.

Lemma ExportSerializationSize_bound (V : Value.Interface) st tuple s :
  bound st tuple s →
  Tuple.ExportSerializationSize V tuple st
  = unchanged (export_size_spec V (memory st) tuple s) st.
Proof.
  intros Hb. unfold Tuple.ExportSerializationSize, Tuple.GetColumnCount.
  rewrite (bind_Ok _ _ _ _ _ (schema_GetColumnCount_bound _ _ _ Hb)).
  rewrite (for_loop_fold _ (export_size_step V (memory st) tuple)).
  - rewrite export_size_fold by (split; [done | apply UINT64_MOD_pos]).
    unfold export_size_spec, first_unknown_type, export_size_sum.
    destruct (List.find _ (columns s)); done.
  - intros j c bytes Hc. unfold bind, Tuple.GetType.
    rewrite (schema_GetType_bound _ _ _ _ _ Hb Hc). unfold export_size_step.
    destruct (column_type c) eqn:Hty; try done.
    all: try (rewrite (GetValue_bound _ _ _ _ _ Hb Hc);
              destruct (Value.IsNull V _); simpl; [done|];
              by rewrite (GetValue_bound _ _ _ _ _ Hb Hc)).
    rewrite (schema_GetType_bound _ _ _ _ _ Hb Hc). by rewrite Hty.
Qed.

(** ** Bytes *)

Lemma Z_of_byte_range b : 0 <= Z_of_byte b < 256.
Proof. unfold Z_of_byte. pose proof (Byte.to_N_bounded b). lia. Qed.

Lemma Z_of_byte_of_Z z : Z_of_byte (byte_of_Z z) = z mod 256.
Proof.
  unfold Z_of_byte, byte_of_Z.
  assert (Hr : 0 <= z mod 256 < 256) by (apply Z.mod_pos_bound; lia).
  destruct (Byte.of_N (Z.to_N (z mod 256))) as [b|] eqn:E.
  - apply Byte.to_of_N in E. rewrite E. lia.
  - apply Byte.of_N_None_iff in E. lia.
Qed.

Lemma byte_of_Z_of_byte b : byte_of_Z (Z_of_byte b) = b.
Proof.
  unfold byte_of_Z. rewrite Z.mod_small by apply Z_of_byte_range.
  unfold Z_of_byte. rewrite N2Z.id. by rewrite Byte.of_to_N.
Qed.

Lemma Z_of_byte_inj a b : Z_of_byte a = Z_of_byte b → a = b.
Proof. intros H. by rewrite <- (byte_of_Z_of_byte a), H, byte_of_Z_of_byte. Qed.

Lemma testbit_byte_of_Z z j :
  0 <= j < 8 → Z.testbit (Z_of_byte (byte_of_Z z)) j = Z.testbit z j.
Proof.
  intros Hj. rewrite Z_of_byte_of_Z. change 256 with (2 ^ 8).
  apply Z.mod_pow2_bits_low. lia.
Qed.

(** ** Export serialization *)

Lemma indexed_columns_lookup s j ic :
  indexed_columns s !! j = Some ic ↔ fst ic = j ∧ columns s !! j = Some (snd ic).
Proof.
  unfold indexed_columns. destruct ic as [i c]. simpl.
  rewrite lookup_zip_with_Some. split.
  - intros (x & y & Heq & Hx & Hy). inversion Heq; subst.
    apply lookup_seq in Hx as [-> _]. done.
  - intros [-> Hc]. exists j, c. split_and!; [done| |done].
    apply lookup_seq. split; [done|]. by apply lookup_lt_Some in Hc.
Qed.

Lemma indexed_columns_length s : length (indexed_columns s) = length (columns s).
Proof. unfold indexed_columns. rewrite length_zip_with, length_seq. lia. Qed.

Lemma SerializeToExport_bound (V : Value.Interface) st tuple s output colOffset null_array :
  bound st tuple s →
  Tuple.SerializeToExport V tuple output colOffset null_array st
  = unchanged (fold_result (export_step V (memory st) tuple colOffset) (indexed_columns s)
                 (output, null_array)) st.
Proof.
  intros Hb. unfold Tuple.SerializeToExport, Tuple.GetColumnCount.
  rewrite (bind_Ok _ _ _ _ _ (schema_GetColumnCount_bound _ _ _ Hb)).
  rewrite <- indexed_columns_length.
  apply for_loop_fold. intros j [i c] [out bm] Hj.
  apply indexed_columns_lookup in Hj as [Hi Hc]. simpl in Hi, Hc. subst i.
  unfold bind, export_step. simpl.
  rewrite (IsNull_bound _ _ _ _ _ Hb Hc).
  destruct (Value.IsNull V _).
  - unfold lift. destruct (int_add colOffset (Z.of_nat j)) as [index|e]; simpl; [|done].
    destruct (Tuple.or_into bm _ _); done.
  - by rewrite (GetValue_bound _ _ _ _ _ Hb Hc).
Qed.

Lemma or_into_bits null_array k mask :
  0 <= k < Z.of_nat (length null_array) →
  ∃ null_array',
    Tuple.or_into null_array k mask = Ok null_array' ∧
    length null_array' = length null_array ∧
    ∀ (i : nat) b b' j, 0 <= j < 8 →
      null_array !! i = Some b → null_array' !! i = Some b' →
      Z.testbit (Z_of_byte b') j
      = Z.testbit (Z_of_byte b) j || ((k =? Z.of_nat i) && Z.testbit mask j).
Proof.
  intros Hk. unfold Tuple.or_into.
  destruct (Z.leb_spec 0 k); [|lia]. destruct (Z.ltb_spec k (Z.of_nat (length null_array))); [|lia].
  simpl. destruct (null_array !! Z.to_nat k) as [old|] eqn:Hold.
  2:{ apply lookup_ge_None in Hold. lia. }
  eexists. split; [done|]. split; [by rewrite length_insert|].
  intros i b b' j Hj Hb Hb'.
  destruct (Z.eqb_spec k (Z.of_nat i)) as [->|Hne]; simpl.
  - rewrite Nat2Z.id in *. rewrite list_lookup_insert_eq in Hb' by (by eapply lookup_lt_Some).
    inversion Hb'; subst b'. rewrite Hold in Hb. inversion Hb; subst old.
    rewrite testbit_byte_of_Z by done. apply Z.lor_spec.
  - rewrite list_lookup_insert_ne in Hb' by lia. rewrite Hb in Hb'. inversion Hb'; subst.
    by rewrite orb_false_r.
Qed.

Lemma export_fold (V : Value.Interface) m tuple colOffset (l : list (nat * ColumnInfo)) :
  ∀ output null_array,
    Forall (fun ic : nat * ColumnInfo =>
              0 <= colOffset + Z.of_nat (fst ic) <= INT32_MAX ∧
              colOffset + Z.of_nat (fst ic) < 8 * Z.of_nat (length null_array)) l →
    ∃ null_array',
      fold_result (export_step V m tuple colOffset) l (output, null_array)
      = Ok (export_output_spec V m tuple (map snd l) output, null_array') ∧
      length null_array' = length null_array ∧
      ∀ (k : nat) b b' j, 0 <= j < 8 →
        null_array !! k = Some b → null_array' !! k = Some b' →
        Z.testbit (Z_of_byte b') j
        = Z.testbit (Z_of_byte b) j || null_bit_of V m tuple colOffset l k j.
Proof.
  induction l as [|[i c] l IH]; intros output null_array Hall; simpl.
  - exists null_array. split_and!; [done..|].
    intros k b b' j _ Hb Hb'. rewrite Hb in Hb'. inversion Hb'. by rewrite orb_false_r.
  - apply Forall_cons in Hall as [[Hi Hlt] Hall]. simpl in Hi, Hlt.
    destruct (Value.IsNull V (column_value V m tuple c)) eqn:Hnull; simpl.
    + unfold int_add.
      destruct (Z.leb_spec (- INT32_MAX - 1) (colOffset + Z.of_nat i)); [|unfold INT32_MAX in *; lia].
      destruct (Z.leb_spec (colOffset + Z.of_nat i) INT32_MAX); [|lia]. simpl.
      rewrite Z.rem_mod_nonneg by lia.
      destruct (or_into_bits null_array (Z.shiftr (colOffset + Z.of_nat i) 3)
                  (Z.shiftr 128 ((colOffset + Z.of_nat i) mod 8))) as (bm1 & -> & Hlen1 & Hbits1).
      { rewrite Z.shiftr_div_pow2 by lia. change (2 ^ 3) with 8.
        split; [apply Z.div_pos; lia|]. apply Z.div_lt_upper_bound; lia. }
      destruct (IH output bm1) as (bm2 & Hrun & Hlen2 & Hbits2).
      { rewrite Hlen1. done. }
      exists bm2. split_and!; [done | congruence |].
      intros k b b' j Hj Hb Hb'.
      destruct (bm1 !! k) as [b1|] eqn:Hb1.
      2:{ apply lookup_ge_None in Hb1. apply lookup_lt_Some in Hb. lia. }
      rewrite (Hbits2 k b1 b' j Hj Hb1 Hb'), (Hbits1 k b b1 j Hj Hb Hb1).
      rewrite <- orb_assoc. f_equal.
    + destruct (IH (Value.SerializeToExport V (column_value V m tuple c) output) null_array Hall)
        as (bm2 & Hrun & Hlen2 & Hbits2).
      exists bm2. split_and!; [done..|].
      intros k b b' j Hj Hb Hb'. by rewrite (Hbits2 k b b' j Hj Hb Hb').
Qed.

(** ** Loops that change the memory *)

Lemma on_memory_bind {A B} (c : VM A) (k : A -> VM B) st :
  on_memory (bind c k) st = bind (on_memory c) (fun a => on_memory (k a)) st.
Proof.
  unfold on_memory, bind. destruct (c (memory st)) as [[a m']|e]; simpl; done.
Qed.

Lemma on_memory_ret {A} (a : A) st : on_memory (ret a) st = Ok (a, st).
Proof. unfold on_memory, ret. by destruct st. Qed.

Lemma on_memory_lift {A} (r : Result A) st : on_memory (lift r) st = lift r st.
Proof. unfold on_memory, lift. destruct st, r; done. Qed.

Lemma bind_on_memory_lift {A B} (r : Result A) (k : A -> M B) st :
  bind (on_memory (lift r)) k st = match r with Ok a => k a st | Err e => Err e end.
Proof. unfold bind. rewrite on_memory_lift. unfold lift. by destruct r. Qed.

Lemma bind_lift {S A B} (r : Result A) (k : A -> StateM S B) st :
  bind (lift r) k st = match r with Ok a => k a st | Err e => Err e end.
Proof. unfold bind, lift. by destruct r. Qed.

(** A state with the schemas of [st] is bound as [st] is. *)
Lemma bound_schemas st st' tuple s :
  schemas st' = schemas st → bound st tuple s → bound st' tuple s.
Proof. intros Heq (? & ? & ?). unfold bound. by rewrite Heq. Qed.

Lemma on_memory_schemas {A} (c : VM A) st a st' :
  on_memory c st = Ok (a, st') → schemas st' = schemas st.
Proof.
  unfold on_memory. destruct (c (memory st)) as [[x m']|e]; [|done].
  intros H. by inversion H.
Qed.

Lemma for_loop_on_memory_from {Acc A} (body : nat -> Acc -> M Acc) (step : A -> Acc -> VM Acc)
    (sch : gmap N Schema) (l : list A) :
  ∀ (i : nat) (acc : Acc) (m : Mem),
    (∀ j x a m', l !! j = Some x →
       body (i + j)%nat a {| memory := m'; schemas := sch |}
       = on_memory (step x a) {| memory := m'; schemas := sch |}) →
    for_loop body i (length l) acc {| memory := m; schemas := sch |}
    = on_memory (vfold step l acc) {| memory := m; schemas := sch |}.
Proof.
  induction l as [|x l IH]; intros i acc m Hb; simpl.
  - by rewrite on_memory_ret.
  - rewrite on_memory_bind. unfold bind.
    replace i with (i + 0)%nat at 1 by lia. rewrite (Hb 0%nat x acc m) by done.
    unfold on_memory. simpl.
    destruct (step x acc m) as [[acc' m1]|e]; [|done]. simpl.
    rewrite IH; [done|]. intros j y a m' Hj. replace (S i + j)%nat with (i + S j)%nat by lia. by apply Hb.
Qed.

Lemma for_loop_on_memory {Acc A} (body : nat -> Acc -> M Acc) (step : A -> Acc -> VM Acc)
    (st : State) (l : list A) (acc : Acc) :
  (∀ j x a st', schemas st' = schemas st → l !! j = Some x →
     body j a st' = on_memory (step x a) st') →
  for_loop body 0 (length l) acc st = on_memory (vfold step l acc) st.
Proof.
  intros Hb. destruct st as [m sch].
  apply for_loop_on_memory_from. intros j x a m' Hj. by apply Hb.
Qed.

Section Mutators.

Context (V : Value.Interface) (st : State) (tuple : Tuple.t) (s : Schema).
Hypothesis Hbound : bound st tuple s.

Lemma asserts_bound {A} (k : M A) st' :
  (assert (Tuple.is_set (Tuple.tuple_schema tuple)) ;;
   assert (Tuple.is_set (Tuple.tuple_data tuple)) ;; k) st' = k st'.
Proof.
  destruct Hbound as (Hs & Hd & _). unfold bind.
  by rewrite (is_set_true _ Hs), (is_set_true _ Hd).
Qed.

Lemma DeserializeFrom_bound input pool :
  Tuple.DeserializeFrom V tuple input pool st
  = on_memory (r <- lift (ReadInt input) ;;
               vfold (fun c input => r <- deserialize_column V tuple pool c input ;; ret (snd r))
                     (columns s) (snd r)) st.
Proof.
  unfold Tuple.DeserializeFrom. rewrite asserts_bound.
  rewrite on_memory_bind, bind_lift, bind_on_memory_lift.
  destruct (ReadInt input) as [[size input1]|e]; [|done].
  rewrite (bind_Ok _ _ _ _ _ (schema_GetColumnCount_bound _ _ _ Hbound)).
  apply for_loop_on_memory. intros j c inp st' Hsch Hc.
  rewrite on_memory_bind.
  pose proof (bound_schemas _ _ _ _ Hsch Hbound) as Hb'.
  rewrite (bind_Ok _ _ _ _ _ (schema_GetType_bound _ _ _ _ _ Hb' Hc)).
  rewrite (bind_Ok _ _ _ _ _ (schema_IsInlined_bound _ _ _ _ _ Hb' Hc)).
  rewrite (bind_Ok _ _ _ _ _ (GetDataPtr_bound _ _ _ _ _ Hb' Hc)).
  rewrite (bind_Ok _ _ _ _ _ (schema_GetLength_bound _ _ _ _ _ Hb' Hc)).
  unfold deserialize_column, bind.
  destruct (on_memory _ st') as [[r st2]|e]; [|done]. by rewrite on_memory_ret.
Qed.

Lemma DeserializeWithHeaderFrom_bound input :
  Tuple.DeserializeWithHeaderFrom V tuple input st
  = on_memory (r <- lift (ReadInt input) ;;
               total <- lift (int64_add 0 4) ;;
               vfold (header_step V tuple) (columns s) (total, snd r)) st.
Proof.
  unfold Tuple.DeserializeWithHeaderFrom. rewrite asserts_bound.
  rewrite on_memory_bind, bind_lift, bind_on_memory_lift.
  destruct (ReadInt input) as [[size input1]|e]; [|done].
  rewrite on_memory_bind, bind_lift, bind_on_memory_lift.
  destruct (int64_add 0 4) as [total|e]; [|done].
  rewrite (bind_Ok _ _ _ _ _ (schema_GetColumnCount_bound _ _ _ Hbound)).
  apply for_loop_on_memory. intros j c [tot inp] st' Hsch Hc.
  pose proof (bound_schemas _ _ _ _ Hsch Hbound) as Hb'.
  rewrite (bind_Ok _ _ _ _ _ (schema_GetType_bound _ _ _ _ _ Hb' Hc)).
  rewrite (bind_Ok _ _ _ _ _ (schema_IsInlined_bound _ _ _ _ _ Hb' Hc)).
  rewrite (bind_Ok _ _ _ _ _ (GetDataPtr_bound _ _ _ _ _ Hb' Hc)).
  rewrite (bind_Ok _ _ _ _ _ (schema_GetLength_bound _ _ _ _ _ Hb' Hc)).
  unfold header_step. rewrite on_memory_bind. unfold deserialize_column. simpl.
  unfold bind at 1 3.
  destruct (on_memory _ st') as [[r st2]|e]; [|done].
  rewrite on_memory_bind, bind_lift, bind_on_memory_lift.
  destruct (int64_add tot r.1); [|done]. by rewrite on_memory_ret.
Qed.

Lemma SetValueAllocate_bound j c value pool st' :
  schemas st' = schemas st → columns s !! j = Some c →
  Tuple.SetValueAllocate V tuple j value pool st'
  = on_memory (value' <- lift (Value.CastAs V value (column_type c)) ;;
               Value.SerializeWithAllocation V value' (column_ptr tuple c) (column_is_inlined c)
                 (if negb (column_is_inlined c) then variable_length c else fixed_length c)
                 pool) st'.
Proof.
  intros Hsch Hc. pose proof (bound_schemas _ _ _ _ Hsch Hbound) as Hb'.
  unfold Tuple.SetValueAllocate. rewrite asserts_bound.
  rewrite (bind_Ok _ _ _ _ _ (schema_GetType_bound _ _ _ _ _ Hb' Hc)).
  rewrite on_memory_bind, bind_lift, bind_on_memory_lift.
  destruct (Value.CastAs V value (column_type c)) as [value'|e]; [|done].
  rewrite (bind_Ok _ _ _ _ _ (schema_IsInlined_bound _ _ _ _ _ Hb' Hc)).
  rewrite (bind_Ok _ _ _ _ _ (GetDataPtr_bound _ _ _ _ _ Hb' Hc)).
  rewrite (bind_Ok _ _ _ _ _ (schema_GetLength_bound _ _ _ _ _ Hb' Hc)).
  destruct (column_is_inlined c); simpl.
  - by rewrite (bind_Ok _ _ _ _ _ (eq_refl : ret (fixed_length c) st' = Ok (fixed_length c, st'))).
  - by rewrite (bind_Ok _ _ _ _ _ (schema_GetVariableLength_bound _ _ _ _ _ Hb' Hc)).
Qed.

End Mutators.

(** The uninlined column indices name the uninlined column descriptors. *)
Lemma uninlined_from (pre l : list ColumnInfo) :
  Forall2 (fun id c => (pre ++ l) !! id = Some c)
    (List.filter (fun i => match (pre ++ l) !! i with
                           | Some c => negb (column_is_inlined c)
                           | None => false
                           end)
                 (seq (length pre) (length l)))
    (List.filter (fun c => negb (column_is_inlined c)) l).
Proof.
  revert pre. induction l as [|c l IH]; intros pre; simpl; [constructor|].
  assert (Hc : (pre ++ c :: l) !! length pre = Some c) by (by rewrite list_lookup_middle).
  rewrite Hc.
  specialize (IH (pre ++ [c])). rewrite <- app_assoc in IH. simpl in IH.
  rewrite length_app in IH. simpl in IH. rewrite Nat.add_1_r in IH.
  destruct (column_is_inlined c); simpl; [done|]. by constructor.
Qed.

Lemma uninlined_columns_infos s :
  Forall2 (fun id c => columns s !! id = Some c)
    (SchemaOps.uninlined_columns s) (uninlined_infos s).
Proof. apply (uninlined_from [] (columns s)). Qed.

Lemma uninlined_infos_nil s :
  SchemaOps.IsTupleInlined s = true → uninlined_infos s = [].
Proof.
  unfold SchemaOps.IsTupleInlined, uninlined_infos.
  induction (columns s) as [|c l IH]; simpl; [done|].
  intros [Hc Hl]%andb_true_iff. rewrite Hc. simpl. by apply IH.
Qed.

Lemma on_memory_modify (f : Mem -> Mem) st :
  on_memory (modify f) st = Ok (tt, {| memory := f (memory st); schemas := schemas st |}).
Proof. done. Qed.

Lemma Copy_bound (V : Value.Interface) st tuple s source pool :
  bound st tuple s →
  Tuple.Copy V tuple source pool st = on_memory (copy_memory V tuple s source pool) st.
Proof.
  intros Hb. unfold Tuple.Copy. rewrite (asserts_bound _ _ _ Hb).
  rewrite (bind_unchanged _ _ _ _ (schema_call_bound _ _ _ _ Hb)).
  rewrite (bind_unchanged _ _ _ _ (schema_call_bound _ _ _ _ Hb)).
  unfold copy_memory, SchemaOps.GetTupleLength, modify_mem. rewrite on_memory_bind.
  rewrite (bind_Ok _ _ _ _ _ (on_memory_modify _ st)).
  destruct (SchemaOps.IsTupleInlined s) eqn:Hinl.
  - rewrite (bind_unchanged _ _ _ _ (schema_call_bound _ _ _ _ Hb)).
    rewrite (uninlined_infos_nil _ Hinl). simpl. by rewrite on_memory_ret.
  - rewrite (bind_unchanged _ _ _ _ (schema_call_bound _ _ _ _ Hb)).
    rewrite (bind_Ok _ _ _ _ _ (on_memory_modify _ st)).
    pose proof (uninlined_columns_infos s) as Hids.
    unfold SchemaOps.GetUninlinedColumnCount. rewrite (Forall2_length _ _ _ Hids).
    apply for_loop_on_memory. intros j c [] st' Hsch Hc. simpl in Hsch.
    pose proof (bound_schemas _ _ _ _ Hsch Hb) as Hb'.
    destruct (Forall2_lookup_r _ _ _ _ _ Hids Hc) as (id & Hid & Hcol).
    rewrite (bind_unchanged _ _ _ _ (schema_call_bound _ _ _ _ Hb')).
    unfold SchemaOps.GetUninlinedColumnIndex. rewrite Hid. simpl.
    rewrite (bind_Ok _ _ _ _ _ (GetValue_bound _ _ _ _ _ Hb' Hcol V)).
    rewrite (SetValueAllocate_bound V st tuple s Hb id c _ pool st' Hsch Hcol).
    unfold copy_column. rewrite !on_memory_bind. unfold bind, get, on_memory, lift. simpl.
    by destruct (Value.CastAs V _ _).
Qed.

(** ** Header-counted deserialization *)

Lemma header_fold_counts (V : Value.Interface) tuple (l : list ColumnInfo) :
  ∀ total input m total' input' m',
    vfold (header_step V tuple) l (total, input) m = Ok ((total', input'), m') →
    ∃ counts,
      deserialize_columns V tuple None l input m = Ok ((counts, input'), m') ∧
      total' = total + sum_Z counts.
Proof.
  induction l as [|c l IH]; intros total input m total' input' m' H; simpl in *.
  - inversion H; subst. exists []. split; [done|]. simpl. lia.
  - apply bind_inv in H as ([tot1 inp1] & m1 & Hstep & Hrest).
    unfold header_step in Hstep. simpl in Hstep.
    apply bind_inv in Hstep as ([n inp] & m2 & Hcall & Hadd).
    rewrite bind_lift in Hadd. simpl in Hadd.
    unfold int64_add in Hadd. destruct (_ && _); [|done]. inversion Hadd; subst.
    apply IH in Hrest as (counts & Hcols & ->).
    exists (n :: counts). split; [|simpl; lia].
    rewrite (bind_Ok _ _ _ _ _ Hcall). simpl. by rewrite (bind_Ok _ _ _ _ _ Hcols).
Qed.

Lemma deserialize_columns_consumed (V : Value.Interface) tuple pool (l : list ColumnInfo) :
  reports_consumption V →
  ∀ input m counts input' m',
    deserialize_columns V tuple pool l input m = Ok ((counts, input'), m') →
    ∃ consumed, input = consumed ++ input' ∧ sum_Z counts = Z.of_nat (length consumed).
Proof.
  intros Hlaw. induction l as [|c l IH]; intros input m counts input' m' H; simpl in *.
  - inversion H; subst. by exists [].
  - apply bind_inv in H as ([n inp] & m1 & Hcall & H).
    apply bind_inv in H as ([counts1 inp1] & m2 & Hcols & H). inversion H; subst. simpl in *.
    apply Hlaw in Hcall as (consumed1 & -> & ->).
    apply IH in Hcols as (consumed2 & -> & Hsum).
    exists (consumed1 ++ consumed2). split; [by rewrite app_assoc|].
    rewrite length_app. lia.
Qed.

Lemma header_fold_total (V : Value.Interface) tuple (l : list ColumnInfo) :
  reports_consumption V →
  ∀ total input m counts input' m',
    deserialize_columns V tuple None l input m = Ok ((counts, input'), m') →
    0 <= total → total + Z.of_nat (length input) <= INT64_MAX →
    vfold (header_step V tuple) l (total, input) m = Ok ((total + sum_Z counts, input'), m').
Proof.
  intros Hlaw. induction l as [|c l IH]; intros total input m counts input' m' H Ht Hfit;
    simpl in *.
  - inversion H; subst. simpl. by rewrite Z.add_0_r.
  - apply bind_inv in H as ([n inp] & m1 & Hcall & H).
    apply bind_inv in H as ([counts1 inp1] & m2 & Hcols & H). inversion H; subst. simpl in *.
    destruct (Hlaw _ _ _ _ _ _ _ _ _ _ Hcall) as (consumed & -> & ->).
    rewrite length_app in Hfit.
    assert (Hstep : header_step V tuple c (total, consumed ++ inp) m
                    = Ok ((total + Z.of_nat (length consumed), inp), m1)).
    { unfold header_step. cbn [fst snd]. rewrite (bind_Ok _ _ _ _ _ Hcall). cbn [fst snd].
      rewrite bind_lift. unfold int64_add.
      destruct (Z.leb_spec (- INT64_MAX - 1) (total + Z.of_nat (length consumed)));
        [|unfold INT64_MAX in *; lia].
      destruct (Z.leb_spec (total + Z.of_nat (length consumed)) INT64_MAX); [|lia]. done. }
    rewrite (bind_Ok _ _ _ _ _ Hstep).
    rewrite (IH _ _ _ _ _ _ Hcols) by lia. f_equal. f_equal. f_equal. lia.
Qed.

Lemma ReadInt_consumes input size input' :
  ReadInt input = Ok (size, input') →
  ∃ header, input = header ++ input' ∧ length header = 4%nat.
Proof.
  unfold ReadInt. destruct (decide _) as [Hlen|]; [|done]. intros H. inversion H; subst.
  exists (take 4 input). split; [by rewrite take_drop|]. rewrite length_take. lia.
Qed.

(** ** The reference implementation of [Value]: comparison and hashing *)

Lemma sign_opp c : StubValue.sign (CompOpp c) = - StubValue.sign c.
Proof. by destruct c. Qed.

Lemma sign_zero c : StubValue.sign c = 0 ↔ c = Eq.
Proof. by destruct c. Qed.

Lemma compare_bytes_opp a : ∀ b, StubValue.compare_bytes b a = - StubValue.compare_bytes a b.
Proof.
  induction a as [|x a IH]; intros [|y b]; simpl; try done.
  rewrite (Z.compare_antisym (Z_of_byte x) (Z_of_byte y)).
  destruct (Z_of_byte x ?= Z_of_byte y); simpl; [apply IH | done | done].
Qed.

Lemma compare_bytes_zero a : ∀ b, StubValue.compare_bytes a b = 0 ↔ a = b.
Proof.
  induction a as [|x a IH]; intros [|y b]; simpl; try done.
  destruct (Z.compare_spec (Z_of_byte x) (Z_of_byte y)) as [Heq|Hlt|Hgt].
  - apply Z_of_byte_inj in Heq as ->. rewrite IH. split; [by intros -> | by inversion 1].
  - split; [done|]. inversion 1; subst. lia.
  - split; [done|]. inversion 1; subst. lia.
Qed.

Lemma StubValue_Compare_opp (a b : StubValue.t) :
  StubValue.Compare b a = - StubValue.Compare a b.
Proof.
  destruct a as [ta x|ta [p|]|x|], b as [tb y|tb [q|]|y|]; simpl; try done.
  - rewrite (Z.compare_antisym x y). apply sign_opp.
  - apply compare_bytes_opp.
  - rewrite (Z.compare_antisym (Z.b2z x) (Z.b2z y)). apply sign_opp.
Qed.

Lemma StubValue_Compare_zero (a b : StubValue.t) :
  StubValue.Compare a b = 0 ↔ StubValue.IsTrue (StubValue.OpNotEquals a b) = false.
Proof.
  unfold StubValue.OpNotEquals. simpl. rewrite negb_false_iff. symmetry. apply Z.eqb_eq.
Qed.

Lemma StubValue_Compare_refl (a : StubValue.t) : StubValue.Compare a a = 0.
Proof.
  destruct a as [ta x|ta [p|]|x|]; simpl; try done.
  - by rewrite Z.compare_refl.
  - by apply compare_bytes_zero.
  - by rewrite Z.compare_refl.
Qed.

Lemma StubValue_hash_value (a b : StubValue.t) :
  StubValue.Compare a b = 0 → StubValue.hash_value a = StubValue.hash_value b.
Proof.
  destruct a as [ta x|ta [p|]|x|], b as [tb y|tb [q|]|y|]; simpl; try done.
  - intros H%sign_zero%Z.compare_eq. by subst.
  - intros H%compare_bytes_zero. by subst.
  - intros H%sign_zero%Z.compare_eq. by destruct x, y.
Qed.

Lemma StubValue_hash_law (a b : Value.t StubValue.ops) :
  Value.IsTrue StubValue.ops (Value.OpNotEquals StubValue.ops a b) = false →
  ∀ seed, Value.HashCombine StubValue.ops a seed = Value.HashCombine StubValue.ops b seed.
Proof.
  simpl. intros H%StubValue_Compare_zero seed. unfold StubValue.HashCombine.
  by rewrite (StubValue_hash_value _ _ H).
Qed.

(** ** The reference implementation of [Value]: deserialization *)

Lemma StubValue_reports_consumption : reports_consumption StubValue.ops.
Proof.
  intros input type ptr is_inlined len pool m n input' m'. simpl.
  unfold StubValue.DeserializeFrom.
  destruct (StubValue.width type) as [w|].
  - destruct (decide (w <= length input)%nat) as [Hw|]; [|done].
    intros H. apply bind_inv in H as ([] & m1 & _ & H). inversion H; subst.
    exists (take w input). split; [by rewrite take_drop|]. rewrite length_take. lia.
  - destruct (StubValue.is_object type); [|done].
    intros H. apply bind_inv in H as ([l inp] & m1 & Hread & H).
    unfold lift in Hread. destruct (ReadInt input) as [[l' inp']|] eqn:HR; [|done].
    inversion Hread; subst. apply ReadInt_consumes in HR as (header & -> & Hlen).
    destruct (l =? -1).
    + apply bind_inv in H as ([] & m2 & _ & H). inversion H; subst.
      exists header. split; [done|]. lia.
    + destruct (Z.leb_spec 0 l); [|done]. destruct (Z.leb_spec l (Z.of_nat (length inp))); [|done].
      simpl in H. apply bind_inv in H as ([] & m2 & _ & H). inversion H; subst.
      exists (header ++ take (Z.to_nat l) inp). split.
      * by rewrite <- app_assoc, take_drop.
      * rewrite length_app, length_take. lia.
Qed.

(** ** Splitting the column loops *)

Lemma vfold_app {St A Acc} (step : A -> Acc -> StateM St Acc) (l1 l2 : list A) (acc : Acc) st :
  vfold step (l1 ++ l2) acc st = bind (vfold step l1 acc) (vfold step l2) st.
Proof.
  revert acc st. induction l1 as [|x l1 IH]; intros acc st; simpl; [done|].
  unfold bind at 1 2 3. destruct (step x acc st) as [[acc' st']|e]; [|done]. apply IH.
Qed.

Lemma deserialize_columns_vfold (V : Value.Interface) tuple pool (l : list ColumnInfo) :
  ∀ input m,
    vfold (fun c input => r <- deserialize_column V tuple pool c input ;; ret (snd r)) l input m
    = match deserialize_columns V tuple pool l input m with
      | Ok ((_, input'), m') => Ok (input', m')
      | Err e => Err e
      end.
Proof.
  induction l as [|c l IH]; intros input m; simpl; [done|].
  unfold bind at 1 2 3 4.
  destruct (deserialize_column V tuple pool c input m) as [[[n inp] m1]|e]; [|done].
  simpl. rewrite IH. unfold bind.
  by destruct (deserialize_columns V tuple pool l inp m1) as [[[counts inp'] m2]|e].
Qed.

Lemma is_object_width type : StubValue.is_object type = true → StubValue.width type = None.
Proof. by destruct type. Qed.

(** Without a pool, an uninlined variable-length column whose incoming value
    is not null cannot be stored. *)
Lemma deserialize_column_no_pool tuple c input l rest m :
  column_is_inlined c = false → StubValue.is_object (column_type c) = true →
  ReadInt input = Ok (l, rest) → 0 <= l <= Z.of_nat (length rest) →
  deserialize_column StubValue.ops tuple None c input m = Err MissingPoolError.
Proof.
  intros Hinl Hobj HR Hl. unfold deserialize_column. simpl. unfold StubValue.DeserializeFrom.
  rewrite (is_object_width _ Hobj), Hobj, Hinl, bind_lift, HR.
  destruct (Z.eqb_spec l (-1)); [lia|].
  destruct (Z.leb_spec 0 l); [|lia]. destruct (Z.leb_spec l (Z.of_nat (length rest))); [|lia].
  done.
Qed.

(** ** Byte-addressed memory *)

Lemma insert_bytes_outside (bs : list byte) :
  ∀ a (bytes : gmap N byte) x,
    (x < a ∨ a + N.of_nat (length bs) <= x)%N → insert_bytes a bs bytes !! x = bytes !! x.
Proof.
  induction bs as [|b bs IH]; intros a bytes x Hx; simpl; [done|].
  simpl in Hx. rewrite lookup_insert_ne by lia. apply IH. lia.
Qed.

Lemma insert_bytes_inside (bs : list byte) :
  ∀ a (bytes : gmap N byte) i b,
    bs !! i = Some b → insert_bytes a bs bytes !! (a + N.of_nat i)%N = Some b.
Proof.
  induction bs as [|b0 bs IH]; intros a bytes i b Hi; [done|].
  destruct i as [|i]; simpl in *.
  - inversion Hi; subst. rewrite N.add_0_r. apply lookup_insert_eq.
  - rewrite lookup_insert_ne by lia.
    replace (a + N.of_nat (S i))%N with (N.succ a + N.of_nat i)%N by lia.
    by apply (IH (N.succ a)).
Qed.

Lemma load_bytes_length m n : ∀ a, length (load_bytes m a n) = n.
Proof. induction n as [|n IH]; intros a; simpl; [done|]. by rewrite IH. Qed.

Lemma load_bytes_lookup m n :
  ∀ a i, (i < n)%nat → load_bytes m a n !! i = Some (load_byte m (a + N.of_nat i)).
Proof.
  induction n as [|n IH]; intros a i Hi; [lia|].
  destruct i as [|i]; simpl.
  - by rewrite N.add_0_r.
  - rewrite IH by lia. do 2 f_equal. lia.
Qed.

Lemma load_bytes_agree m m' a n :
  bytes_agree m m' a (N.of_nat n) → load_bytes m a n = load_bytes m' a n.
Proof.
  intros H. apply list_eq. intros i.
  destruct (decide (i < n)%nat) as [Hi|Hi].
  - rewrite !load_bytes_lookup by done. f_equal. apply H. lia.
  - rewrite !lookup_ge_None_2; [done|rewrite load_bytes_length; lia..].
Qed.

Lemma load_byte_store_outside a bs m x :
  (x < a ∨ a + N.of_nat (length bs) <= x)%N →
  load_byte (store_bytes a bs m) x = load_byte m x.
Proof. intros Hx. unfold load_byte, store_bytes. simpl. by rewrite insert_bytes_outside. Qed.

Lemma load_byte_store_inside a bs m i b :
  bs !! i = Some b → load_byte (store_bytes a bs m) (a + N.of_nat i) = b.
Proof.
  intros Hi. unfold load_byte, store_bytes. simpl. by rewrite (insert_bytes_inside _ _ _ _ _ Hi).
Qed.

Lemma store_bytes_agree_outside a bs m :
  bytes_agree_outside m (store_bytes a bs m) a (N.of_nat (length bs)).
Proof. intros x Hx. symmetry. by apply load_byte_store_outside. Qed.

Lemma load_bytes_store_inside a bs m i n :
  (i + n <= length bs)%nat →
  load_bytes (store_bytes a bs m) (a + N.of_nat i) n = take n (drop i bs).
Proof.
  intros Hin. apply list_eq. intros j.
  destruct (decide (j < n)%nat) as [Hj|Hj].
  - rewrite load_bytes_lookup by done.
    rewrite lookup_take_lt by done. rewrite lookup_drop.
    destruct (bs !! (i + j)%nat) as [b|] eqn:Hb.
    + f_equal. replace (a + N.of_nat i + N.of_nat j)%N with (a + N.of_nat (i + j))%N by lia.
      by apply load_byte_store_inside.
    + apply lookup_ge_None in Hb. lia.
  - rewrite !lookup_ge_None_2; [done| |].
    + rewrite length_take, length_drop. lia.
    + rewrite load_bytes_length. lia.
Qed.

Lemma load_bytes_store_same a bs m :
  load_bytes (store_bytes a bs m) a (length bs) = bs.
Proof.
  pose proof (load_bytes_store_inside a bs m 0 (length bs)) as H.
  rewrite N.add_0_r, drop_0, firstn_all in H. apply H. lia.
Qed.

Lemma load_bytes_store_outside a bs m a' n :
  (a' + N.of_nat n <= a ∨ a + N.of_nat (length bs) <= a')%N →
  load_bytes (store_bytes a bs m) a' n = load_bytes m a' n.
Proof.
  intros H. apply load_bytes_agree. intros x Hx. apply load_byte_store_outside. lia.
Qed.

Lemma bytes_agree_refl m a n : bytes_agree m m a n.
Proof. by intros x Hx. Qed.

Lemma bytes_agree_outside_inside m m' a n a' n' :
  bytes_agree_outside m m' a n → (a' + n' <= a ∨ a + n <= a')%N → bytes_agree m m' a' n'.
Proof. intros H Hd x Hx. apply H. lia. Qed.

Lemma heap_extends_refl m : heap_extends m m.
Proof. by intros h b Hb. Qed.

Lemma heap_extends_trans m1 m2 m3 : heap_extends m1 m2 → heap_extends m2 m3 → heap_extends m1 m3.
Proof. intros H1 H2 h b Hb. by apply H2, H1. Qed.

Lemma store_bytes_heap a bs m : mem_heap (store_bytes a bs m) = mem_heap m.
Proof. done. Qed.

(** ** Integer encodings *)

Lemma be_bytes_length w : ∀ n, length (be_bytes w n) = w.
Proof.
  induction w as [|w IH]; intros n; simpl; [done|]. rewrite length_app, IH. simpl. lia.
Qed.

Lemma be_unsigned_snoc bs b : be_unsigned (bs ++ [b]) = 256 * be_unsigned bs + Z_of_byte b.
Proof. unfold be_unsigned. by rewrite fold_left_app. Qed.

Lemma pow_256_succ (w : nat) : 2 ^ (8 * Z.of_nat (S w)) = 256 * 2 ^ (8 * Z.of_nat w).
Proof.
  replace (8 * Z.of_nat (S w)) with (8 + 8 * Z.of_nat w) by lia.
  rewrite Z.pow_add_r by lia. done.
Qed.

Lemma pow_256_pos (w : nat) : 0 < 2 ^ (8 * Z.of_nat w).
Proof. apply Z.pow_pos_nonneg; lia. Qed.

Lemma be_unsigned_be_bytes w : ∀ n, be_unsigned (be_bytes w n) = n mod 2 ^ (8 * Z.of_nat w).
Proof.
  induction w as [|w IH]; intros n.
  - simpl. by rewrite Z.mod_1_r.
  - cbn [be_bytes]. rewrite be_unsigned_snoc, IH, Z_of_byte_of_Z, pow_256_succ.
    pose proof (pow_256_pos w). rewrite Z.rem_mul_r by lia. lia.
Qed.

Lemma be_unsigned_range bs : 0 <= be_unsigned bs < 2 ^ (8 * Z.of_nat (length bs)).
Proof.
  induction bs as [|b bs IH] using rev_ind.
  - by compute.
  - rewrite be_unsigned_snoc, length_app. simpl length.
    replace (length bs + 1)%nat with (S (length bs)) by lia. rewrite pow_256_succ.
    pose proof (Z_of_byte_range b). lia.
Qed.

Lemma pow_half (w : nat) :
  (1 <= w)%nat → 2 ^ (8 * Z.of_nat w) = 2 * 2 ^ (8 * Z.of_nat w - 1).
Proof.
  intros Hw. replace (8 * Z.of_nat w) with (Z.succ (8 * Z.of_nat w - 1)) at 1 by lia.
  apply Z.pow_succ_r. lia.
Qed.

Lemma to_signed_mod w n :
  (1 <= w)%nat → StubValue.in_range w n = true →
  to_signed w (n mod 2 ^ (8 * Z.of_nat w)) = n.
Proof.
  intros Hw Hr. unfold StubValue.in_range in Hr. apply andb_true_iff in Hr as [Hlo Hhi].
  apply Z.leb_le in Hlo. apply Z.ltb_lt in Hhi.
  pose proof (pow_half w Hw) as Hp. unfold to_signed.
  assert (0 < 2 ^ (8 * Z.of_nat w - 1)) by (apply Z.pow_pos_nonneg; lia).
  destruct (Z.le_gt_cases 0 n) as [Hn|Hn].
  - rewrite Z.mod_small by lia. destruct (Z.ltb_spec n (2 ^ (8 * Z.of_nat w - 1))); lia.
  - replace (n mod 2 ^ (8 * Z.of_nat w)) with (n + 2 ^ (8 * Z.of_nat w)).
    + destruct (Z.ltb_spec (n + 2 ^ (8 * Z.of_nat w)) (2 ^ (8 * Z.of_nat w - 1))); lia.
    + symmetry. rewrite <- (Z.mod_add n 1) by lia. rewrite Z.mul_1_l. apply Z.mod_small. lia.
Qed.

Lemma to_signed_range w u :
  (1 <= w)%nat → 0 <= u < 2 ^ (8 * Z.of_nat w) → StubValue.in_range w (to_signed w u) = true.
Proof.
  intros Hw Hu. pose proof (pow_half w Hw) as Hp. unfold StubValue.in_range, to_signed.
  assert (0 < 2 ^ (8 * Z.of_nat w - 1)) by (apply Z.pow_pos_nonneg; lia).
  apply andb_true_iff.
  destruct (Z.ltb_spec u (2 ^ (8 * Z.of_nat w - 1))); split; (apply Z.leb_le || apply Z.ltb_lt); lia.
Qed.

Lemma le_unsigned_rev_be w n :
  StubValue.le_unsigned (rev (be_bytes w n)) = n mod 2 ^ (8 * Z.of_nat w).
Proof. unfold StubValue.le_unsigned. by rewrite rev_involutive, be_unsigned_be_bytes. Qed.

Lemma le_unsigned_range bs : 0 <= StubValue.le_unsigned bs < 2 ^ (8 * Z.of_nat (length bs)).
Proof.
  unfold StubValue.le_unsigned. rewrite <- length_rev. apply be_unsigned_range.
Qed.

Lemma le_bytes_length w n : length (StubValue.le_bytes w n) = w.
Proof. unfold StubValue.le_bytes. by rewrite length_rev, be_bytes_length. Qed.

Lemma width_pos type w : StubValue.width type = Some w → (1 <= w)%nat.
Proof. destruct type; simpl; intros H; inversion H; lia. Qed.

#[global] Arguments be_bytes : simpl never.

Lemma ReadInt_be_bytes n rest :
  StubValue.in_range 4 n = true → ReadInt (be_bytes 4 n ++ rest) = Ok (n, rest).
Proof.
  intros Hr. unfold ReadInt.
  destruct (decide (4 <= length (be_bytes 4 n ++ rest))%nat) as [_|Hn].
  2:{ rewrite length_app, be_bytes_length in Hn. lia. }
  rewrite take_app_length' by (by rewrite be_bytes_length).
  rewrite drop_app_length' by (by rewrite be_bytes_length).
  rewrite be_unsigned_be_bytes, to_signed_mod; [done | lia | done].
Qed.

(** ** The reference implementation of [Value]: what a read depends on *)

Lemma handle_at_agree m m2 ptr :
  bytes_agree m m2 ptr 8 → StubValue.handle_at m2 ptr = StubValue.handle_at m ptr.
Proof. intros H. unfold StubValue.handle_at. by rewrite (load_bytes_agree m m2 ptr 8 H). Qed.

Lemma Deserialize_congr m m2 ptr type is_inlined :
  bytes_agree m m2 ptr (stub_extent m ptr type is_inlined) →
  (is_inlined = false → StubValue.is_object type = true → StubValue.handle_at m ptr ≠ 0%N →
   mem_heap m2 !! StubValue.handle_at m ptr = mem_heap m !! StubValue.handle_at m ptr) →
  StubValue.Deserialize m2 ptr type is_inlined = StubValue.Deserialize m ptr type is_inlined.
Proof.
  unfold stub_extent, StubValue.Deserialize. intros Hb Hh.
  destruct (StubValue.width type) as [w|].
  - by rewrite (load_bytes_agree m m2 ptr w Hb).
  - destruct (StubValue.is_object type); [|done].
    destruct is_inlined.
    + assert (Hl : load_byte m2 ptr = load_byte m ptr).
      { symmetry. apply Hb. destruct (_ =? 255); lia. }
      rewrite Hl. destruct (Z.eqb_spec (Z_of_byte (load_byte m ptr)) 255); [done|].
      do 2 f_equal. symmetry. apply load_bytes_agree. intros x Hx. apply Hb.
      pose proof (Z_of_byte_range (load_byte m ptr)). lia.
    + rewrite (handle_at_agree m m2 ptr Hb).
      destruct (N.eqb_spec (StubValue.handle_at m ptr) 0); [done|].
      by rewrite Hh.
Qed.

(** A read sees the bytes, and the block its handle names: a memory with the
    same bytes, and the same block under every handle the column can name, is
    read alike. *)
Lemma column_value_heap_frame m m2 tuple c :
  (∀ x, load_byte m x = load_byte m2 x) →
  (column_is_inlined c = false →
   StubValue.handle_at m (column_ptr tuple c) ≠ 0%N →
   mem_heap m2 !! StubValue.handle_at m (column_ptr tuple c)
   = mem_heap m !! StubValue.handle_at m (column_ptr tuple c)) →
  column_value StubValue.ops m2 tuple c = column_value StubValue.ops m tuple c.
Proof.
  intros Hb Hh. unfold column_value. simpl. apply Deserialize_congr.
  - intros x _. apply Hb.
  - intros Hinl _ Hnz. by apply Hh.
Qed.

Lemma column_valid_extent m tuple c :
  column_valid m tuple c →
  (stub_extent m (column_ptr tuple c) (column_type c) (column_is_inlined c) <= stub_slot_size c)%N.
Proof.
  unfold column_valid, stub_extent, stub_slot_size.
  destruct (StubValue.width (column_type c)) as [w|]; [lia|].
  intros [-> Hv]. destruct (column_is_inlined c); [|lia].
  destruct Hv as [Hlen Hl].
  pose proof (Z_of_byte_range (load_byte m (column_ptr tuple c))).
  destruct (Z.eqb_spec (Z_of_byte (load_byte m (column_ptr tuple c))) 255); lia.
Qed.

(** A valid column reads the same, and stays valid, when its slot keeps its
    bytes and the heap only grows. *)
Lemma column_valid_frame m m2 tuple c :
  column_valid m tuple c →
  bytes_agree m m2 (column_ptr tuple c) (stub_slot_size c) →
  heap_extends m m2 →
  column_value StubValue.ops m2 tuple c = column_value StubValue.ops m tuple c ∧
  column_valid m2 tuple c.
Proof.
  intros Hv Hb Hext. pose proof (column_valid_extent m tuple c Hv) as Hle. split.
  - unfold column_value. simpl. apply Deserialize_congr.
    + intros x Hx. apply Hb. lia.
    + intros Hinl Hobj Hnz. unfold column_valid in Hv.
      rewrite (is_object_width _ Hobj), Hinl in Hv. destruct Hv as [_ [Hz|(b & Hb' & _)]]; [done|].
      by rewrite Hb', (Hext _ _ Hb').
  - unfold column_valid in *. unfold stub_slot_size in Hb.
    destruct (StubValue.width (column_type c)) as [w|]; [done|].
    destruct Hv as [Hobj Hv]. split; [done|].
    destruct (column_is_inlined c).
    + destruct Hv as [Hlen Hl]. split; [done|].
      assert (Hsame : load_byte m2 (column_ptr tuple c) = load_byte m (column_ptr tuple c)).
      { symmetry. apply Hb. lia. }
      by rewrite Hsame.
    + rewrite (handle_at_agree m m2 _ Hb).
      destruct Hv as [Hz|(b & Hb' & Hlen)]; [by left|]. right. exists b. split; [by apply Hext|done].
Qed.

(** ** The reference implementation of [Value]: writing a slot and reading it back *)

Lemma handle_at_store h ptr m :
  (h < 2 ^ 64)%N →
  StubValue.handle_at (store_bytes ptr (StubValue.le_bytes 8 (Z.of_N h)) m) ptr = h.
Proof.
  intros Hh. unfold StubValue.handle_at.
  pose proof (load_bytes_store_same ptr (StubValue.le_bytes 8 (Z.of_N h)) m) as Hload.
  rewrite le_bytes_length in Hload. rewrite Hload.
  unfold StubValue.le_bytes. rewrite le_unsigned_rev_be.
  change (2 ^ (8 * Z.of_nat 8)) with (2 ^ 64). rewrite Z.mod_small; [lia|].
  change (2 ^ 64)%N with 18446744073709551616%N in Hh.
  change (2 ^ 64) with 18446744073709551616. lia.
Qed.

Lemma store_num_column w n tuple c m :
  StubValue.width (column_type c) = Some w →
  StubValue.in_range w n = true →
  column_value StubValue.ops (store_bytes (column_ptr tuple c) (rev (be_bytes w n)) m) tuple c
  = StubValue.Num (column_type c) n ∧
  column_valid (store_bytes (column_ptr tuple c) (rev (be_bytes w n)) m) tuple c ∧
  bytes_agree_outside m (store_bytes (column_ptr tuple c) (rev (be_bytes w n)) m)
    (column_ptr tuple c) (stub_slot_size c) ∧
  heap_extends m (store_bytes (column_ptr tuple c) (rev (be_bytes w n)) m).
Proof.
  intros Hw Hr. split; [|split; [|split]].
  - unfold column_value. simpl. unfold StubValue.Deserialize. rewrite Hw.
    assert (Hlen : length (rev (be_bytes w n)) = w) by (by rewrite length_rev, be_bytes_length).
    pose proof (load_bytes_store_same (column_ptr tuple c) (rev (be_bytes w n)) m) as Hload.
    rewrite Hlen in Hload. rewrite Hload.
    rewrite le_unsigned_rev_be, to_signed_mod; [done | by eapply width_pos | done].
  - unfold column_valid. by rewrite Hw.
  - unfold stub_slot_size. rewrite Hw.
    pose proof (store_bytes_agree_outside (column_ptr tuple c) (rev (be_bytes w n)) m) as H.
    by rewrite length_rev, be_bytes_length in H.
  - intros h b Hb. by rewrite store_bytes_heap.
Qed.

Lemma inline_slot_null len :
  1 <= len →
  length (StubValue.inline_slot None len) = Z.to_nat len ∧
  StubValue.inline_slot None len !! 0%nat = Some Byte.xff.
Proof.
  intros Hlen. unfold StubValue.inline_slot. split.
  - rewrite length_take, length_app, length_replicate. simpl. lia.
  - rewrite lookup_take_lt by lia. done.
Qed.

Lemma inline_slot_payload p len :
  Z.of_nat (length p) < len → (length p <= 254)%nat →
  StubValue.inline_slot (Some p) len
  = byte_of_Z (Z.of_nat (length p)) :: p
    ++ replicate (Z.to_nat len - 1 - length p) Byte.x00.
Proof.
  intros Hlen Hp. unfold StubValue.inline_slot.
  rewrite (take_ge p) by lia.
  replace (Z.to_nat len) with (S (Z.to_nat len - 1)) at 1 by lia.
  cbn [app take]. f_equal. rewrite take_app_ge by lia. f_equal.
  rewrite take_replicate. f_equal. lia.
Qed.

Lemma store_object_column o tuple c pool m :
  StubValue.is_object (column_type c) = true →
  (column_is_inlined c = true →
   1 <= fixed_length c ∧
   ∀ p, o = Some p → Z.of_nat (length p) < fixed_length c ∧ (length p <= 254)%nat) →
  (∀ p, o = Some p → Z.of_nat (length p) < 2 ^ 31) →
  (column_is_inlined c = false ∧
   StubValue.store_object o (column_ptr tuple c) (column_is_inlined c) (fixed_length c)
     (Some pool) m = Err AllocationFailure) ∨
  ∃ m',
    StubValue.store_object o (column_ptr tuple c) (column_is_inlined c) (fixed_length c)
      (Some pool) m = Ok (tt, m') ∧
    column_value StubValue.ops m' tuple c = StubValue.Obj (column_type c) o ∧
    column_valid m' tuple c ∧
    bytes_agree_outside m m' (column_ptr tuple c) (stub_slot_size c) ∧
    heap_extends m m'.
Proof.
  intros Hobj Hinl Hp31. pose proof (is_object_width _ Hobj) as Hw.
  unfold StubValue.store_object, column_value, column_valid, stub_slot_size. simpl.
  unfold StubValue.Deserialize. rewrite Hw, Hobj.
  destruct (column_is_inlined c) eqn:Ei.
  - right. destruct (Hinl eq_refl) as [Hlen Hfit]. eexists. split; [done|].
    destruct o as [p|].
    + destruct (Hfit p eq_refl) as [Hpl Hp254].
      rewrite inline_slot_payload by done.
      set (slot := byte_of_Z (Z.of_nat (length p)) :: p ++ replicate _ Byte.x00).
      assert (Hslot : length slot = Z.to_nat (fixed_length c)).
      { unfold slot. simpl. rewrite length_app, length_replicate. lia. }
      assert (H0 : load_byte (store_bytes (column_ptr tuple c) slot m) (column_ptr tuple c)
                   = byte_of_Z (Z.of_nat (length p))).
      { rewrite <- (N.add_0_r (column_ptr tuple c)) at 2.
        by apply (load_byte_store_inside _ slot m 0). }
      rewrite H0, Z_of_byte_of_Z, Z.mod_small by lia.
      destruct (Z.eqb_spec (Z.of_nat (length p)) 255); [lia|].
      split; [|split; [|split]].
      * do 2 f_equal. rewrite Nat2Z.id.
        replace (N.succ (column_ptr tuple c)) with (column_ptr tuple c + N.of_nat 1)%N by lia.
        rewrite load_bytes_store_inside by (rewrite Hslot; lia).
        unfold slot. rewrite skipn_cons, drop_0. by rewrite take_app_length.
      * split; [done|]. split; [done|]. right. lia.
      * pose proof (store_bytes_agree_outside (column_ptr tuple c) slot m) as H.
        rewrite Hslot in H. by rewrite Z_nat_N in H.
      * intros h b Hb. by rewrite store_bytes_heap.
    + destruct (inline_slot_null (fixed_length c) Hlen) as [Hslot H0'].
      assert (H0 : load_byte (store_bytes (column_ptr tuple c)
                                (StubValue.inline_slot None (fixed_length c)) m)
                     (column_ptr tuple c) = Byte.xff).
      { rewrite <- (N.add_0_r (column_ptr tuple c)) at 2.
        by apply (load_byte_store_inside _ _ m 0). }
      rewrite H0. simpl. split; [done|split; [|split]].
      * split; [done|]. split; [done|]. by left.
      * pose proof (store_bytes_agree_outside (column_ptr tuple c)
                      (StubValue.inline_slot None (fixed_length c)) m) as H.
        rewrite Hslot in H. by rewrite Z_nat_N in H.
      * intros h b Hb. by rewrite store_bytes_heap.
  - destruct o as [p|].
    + unfold bind, StubValue.allocate.
      destruct (N.ltb_spec (StubValue.fresh_handle m) (2 ^ 64)) as [Hlt|Hge]; [|by left].
      right. eexists. split; [done|].
      assert (Hfresh : StubValue.fresh_handle m ∉ ({[0%N]} ∪ dom (mem_heap m) : gset N)).
      { unfold StubValue.fresh_handle. apply is_fresh. }
      apply not_elem_of_union in Hfresh as [Hnz Hnew].
      rewrite elem_of_singleton in Hnz. apply not_elem_of_dom in Hnew.
      rewrite handle_at_store by done.
      destruct (N.eqb_spec (StubValue.fresh_handle m) 0); [done|].
      simpl. rewrite lookup_insert_eq. simpl. split; [done|split; [|split]].
      * split; [done|]. right. eexists. split; [done|]. simpl. by apply Hp31.
      * pose proof (store_bytes_agree_outside (column_ptr tuple c)
                      (StubValue.le_bytes 8 (Z.of_N (StubValue.fresh_handle m)))) as H.
        intros x Hx. rewrite <- H by (rewrite le_bytes_length; lia). done.
      * intros h b Hb. simpl. rewrite lookup_insert_ne; [done|]. congruence.
    + right. eexists. split; [done|].
      change (StubValue.le_bytes 8 0) with (StubValue.le_bytes 8 (Z.of_N 0)).
      rewrite handle_at_store by done. simpl. split; [done|split; [|split]].
      * split; [done|]. by left.
      * pose proof (store_bytes_agree_outside (column_ptr tuple c)
                      (StubValue.le_bytes 8 (Z.of_N 0)) m) as H.
        by rewrite le_bytes_length in H.
      * intros h b Hb. by rewrite store_bytes_heap.
Qed.

(** The value a valid column holds. *)
Lemma column_valid_cases m tuple c :
  column_valid m tuple c →
  (∃ w n, StubValue.width (column_type c) = Some w ∧
          column_value StubValue.ops m tuple c = StubValue.Num (column_type c) n ∧
          StubValue.in_range w n = true) ∨
  (StubValue.is_object (column_type c) = true ∧
   ∃ o, column_value StubValue.ops m tuple c = StubValue.Obj (column_type c) o ∧
        (column_is_inlined c = true →
         1 <= fixed_length c ∧
         ∀ p, o = Some p → Z.of_nat (length p) < fixed_length c ∧ (length p <= 254)%nat) ∧
        (∀ p, o = Some p → Z.of_nat (length p) < 2 ^ 31)).
Proof.
  unfold column_valid, column_value. simpl. unfold StubValue.Deserialize.
  destruct (StubValue.width (column_type c)) as [w|] eqn:Hw.
  - intros _. left. eexists w, _. split; [done|]. split; [done|].
    apply to_signed_range; [by eapply width_pos|].
    pose proof (le_unsigned_range (load_bytes m (column_ptr tuple c) w)) as H.
    by rewrite load_bytes_length in H.
  - intros [Hobj Hv]. right. split; [done|]. rewrite Hobj.
    destruct (column_is_inlined c).
    + destruct Hv as [Hlen Hl].
      pose proof (Z_of_byte_range (load_byte m (column_ptr tuple c))) as Hr.
      destruct (Z.eqb_spec (Z_of_byte (load_byte m (column_ptr tuple c))) 255) as [He|Hne].
      * exists None. split; [done|]. split; [|done]. intros _. split; done.
      * eexists (Some _). split; [done|]. split.
        -- intros _. split; [done|]. intros p Hp. inversion Hp; subst.
           rewrite load_bytes_length. lia.
        -- intros p Hp. inversion Hp; subst. rewrite load_bytes_length. lia.
    + destruct (N.eqb_spec (StubValue.handle_at m (column_ptr tuple c)) 0) as [He|Hne].
      * exists None. split; [done|]. split; done.
      * destruct Hv as [Hz|(b & Hb & Hlen)]; [done|]. rewrite Hb.
        eexists (Some _). split; [done|]. split; [done|].
        intros p Hp. by inversion Hp; subst.
Qed.

Lemma in_range_4_length n : 0 <= n < 2 ^ 31 → StubValue.in_range 4 n = true.
Proof.
  intros Hn. unfold StubValue.in_range. apply andb_true_iff.
  change (2 ^ (8 * Z.of_nat 4 - 1)) with (2 ^ 31).
  split; [apply Z.leb_le | apply Z.ltb_lt]; lia.
Qed.

(** One column of the round trip: the bytes [SerializeTo] wrote for a valid
    column, read back into the slot of the same column of another tuple. *)
Lemma deserialize_column_roundtrip m0 tuple tuple' c pool rest m :
  column_valid m0 tuple c →
  (column_is_inlined c = false ∧
   deserialize_column StubValue.ops tuple' (Some pool) c
     (StubValue.SerializeTo (column_value StubValue.ops m0 tuple c) [] ++ rest) m
   = Err AllocationFailure) ∨
  ∃ n m',
    deserialize_column StubValue.ops tuple' (Some pool) c
      (StubValue.SerializeTo (column_value StubValue.ops m0 tuple c) [] ++ rest) m
    = Ok ((n, rest), m') ∧
    column_value StubValue.ops m' tuple' c = column_value StubValue.ops m0 tuple c ∧
    column_valid m' tuple' c ∧
    bytes_agree_outside m m' (column_ptr tuple' c) (stub_slot_size c) ∧
    heap_extends m m'.
Proof.
  intros Hv.
  destruct (column_valid_cases m0 tuple c Hv)
    as [(w & n & Hw & -> & Hr)|(Hobj & o & -> & Hinl & Hp31)];
    unfold deserialize_column; cbn [Value.DeserializeFrom StubValue.ops];
    unfold StubValue.DeserializeFrom.
  - right. cbn [StubValue.SerializeTo]. rewrite Hw, app_nil_l.
    destruct (decide (w <= length (be_bytes w n ++ rest))%nat) as [_|Hn].
    2:{ rewrite length_app, be_bytes_length in Hn. lia. }
    rewrite take_app_length' by (by rewrite be_bytes_length).
    rewrite drop_app_length' by (by rewrite be_bytes_length).
    eexists _, _. split; [done|]. by apply store_num_column.
  - rewrite (is_object_width _ Hobj), Hobj.
    assert (Hread :
      bind (lift (ReadInt (StubValue.SerializeTo (StubValue.Obj (column_type c) o) [] ++ rest)))
        (fun r => let '(l, input) := r in
                  if l =? -1
                  then bind (StubValue.store_object None (column_ptr tuple' c) (column_is_inlined c)
                               (fixed_length c) (Some pool)) (fun _ => ret (4, input))
                  else if (0 <=? l) && (l <=? Z.of_nat (length input))
                       then bind (StubValue.store_object (Some (take (Z.to_nat l) input))
                                    (column_ptr tuple' c) (column_is_inlined c)
                                    (fixed_length c) (Some pool))
                                 (fun _ => ret (4 + l, drop (Z.to_nat l) input))
                       else throw PreconditionViolation) m
      = bind (StubValue.store_object o (column_ptr tuple' c) (column_is_inlined c)
                (fixed_length c) (Some pool))
             (fun _ => ret (match o with Some p => 4 + Z.of_nat (length p) | None => 4 end, rest)) m).
    { destruct o as [p|]; cbn [StubValue.SerializeTo]; rewrite app_nil_l.
      - rewrite <- app_assoc, bind_lift, ReadInt_be_bytes
          by (apply in_range_4_length; specialize (Hp31 p eq_refl); lia).
        destruct (Z.eqb_spec (Z.of_nat (length p)) (-1)); [lia|].
        destruct (Z.leb_spec 0 (Z.of_nat (length p))); [|lia].
        destruct (Z.leb_spec (Z.of_nat (length p)) (Z.of_nat (length (p ++ rest))));
          [|rewrite length_app in *; lia].
        cbn [andb]. by rewrite Nat2Z.id, take_app_length, drop_app_length.
      - by rewrite bind_lift, ReadInt_be_bytes. }
    rewrite Hread.
    destruct (store_object_column o tuple' c pool m Hobj Hinl Hp31)
      as [[Hun Hfail]|(m' & Hrun & Hval & Hvalid & Hbytes & Hheap)].
    + left. split; [done|]. by rewrite (bind_Err _ _ _ _ Hfail).
    + right. rewrite (bind_Ok _ _ _ _ _ Hrun). by eexists _, m'.
Qed.

(** ** Round trip through the storage format *)

Lemma slots_apart_sym c c' : slots_apart c c' → slots_apart c' c.
Proof. unfold slots_apart. lia. Qed.

Lemma slots_pairwise_from (l : list ColumnInfo) :
  (∀ i j c c', i ≠ j → l !! i = Some c → l !! j = Some c' → slots_apart c c') →
  slots_pairwise l.
Proof.
  induction l as [|c l IH]; intros H; simpl; [done|]. split.
  - apply Forall_forall. intros c' Hc'. apply list_elem_of_lookup in Hc' as [j Hj].
    by apply (H 0%nat (S j)).
  - apply IH. intros i j c1 c2 Hij H1 H2. apply (H (S i) (S j)); [lia|done..].
Qed.

Lemma slots_pairwise_filter (P : ColumnInfo -> bool) (l : list ColumnInfo) :
  slots_pairwise l → slots_pairwise (List.filter P l).
Proof.
  induction l as [|c l IH]; simpl; [done|]. intros [Hc Hl].
  destruct (P c); simpl; [|by apply IH]. split; [|by apply IH].
  apply Forall_forall. intros c' Hc'. apply list_elem_of_In, filter_In in Hc' as [Hin _].
  rewrite Forall_forall in Hc. by apply Hc, list_elem_of_In.
Qed.

(** A slot apart from the slots of [l] lies outside them. *)
Lemma slot_outside_slots tuple c (l : list ColumnInfo) x :
  Forall (slots_apart c) l →
  (column_ptr tuple c <= x < column_ptr tuple c + stub_slot_size c)%N →
  outside_slots tuple l x.
Proof.
  intros Hap Hx. unfold outside_slots. eapply Forall_impl; [exact Hap|].
  intros c' Hc'. unfold slots_apart, column_ptr in *. simpl in *. lia.
Qed.

Lemma roundtrip_columns m0 tuple tuple' pool (l : list ColumnInfo) :
  ∀ m rest,
    slots_pairwise l →
    Forall (column_valid m0 tuple) l →
    (Exists (fun c => column_is_inlined c = false) l ∧
     deserialize_columns StubValue.ops tuple' (Some pool) l
       (serialized_columns m0 tuple l ++ rest) m = Err AllocationFailure) ∨
    ∃ counts m',
      deserialize_columns StubValue.ops tuple' (Some pool) l
        (serialized_columns m0 tuple l ++ rest) m = Ok ((counts, rest), m') ∧
      Forall (fun c => column_value StubValue.ops m' tuple' c
                       = column_value StubValue.ops m0 tuple c ∧
                       column_valid m' tuple' c) l ∧
      (∀ x, outside_slots tuple' l x → load_byte m x = load_byte m' x) ∧
      heap_extends m m'.
Proof.
  induction l as [|c l IH]; intros m rest Hpw Hval.
  - right. exists [], m. split_and!; [done|constructor|done|apply heap_extends_refl].
  - destruct Hpw as [Hc Hpw]. apply Forall_cons in Hval as [Hvc Hval].
    unfold serialized_columns. cbn [map concat deserialize_columns]. rewrite <- app_assoc.
    fold (serialized_columns m0 tuple l).
    destruct (deserialize_column_roundtrip m0 tuple tuple' c pool
                (serialized_columns m0 tuple l ++ rest) m Hvc)
      as [[Hun Hfail]|(n & m1 & Hrun & Hv1 & Hvalid1 & Hb1 & Hh1)].
    { left. split; [by apply Exists_cons_hd|]. by rewrite (bind_Err _ _ _ _ Hfail). }
    rewrite (bind_Ok _ _ _ _ _ Hrun). cbn [snd fst].
    destruct (IH m1 rest Hpw Hval) as [[Hun Hfail]|(counts & m' & Hrun' & Hall & Hb' & Hh')].
    { left. split; [by apply Exists_cons_tl|]. by rewrite (bind_Err _ _ _ _ Hfail). }
    right. rewrite (bind_Ok _ _ _ _ _ Hrun'). exists (n :: counts), m'.
    split; [done|]. split; [|split].
    + constructor; [|done].
      destruct (column_valid_frame m1 m' tuple' c Hvalid1) as [Hsame Hvalid']; [|done|].
      * intros x Hx. apply Hb'. by apply (slot_outside_slots tuple' c l x Hc).
      * split; [congruence | done].
    + intros x Hx. apply Forall_cons in Hx as [Hxc Hxl].
      rewrite (Hb1 x Hxc). by apply Hb'.
    + by eapply heap_extends_trans.
Qed.

Lemma SerializeTo_bound (V : Value.Interface) st tuple s output :
  bound st tuple s →
  Tuple.SerializeTo V tuple output st
  = Ok (let output' := fold_left (fun out v => Value.SerializeTo V v out)
                         (column_values V (memory st) tuple s)
                         (output ++ replicate 4 Byte.x00) in
        WriteIntAt (Position output)
          (int32_cast (to_size_t (Position output' - Position output - 4))) output', st).
Proof.
  intros Hb. unfold Tuple.SerializeTo, ReserveBytes.
  rewrite (bind_Ok _ _ _ _ _ (schema_GetColumnCount_bound _ _ _ Hb)).
  erewrite bind_Ok; cycle 1.
  { rewrite (for_loop_fold _
               (fun c out => Ok (Value.SerializeTo V (column_value V (memory st) tuple c) out))).
    - rewrite (fold_result_Ok
                 (fun c out => Value.SerializeTo V (column_value V (memory st) tuple c) out)).
      reflexivity.
    - intros j c out Hc. unfold bind. by rewrite (GetValue_bound _ _ _ _ _ Hb Hc). }
  unfold ret. do 2 f_equal.
  assert (Hfold : ∀ l out,
    fold_left (fun a x => Value.SerializeTo V (column_value V (memory st) tuple x) a) l out
    = fold_left (fun out v => Value.SerializeTo V v out)
        (map (column_value V (memory st) tuple) l) out).
  { induction l as [|c l IH]; intros out; simpl; [done | apply IH]. }
  unfold column_values. by rewrite Hfold.
Qed.

Lemma StubValue_SerializeTo_append v output :
  StubValue.SerializeTo v output = output ++ StubValue.SerializeTo v [].
Proof.
  destruct v as [type n|type [p|]| |]; cbn [StubValue.SerializeTo];
    rewrite ?app_nil_l, ?app_nil_r; try done.
  by destruct (StubValue.width type); rewrite ?app_nil_r.
Qed.

Lemma StubValue_serialize_fold m tuple (l : list ColumnInfo) :
  ∀ output,
    fold_left (fun out v => Value.SerializeTo StubValue.ops v out)
      (map (column_value StubValue.ops m tuple) l) output
    = output ++ serialized_columns m tuple l.
Proof.
  induction l as [|c l IH]; intros output; cbn [map fold_left].
  - unfold serialized_columns. simpl. by rewrite app_nil_r.
  - rewrite IH. cbn [Value.SerializeTo StubValue.ops].
    rewrite StubValue_SerializeTo_append, <- app_assoc. done.
Qed.

Lemma ReadInt_header header rest :
  length header = 4%nat →
  ReadInt (header ++ rest) = Ok (to_signed 4 (be_unsigned header), rest).
Proof.
  intros Hlen. unfold ReadInt.
  destruct (decide (4 <= length (header ++ rest))%nat) as [_|Hn].
  2:{ rewrite length_app in Hn. lia. }
  by rewrite take_app_length', drop_app_length'.
Qed.

(** What the reference [Value] makes of [SerializeTo] on an empty output: a
    4-byte header and the values of the columns. *)
Lemma StubValue_SerializeTo_tuple st tuple s :
  bound st tuple s →
  ∃ header,
    length header = 4%nat ∧
    Tuple.SerializeTo StubValue.ops tuple [] st
    = Ok (header ++ serialized_columns (memory st) tuple (columns s), st).
Proof.
  intros Hb. rewrite (SerializeTo_bound _ _ _ _ _ Hb). cbv zeta.
  unfold column_values. rewrite StubValue_serialize_fold.
  eexists (be_bytes 4 _). split; [apply be_bytes_length|].
  unfold WriteIntAt, Position.
  change (Z.to_nat (Z.of_nat (length (@nil byte)))) with 0%nat.
  rewrite take_0, app_nil_l. change (0 + 4)%nat with (length (replicate 4 Byte.x00)).
  by rewrite drop_app_length.
Qed.

Lemma layout_pairwise s : schema_layout s → slots_pairwise (columns s).
Proof. intros [Hap _ _]. by apply slots_pairwise_from. Qed.

(** The slots of a tuple lie outside the slots of a tuple in another buffer. *)
Lemma other_buffer_outside s tuple tuple' c x :
  schema_layout s →
  buffers_apart (Tuple.tuple_data tuple) (Tuple.tuple_data tuple') (tuple_length s) →
  c ∈ columns s →
  (column_ptr tuple c <= x < column_ptr tuple c + stub_slot_size c)%N →
  outside_slots tuple' (columns s) x.
Proof.
  intros [_ Hin _] Hap Hc Hx. apply Forall_forall. intros c' Hc'.
  pose proof (Hin c Hc). pose proof (Hin c' Hc').
  unfold buffers_apart, column_ptr in *. lia.
Qed.

Lemma roundtrip_equal st tuple tuple' s pool :
  bound st tuple s → bound st tuple' s →
  schema_layout s →
  buffers_apart (Tuple.tuple_data tuple) (Tuple.tuple_data tuple') (tuple_length s) →
  Forall (column_valid (memory st) tuple) (columns s) →
  ∃ bytes,
    Tuple.SerializeTo StubValue.ops tuple [] st = Ok (bytes, st) ∧
    ((SchemaOps.IsTupleInlined s = false ∧
      Tuple.DeserializeFrom StubValue.ops tuple' bytes (Some pool) st = Err AllocationFailure) ∨
     ∃ st',
       Tuple.DeserializeFrom StubValue.ops tuple' bytes (Some pool) st = Ok ([], st') ∧
       Tuple.EqualsNoSchemaCheck StubValue.ops tuple' tuple st' = Ok (true, st') ∧
       Tuple.EqualsNoSchemaCheck StubValue.ops tuple tuple' st' = Ok (true, st')).
Proof.
  intros Hb Hb' Hlay Hap Hval.
  destruct (StubValue_SerializeTo_tuple st tuple s Hb) as (header & Hlen & Hser).
  exists (header ++ serialized_columns (memory st) tuple (columns s)). split; [done|].
  rewrite (DeserializeFrom_bound _ _ _ _ Hb'). unfold on_memory.
  rewrite bind_lift, (ReadInt_header _ _ Hlen). cbn [snd].
  rewrite deserialize_columns_vfold.
  rewrite <- (app_nil_r (serialized_columns (memory st) tuple (columns s))).
  destruct (roundtrip_columns (memory st) tuple tuple' pool (columns s) (memory st) []
              (layout_pairwise s Hlay) Hval)
    as [[Hun Hfail]|(counts & m' & Hrun & Hall & Hbytes & Hheap)].
  { left. rewrite Hfail. split; [|done]. unfold SchemaOps.IsTupleInlined.
    apply not_true_iff_false. rewrite forallb_forall. intros Hall.
    apply Exists_exists in Hun as (c & Hc & Hinl). apply list_elem_of_In in Hc.
    rewrite (Hall c Hc) in Hinl. done. }
  right. rewrite Hrun. eexists. split; [done|].
  set (st' := {| memory := m'; schemas := schemas st |}).
  assert (Hbs : bound st' tuple s) by (by apply (bound_schemas st)).
  assert (Hbs' : bound st' tuple' s) by (by apply (bound_schemas st)).
  rewrite (EqualsNoSchemaCheck_bound _ _ _ _ _ Hbs' Hbs),
    (EqualsNoSchemaCheck_bound _ _ _ _ _ Hbs Hbs').
  assert (Hcols : ∀ c, c ∈ columns s →
            column_value StubValue.ops m' tuple' c = column_value StubValue.ops m' tuple c).
  { intros c Hc. rewrite Forall_forall in Hall, Hval.
    destruct (Hall c Hc) as [-> _].
    destruct (column_valid_frame (memory st) m' tuple c (Hval c Hc)) as [-> _]; [|done..].
    intros x Hx. apply Hbytes. by apply (other_buffer_outside s tuple tuple' c x). }
  assert (Heq : ∀ t1 t2, (∀ c, c ∈ columns s →
                  column_value StubValue.ops m' t1 c = column_value StubValue.ops m' t2 c) →
                columns_equal StubValue.ops m' t1 t2 s = true).
  { intros t1 t2 H. unfold columns_equal. apply forallb_forall. intros c Hc%list_elem_of_In.
    unfold column_equal. rewrite (H c Hc). apply negb_true_iff.
    apply StubValue_Compare_zero, StubValue_Compare_refl. }
  simpl. rewrite (Heq tuple' tuple Hcols), (Heq tuple tuple'); [done|].
  intros c Hc. symmetry. by apply Hcols.
Qed.

(** ** Copy *)

Lemma memcpy_inside dst src len m i :
  (i < len)%N → load_byte (memcpy dst src len m) (dst + i) = load_byte m (src + i).
Proof.
  intros Hi. unfold memcpy.
  replace (dst + i)%N with (dst + N.of_nat (N.to_nat i))%N by lia.
  apply load_byte_store_inside. rewrite load_bytes_lookup by lia. do 2 f_equal. lia.
Qed.

Lemma memcpy_outside dst src len m x :
  (x < dst ∨ dst + len <= x)%N → load_byte (memcpy dst src len m) x = load_byte m x.
Proof.
  intros Hx. unfold memcpy. apply load_byte_store_outside. rewrite load_bytes_length. lia.
Qed.

Lemma memcpy_heap dst src len m : mem_heap (memcpy dst src len m) = mem_heap m.
Proof. done. Qed.

Lemma uninlined_slot_size c :
  column_is_inlined c = false → StubValue.is_object (column_type c) = true →
  stub_slot_size c = 8%N.
Proof. intros Hinl Hobj. unfold stub_slot_size. by rewrite (is_object_width _ Hobj), Hinl. Qed.

(** What [Copy] does with one uninlined column: a null record stays null and
    nothing is allocated; otherwise the payload the record names is copied
    into a block that was not live, drawn from the pool, and the record is
    made to name that block. *)
Lemma copy_column_uninlined tuple pool c m m' :
  column_is_inlined c = false → StubValue.is_object (column_type c) = true →
  copy_column StubValue.ops tuple pool c m = Ok (tt, m') →
  bytes_agree_outside m m' (column_ptr tuple c) 8 ∧
  ((StubValue.handle_at m' (column_ptr tuple c) = 0%N ∧
    StubValue.handle_at m (column_ptr tuple c) = 0%N ∧
    mem_heap m' = mem_heap m) ∨
   (∃ p b,
      pool = Some p ∧
      StubValue.handle_at m (column_ptr tuple c) ≠ 0%N ∧
      mem_heap m !! StubValue.handle_at m (column_ptr tuple c) = Some b ∧
      StubValue.handle_at m' (column_ptr tuple c) ≠ 0%N ∧
      mem_heap m !! StubValue.handle_at m' (column_ptr tuple c) = None ∧
      mem_heap m'
      = <[StubValue.handle_at m' (column_ptr tuple c) :=
            {| block_pool := p; block_payload := block_payload b |}]> (mem_heap m))).
Proof.
  intros Hinl Hobj. unfold copy_column, column_value.
  cbn [Value.Deserialize Value.CastAs Value.SerializeWithAllocation StubValue.ops].
  unfold bind, get. cbn [fst snd]. unfold StubValue.Deserialize.
  rewrite (is_object_width _ Hobj), Hobj, Hinl.
  destruct (N.eqb_spec (StubValue.handle_at m (column_ptr tuple c)) 0) as [Hz|Hnz].
  - unfold lift, StubValue.CastAs. rewrite Hobj.
    cbn [StubValue.SerializeWithAllocation StubValue.store_object negb].
    unfold modify. intros H. inversion H; subst m'. clear H. split.
    + pose proof (store_bytes_agree_outside (column_ptr tuple c) (StubValue.le_bytes 8 0) m) as H.
      by rewrite le_bytes_length in H.
    + left. change (StubValue.le_bytes 8 0) with (StubValue.le_bytes 8 (Z.of_N 0)).
      by rewrite handle_at_store.
  - destruct (mem_heap m !! StubValue.handle_at m (column_ptr tuple c)) as [b|] eqn:Hb.
    2:{ by unfold lift, StubValue.CastAs. }
    unfold lift, StubValue.CastAs. rewrite Hobj.
    cbn [StubValue.SerializeWithAllocation StubValue.store_object negb].
    unfold bind, StubValue.allocate. destruct pool as [p|]; [|done].
    destruct (N.ltb_spec (StubValue.fresh_handle m) (2 ^ 64)) as [Hlt|Hge]; [|done].
    unfold modify. intros H. inversion H; subst m'. clear H.
    assert (Hfresh : StubValue.fresh_handle m ∉ ({[0%N]} ∪ dom (mem_heap m) : gset N)).
    { unfold StubValue.fresh_handle. apply is_fresh. }
    apply not_elem_of_union in Hfresh as [Hfz Hnew].
    rewrite elem_of_singleton in Hfz. apply not_elem_of_dom in Hnew.
    rewrite handle_at_store by done. split.
    + intros x Hx. unfold load_byte, store_bytes. cbn [mem_bytes].
      rewrite insert_bytes_outside by (rewrite le_bytes_length; lia). done.
    + right. exists p, b. by split_and!.
Qed.

Lemma handle_valid_frame m m2 tuple c :
  handle_valid m tuple c →
  bytes_agree m m2 (column_ptr tuple c) 8 →
  heap_extends m m2 →
  StubValue.handle_at m2 (column_ptr tuple c) = StubValue.handle_at m (column_ptr tuple c) ∧
  handle_valid m2 tuple c.
Proof.
  intros Hv Hb Hext. pose proof (handle_at_agree m m2 _ Hb) as Hh. split; [done|].
  unfold handle_valid. rewrite Hh. destruct Hv as [Hz|[b Hb']]; [by left|].
  right. exists b. by apply Hext.
Qed.

Lemma copy_columns_spec tuple pool (l : list ColumnInfo) :
  ∀ m m',
    Forall (fun c => column_is_inlined c = false ∧
                     StubValue.is_object (column_type c) = true) l →
    slots_pairwise l →
    Forall (handle_valid m tuple) l →
    vfold (fun c _ => copy_column StubValue.ops tuple pool c) l tt m = Ok (tt, m') →
    heap_extends m m' ∧
    (∀ x, outside_slots tuple l x → load_byte m x = load_byte m' x) ∧
    Forall (copied_column m m' pool tuple tuple) l.
Proof.
  induction l as [|c l IH]; intros m m' Hun Hpw Hval Hrun.
  - inversion Hrun; subst. split_and!; [apply heap_extends_refl | done | constructor].
  - cbn [vfold] in Hrun. apply bind_inv in Hrun as ([] & m1 & Hstep & Hrest).
    apply Forall_cons in Hun as [[Hinl Hobj] Hun]. destruct Hpw as [Hap Hpw].
    apply Forall_cons in Hval as [Hvc Hval].
    pose proof (uninlined_slot_size c Hinl Hobj) as Hsize.
    destruct (copy_column_uninlined tuple pool c m m1 Hinl Hobj Hstep) as [Hb1 Hcase].
    assert (Hext1 : heap_extends m m1).
    { destruct Hcase as [(_ & _ & Hheap)|(p & b & _ & _ & _ & _ & Hnew & Hheap)];
        intros h bl Hbl; rewrite Hheap; [done|].
      rewrite lookup_insert_ne; [done|]. congruence. }
    assert (Htail : Forall (fun c' =>
              StubValue.handle_at m1 (column_ptr tuple c')
              = StubValue.handle_at m (column_ptr tuple c') ∧ handle_valid m1 tuple c') l).
    { rewrite Forall_forall in Hval, Hap, Hun. apply Forall_forall. intros c' Hc'.
      destruct (Hun c' Hc') as [Hinl' Hobj'].
      pose proof (uninlined_slot_size c' Hinl' Hobj') as Hsize'.
      apply handle_valid_frame; [by apply Hval| |done].
      intros x Hx. apply Hb1. specialize (Hap c' Hc').
      unfold slots_apart, column_ptr in *. rewrite Hsize, Hsize' in Hap. lia. }
    destruct (IH m1 m' Hun Hpw) as (Hext' & Hframe' & Hall'); [|done|].
    { eapply Forall_impl; [exact Htail|]. by intros c' [_ ?]. }
    assert (Hhead : StubValue.handle_at m' (column_ptr tuple c)
                    = StubValue.handle_at m1 (column_ptr tuple c)).
    { apply handle_at_agree. intros x Hx. apply Hframe'.
      apply (slot_outside_slots tuple c l x Hap). rewrite Hsize. lia. }
    split; [by eapply heap_extends_trans|]. split.
    + intros x Hx. apply Forall_cons in Hx as [Hxc Hxl]. rewrite Hsize in Hxc.
      rewrite (Hb1 x Hxc). by apply Hframe'.
    + constructor.
      * unfold copied_column. rewrite Hhead.
        destruct Hcase as [(Hz1 & Hz & _)|(p & b & Hp & Hnz & Hb & Hnz1 & Hnew & Hheap)];
          [by left|].
        right. exists p, b. split_and!; [done..|].
        apply Hext'. rewrite Hheap. apply lookup_insert_eq.
      * rewrite Forall_forall in Hall', Htail, Hval. apply Forall_forall. intros c' Hc'.
        destruct (Htail c' Hc') as [Hsame _]. unfold copied_column in *.
        destruct (Hall' c' Hc') as [[Hz' Hz]|(p & b & Hp & Hnz & Hb & Hnz' & Hnew & Hlive)].
        -- left. split; [done|]. by rewrite <- Hsame.
        -- right. rewrite Hsame in Hnz, Hb. exists p, b. split_and!; [done|done| |done| |done].
           ++ destruct (Hval c' Hc') as [Hz|[b' Hb']]; [done|].
              pose proof (Hext1 _ _ Hb') as Hb1'. congruence.
           ++ destruct (mem_heap m !! StubValue.handle_at m' (column_ptr tuple c')) as [b'|] eqn:E;
                [|done].
              apply Hext1 in E. congruence.
Qed.

Lemma uninlined_infos_elem s c :
  c ∈ uninlined_infos s ↔ c ∈ columns s ∧ column_is_inlined c = false.
Proof.
  unfold uninlined_infos. rewrite !list_elem_of_In, filter_In, negb_true_iff. done.
Qed.

Lemma handle_at_memcpy s tuple source m c :
  (column_offset c + 8 <= tuple_length s)%N →
  StubValue.handle_at (memcpy (Tuple.tuple_data tuple) source (tuple_length s) m)
    (column_ptr tuple c)
  = StubValue.handle_at m (column_ptr (tuple_at tuple source) c).
Proof.
  intros Hin. unfold StubValue.handle_at. do 2 f_equal. apply list_eq. intros i.
  destruct (decide (i < 8)%nat) as [Hi|Hi].
  - rewrite !load_bytes_lookup by done. f_equal. unfold column_ptr, tuple_at. simpl.
    rewrite <- !N.add_assoc. apply memcpy_inside. lia.
  - rewrite !lookup_ge_None_2; [done|rewrite load_bytes_length; lia..].
Qed.

(** [Copy] on the memory: what it leaves in the heap and in the records. *)
Lemma copy_memory_spec tuple s source pool m0 m' :
  schema_layout s →
  buffers_apart (Tuple.tuple_data tuple) source (tuple_length s) →
  (∀ c, c ∈ columns s → column_is_inlined c = false →
        handle_valid m0 (tuple_at tuple source) c) →
  copy_memory StubValue.ops tuple s source pool m0 = Ok (tt, m') →
  Forall (copied_column m0 m' pool (tuple_at tuple source) tuple) (uninlined_infos s) ∧
  (∀ x, (x < Tuple.tuple_data tuple ∨ Tuple.tuple_data tuple + tuple_length s <= x)%N →
        load_byte m' x = load_byte m0 x) ∧
  heap_extends m0 m'.
Proof.
  intros Hlay Hap Hsrc Hrun. unfold copy_memory in Hrun.
  apply bind_inv in Hrun as ([] & m1 & Hcp & Hloop). inversion Hcp; subst m1. clear Hcp.
  set (m1 := memcpy (Tuple.tuple_data tuple) source (tuple_length s) m0) in *.
  assert (Hun : ∀ c, c ∈ uninlined_infos s →
            c ∈ columns s ∧ column_is_inlined c = false ∧
            StubValue.is_object (column_type c) = true ∧
            (column_offset c + 8 <= tuple_length s)%N).
  { intros c [Hc Hinl]%uninlined_infos_elem.
    pose proof (layout_uninlined s Hlay c Hc Hinl) as Hobj.
    pose proof (layout_inside s Hlay c Hc) as Hin.
    rewrite (uninlined_slot_size c Hinl Hobj) in Hin. done. }
  destruct (copy_columns_spec tuple pool (uninlined_infos s) m1 m')
    as (Hext & Hframe & Hall); [| | |done|].
  { apply Forall_forall. intros c Hc. destruct (Hun c Hc) as (_ & ? & ? & _). done. }
  { apply slots_pairwise_filter, layout_pairwise, Hlay. }
  { apply Forall_forall. intros c Hc. destruct (Hun c Hc) as (Hcs & Hinl & _ & Hin).
    unfold handle_valid, m1. rewrite (handle_at_memcpy s tuple source m0 c Hin).
    by apply Hsrc. }
  split; [|split; [|done]].
  - rewrite Forall_forall in Hall. apply Forall_forall. intros c Hc.
    destruct (Hun c Hc) as (_ & _ & _ & Hin).
    specialize (Hall c Hc). unfold copied_column, m1 in *.
    by rewrite (handle_at_memcpy s tuple source m0 c Hin) in Hall.
  - intros x Hx. rewrite <- Hframe.
    + by apply memcpy_outside.
    + apply Forall_forall. intros c Hc. destruct (Hun c Hc) as (_ & Hinl & Hobj & Hin).
      rewrite (uninlined_slot_size c Hinl Hobj). unfold column_ptr. lia.
Qed.

Lemma copied_column_value m0 m' pool src dst c :
  column_is_inlined c = false → StubValue.is_object (column_type c) = true →
  copied_column m0 m' pool src dst c →
  column_value StubValue.ops m' dst c = column_value StubValue.ops m0 src c.
Proof.
  intros Hinl Hobj Hc. unfold column_value. cbn [Value.Deserialize StubValue.ops].
  unfold StubValue.Deserialize. rewrite (is_object_width _ Hobj), Hobj, Hinl.
  destruct Hc as [[-> ->]|(p & b & _ & Hnz0 & Hb & Hnz & _ & Hlive)]; [done|].
  destruct (N.eqb_spec (StubValue.handle_at m' (column_ptr dst c)) 0); [done|].
  destruct (N.eqb_spec (StubValue.handle_at m0 (column_ptr src c)) 0); [done|].
  by rewrite Hlive, Hb.
Qed.

Lemma copy_memory_apart tuple s source pool m0 m' :
  schema_layout s →
  buffers_apart (Tuple.tuple_data tuple) source (tuple_length s) →
  (∀ c, c ∈ columns s → column_is_inlined c = false →
        handle_valid m0 (tuple_at tuple source) c) →
  copy_memory StubValue.ops tuple s source pool m0 = Ok (tt, m') →
  copies_apart m0 m' pool tuple s source.
Proof.
  intros Hlay Hap Hsrc Hrun.
  destruct (copy_memory_spec tuple s source pool m0 m' Hlay Hap Hsrc Hrun)
    as (Hall & Hout & Hext).
  rewrite Forall_forall in Hall.
  assert (Hcopied : ∀ c, c ∈ columns s → column_is_inlined c = false →
            copied_column m0 m' pool (tuple_at tuple source) tuple c).
  { intros c Hc Hinl. apply Hall. by apply uninlined_infos_elem. }
  assert (Hsrc' : ∀ c, c ∈ columns s → column_is_inlined c = false →
            StubValue.handle_at m' (column_ptr (tuple_at tuple source) c)
            = StubValue.handle_at m0 (column_ptr (tuple_at tuple source) c)).
  { intros c Hc Hinl. apply handle_at_agree. intros x Hx. symmetry. apply Hout.
    pose proof (layout_inside s Hlay c Hc) as Hin.
    rewrite (uninlined_slot_size c Hinl (layout_uninlined s Hlay c Hc Hinl)) in Hin.
    unfold buffers_apart, column_ptr, tuple_at in *. simpl in *. lia. }
  assert (Hshare : ∀ c c', c ∈ columns s → c' ∈ columns s →
            column_is_inlined c = false → column_is_inlined c' = false →
            StubValue.handle_at m' (column_ptr tuple c) ≠ 0%N →
            StubValue.handle_at m' (column_ptr tuple c)
            ≠ StubValue.handle_at m' (column_ptr (tuple_at tuple source) c')).
  { intros c c' Hc Hc' Hinl Hinl' Hnz. rewrite (Hsrc' c' Hc' Hinl').
    destruct (Hcopied c Hc Hinl) as [[Hz _]|(p & b & _ & _ & _ & _ & Hnew & _)]; [done|].
    destruct (Hsrc c' Hc' Hinl') as [Hz|[b' Hb']]; [congruence|].
    intros Heq. rewrite Heq in Hnew. congruence. }
  unfold copies_apart. cbv zeta. split; [|split; [done|split]].
  - intros c Hc Hinl. split; [by apply Hcopied|].
    apply (copied_column_value m0 m' pool); [done| |by apply Hcopied].
    by apply (layout_uninlined s Hlay).
  - intros m'' [Hbytes Hheap] c Hc. apply column_value_heap_frame; [done|].
    intros Hinl Hnz. apply Hheap. intros c' Hc' Hinl'. by apply Hshare.
  - intros m'' [Hbytes Hheap] c Hc. apply column_value_heap_frame; [done|].
    intros Hinl Hnz. apply Hheap. intros c' Hc' Hinl' Heq.
    destruct (N.eq_dec (StubValue.handle_at m' (column_ptr tuple c')) 0%N) as [Hz|Hnz'].
    + congruence.
    + by apply (Hshare c' c Hc' Hc Hinl' Hinl Hnz').
Qed.


(** * The claims *)

Lemma Example_bound_tuple st :
  schemas st = schemas Example.empty_state → bound st Example.tuple Example.schema.
Proof. intros H. unfold bound. rewrite H. by vm_compute. Qed.

Lemma Example_bound_other st :
  schemas st = schemas Example.empty_state → bound st Example.other Example.schema.
Proof. intros H. unfold bound. rewrite H. by vm_compute. Qed.

Lemma Example_bound_twin st :
  schemas st = schemas Example.empty_state → bound st Example.twin Example.schema.
Proof. intros H. unfold bound. rewrite H. by vm_compute. Qed.

(** C3. [SerializeToExport(output, colOffset, null_array)] visits the columns
    in schema order.  A column whose value is null adds no byte to the
    output and turns on, in byte [(colOffset + i) >> 3] of the bitmap, the bit
    with mask [0x80 >> ((colOffset + i) mod 8)], by OR, every other bit keeping
    its value; a non-null column turns on no bit and adds to the output what
    its value's export encoding writes.  With the reference [Value], the row
    [(42, NULL)] over [[INTEGER, VARCHAR]] and [colOffset = 0] turns on bit 1
    of the bitmap (mask [0x40]) and writes the 8 bytes of column 0 and
    nothing for column 1. *)
Theorem SerializeToExport_null_bitmap :
  (∀ (V : Value.Interface) (st : State) (tuple : Tuple.t) (s : Schema)
     (output : list byte) (colOffset : Z) (null_array : list byte),
     bound st tuple s →
     0 <= colOffset →
     colOffset + Z.of_nat (length (columns s)) <= 8 * Z.of_nat (length null_array) →
     colOffset + Z.of_nat (length (columns s)) <= INT32_MAX + 1 →
     ∃ null_array',
       Tuple.SerializeToExport V tuple output colOffset null_array st
       = Ok ((export_output_spec V (memory st) tuple (columns s) output, null_array'), st) ∧
       length null_array' = length null_array ∧
       ∀ (k : nat) (b b' : byte) (j : Z), 0 <= j < 8 →
         null_array !! k = Some b → null_array' !! k = Some b' →
         Z.testbit (Z_of_byte b') j
         = Z.testbit (Z_of_byte b) j
           || null_bit_of V (memory st) tuple colOffset (indexed_columns s) k j) ∧
  Tuple.SerializeToExport StubValue.ops Example.tuple [] 0 [Byte.x00] Example.st_null
  = Ok ((be_bytes 8 42, [Byte.x40]), Example.st_null) ∧
  export_output_spec StubValue.ops (memory Example.st_null) Example.tuple
    (take 1 (columns Example.schema)) [] = be_bytes 8 42.
Proof.
  split; [|split; by vm_compute].
  intros V st tuple s output colOffset null_array Hb H0 Hlen Hmax.
  rewrite (SerializeToExport_bound _ _ _ _ _ _ _ Hb).
  destruct (export_fold V (memory st) tuple colOffset (indexed_columns s) output null_array)
    as (bm & Hrun & Hl & Hbits).
  { apply Forall_forall. intros [i c] Hin.
    apply list_elem_of_lookup in Hin as [j Hj].
    apply indexed_columns_lookup in Hj as [Hi Hc]. simpl in *. subst j.
    apply lookup_lt_Some in Hc. lia. }
  exists bm. rewrite Hrun. split_and!; [|done..]. simpl.
  unfold indexed_columns. rewrite snd_zip; [done|]. rewrite length_seq. lia.
Qed.

Lemma SerializeToExport_null_bitmap_witness :
  ∃ null_array',
    Tuple.SerializeToExport StubValue.ops Example.tuple [] 3 [Byte.x01; Byte.x00] Example.st_null
    = Ok ((export_output_spec StubValue.ops (memory Example.st_null) Example.tuple
             (columns Example.schema) [], null_array'), Example.st_null) ∧
    length null_array' = 2%nat ∧
    ∀ (k : nat) (b b' : byte) (j : Z), 0 <= j < 8 →
      [Byte.x01; Byte.x00] !! k = Some b → null_array' !! k = Some b' →
      Z.testbit (Z_of_byte b') j
      = Z.testbit (Z_of_byte b) j
        || null_bit_of StubValue.ops (memory Example.st_null) Example.tuple 3
             (indexed_columns Example.schema) k j.
Proof.
  apply (proj1 SerializeToExport_null_bitmap StubValue.ops Example.st_null Example.tuple
           Example.schema [] 3 [Byte.x01; Byte.x00]).
  - by apply Example_bound_tuple.
  - lia.
  - by vm_compute.
  - by vm_compute.
Defined.

(** C4. [ExportSerializationSize()] returns the sum over the columns of: 8
    bytes for a tinyint, smallint, integer, bigint, timestamp or double column;
    [4 + max_decimal_precision + 1 + 1] for a decimal column; 4 plus the
    payload length for a non-null varchar or varbinary column; nothing for a
    null one.  The sum is a [size_t]: it is taken modulo [2^64], and is the
    plain sum whenever that fits.  When a column has any other type the call
    fails with [UnknownTypeException] (for the first such column).  With the
    reference [Value], the row [(42, "peloton")] over [[INTEGER, VARCHAR]]
    gives 19. *)
Theorem ExportSerializationSize_sum :
  (∀ (V : Value.Interface) (st : State) (tuple : Tuple.t) (s : Schema),
     bound st tuple s →
     Tuple.ExportSerializationSize V tuple st
     = unchanged (export_size_spec V (memory st) tuple s) st ∧
     (Forall (fun c => export_type_known (column_type c) = true) (columns s) →
      Tuple.ExportSerializationSize V tuple st
      = Ok (export_size_sum V (memory st) tuple s mod 2 ^ 64, st) ∧
      (0 <= export_size_sum V (memory st) tuple s < 2 ^ 64 →
       Tuple.ExportSerializationSize V tuple st
       = Ok (export_size_sum V (memory st) tuple s, st))) ∧
     (Exists (fun c => export_type_known (column_type c) = false) (columns s) →
      ∃ type, export_type_known type = false ∧
              Tuple.ExportSerializationSize V tuple st = Err (UnknownTypeException type))) ∧
  Tuple.ExportSerializationSize StubValue.ops Example.tuple Example.st_peloton
  = Ok (19, Example.st_peloton).
Proof.
  split; [|by vm_compute].
  intros V st tuple s Hb. rewrite (ExportSerializationSize_bound _ _ _ _ Hb).
  unfold export_size_spec, first_unknown_type. split_and!; [done| |].
  - intros Hall.
    assert (Hnone : List.find (fun c => negb (export_type_known (column_type c))) (columns s) = None).
    { induction Hall as [|c l Hc _ IH]; simpl; [done|]. by rewrite Hc. }
    rewrite Hnone. simpl. split; [done|]. intros Hr. unfold to_size_t, UINT64_MOD.
    by rewrite Z.mod_small.
  - intros Hex.
    destruct (List.find (fun c => negb (export_type_known (column_type c))) (columns s))
      as [c|] eqn:Hfind.
    + apply find_some in Hfind as [_ Hc]. exists (column_type c). simpl.
      split; [by apply negb_true_iff | done].
    + exfalso. apply Exists_exists in Hex as (c & Hin & Hc).
      apply list_elem_of_In in Hin.
      pose proof (find_none _ _ Hfind c Hin) as Hn. simpl in Hn. by rewrite Hc in Hn.
Qed.

Lemma ExportSerializationSize_sum_witness :
  Tuple.ExportSerializationSize StubValue.ops Example.tuple Example.st_pair
  = Ok (export_size_sum StubValue.ops (memory Example.st_pair) Example.tuple Example.schema, Example.st_pair).
Proof.
  destruct (proj1 ExportSerializationSize_sum StubValue.ops Example.st_pair Example.tuple
              Example.schema) as (_ & Hsum & _).
  - by apply Example_bound_tuple.
  - apply Hsum.
    + repeat constructor.
    + by vm_compute.
Defined.

(** C5. [HashCode(seed)] folds the hash contribution of every column into
    the running seed in schema order, [HashCode()] starts from the seed 0, and
    two tuples over the same schema that are [EqualsNoSchemaCheck]-equal have
    the same [HashCode()], given that value-equal [Value]s hash alike ([Value]'s
    side of the contract). *)
Theorem HashCode_consistent_with_equality (V : Value.Interface) (st : State)
    (t1 t2 : Tuple.t) (s : Schema) :
  (∀ a b : Value.t V,
     Value.IsTrue V (Value.OpNotEquals V a b) = false →
     ∀ seed, Value.HashCombine V a seed = Value.HashCombine V b seed) →
  bound st t1 s → bound st t2 s →
  (∀ seed, Tuple.HashCode_seed V t1 seed st = Ok (hash_fold V (memory st) t1 s seed, st)) ∧
  Tuple.HashCode V t1 st = Tuple.HashCode_seed V t1 0 st ∧
  (Tuple.EqualsNoSchemaCheck V t1 t2 st = Ok (true, st) →
   ∃ h, Tuple.HashCode V t1 st = Ok (h, st) ∧ Tuple.HashCode V t2 st = Ok (h, st)).
Proof.
  intros Hlaw Hb1 Hb2. split_and!.
  - intros seed. by apply HashCode_seed_bound.
  - done.
  - rewrite (EqualsNoSchemaCheck_bound V st t1 t2 s Hb1 Hb2). intros Heq.
    assert (Hcols : columns_equal V (memory st) t1 t2 s = true) by (by inversion Heq).
    exists (hash_fold V (memory st) t1 s 0). unfold Tuple.HashCode.
    rewrite (HashCode_seed_bound V st t1 s Hb1), (HashCode_seed_bound V st t2 s Hb2).
    split; [done|]. by rewrite (hash_fold_equal V _ _ _ _ Hlaw Hcols).
Qed.

Lemma HashCode_consistent_with_equality_witness :
  ∃ h, Tuple.HashCode StubValue.ops Example.tuple Example.st_pair = Ok (h, Example.st_pair) ∧
       Tuple.HashCode StubValue.ops Example.other Example.st_pair = Ok (h, Example.st_pair).
Proof.
  destruct (HashCode_consistent_with_equality StubValue.ops Example.st_pair Example.tuple
              Example.other Example.schema) as (_ & _ & H).
  - exact StubValue_hash_law.
  - by apply Example_bound_tuple.
  - by apply Example_bound_other.
  - apply H. by vm_compute.
Defined.

(** C6. [operator==] answers false as soon as the two tuples hold different
    schema pointers, however alike the schema objects and the columns are, and
    otherwise what [EqualsNoSchemaCheck] answers; [EqualsNoSchemaCheck] makes
    no such check and answers true exactly when no column, in schema order, is
    unequal under [Value]'s not-equals.  So [t1 == t2] is true only for one
    schema object and value-equal columns, and implies
    [t1.EqualsNoSchemaCheck(t2)]. *)
Theorem op_eq_identity_and_columns (V : Value.Interface) (st : State) (t1 t2 : Tuple.t)
    (s1 s2 : Schema) :
  bound st t1 s1 → bound st t2 s2 →
  (Tuple.tuple_schema t1 ≠ Tuple.tuple_schema t2 → Tuple.op_eq V t1 t2 st = Ok (false, st)) ∧
  (Tuple.tuple_schema t1 = Tuple.tuple_schema t2 →
   s2 = s1 ∧ Tuple.op_eq V t1 t2 st = Tuple.EqualsNoSchemaCheck V t1 t2 st) ∧
  (s2 = s1 →
   Tuple.EqualsNoSchemaCheck V t1 t2 st = Ok (columns_equal V (memory st) t1 t2 s1, st)) ∧
  (Tuple.op_eq V t1 t2 st = Ok (true, st) →
   Tuple.tuple_schema t1 = Tuple.tuple_schema t2 ∧
   (∀ c, c ∈ columns s1 → column_equal V (memory st) t1 t2 c = true) ∧
   Tuple.EqualsNoSchemaCheck V t1 t2 st = Ok (true, st)).
Proof.
  intros Hb1 Hb2.
  assert (Hne : Tuple.tuple_schema t1 ≠ Tuple.tuple_schema t2 →
                Tuple.op_eq V t1 t2 st = Ok (false, st)).
  { intros Hne. unfold Tuple.op_eq.
    by destruct (N.eqb_spec (Tuple.tuple_schema t1) (Tuple.tuple_schema t2)). }
  assert (Heq : Tuple.tuple_schema t1 = Tuple.tuple_schema t2 →
                s2 = s1 ∧ Tuple.op_eq V t1 t2 st = Tuple.EqualsNoSchemaCheck V t1 t2 st).
  { intros He. split.
    - destruct Hb1 as (_ & _ & H1), Hb2 as (_ & _ & H2). rewrite He in H1. congruence.
    - unfold Tuple.op_eq. by rewrite He, N.eqb_refl. }
  assert (Hcols : s2 = s1 →
            Tuple.EqualsNoSchemaCheck V t1 t2 st
            = Ok (columns_equal V (memory st) t1 t2 s1, st)).
  { intros ->. by apply EqualsNoSchemaCheck_bound. }
  split_and!; [done..|]. intros Htrue.
  destruct (decide (Tuple.tuple_schema t1 = Tuple.tuple_schema t2)) as [He|Hd].
  2:{ rewrite (Hne Hd) in Htrue. done. }
  destruct (Heq He) as [Hs Hop]. rewrite Hop in Htrue. split; [done|]. split; [|done].
  rewrite (Hcols Hs) in Htrue.
  assert (Hv : columns_equal V (memory st) t1 t2 s1 = true) by congruence.
  intros c Hc. unfold columns_equal in Hv. rewrite forallb_forall in Hv.
  apply Hv. by apply list_elem_of_In.
Qed.

(** Two tuples over equal schemas held at different addresses, with
    value-equal columns: [EqualsNoSchemaCheck] is true, [==] is false. *)
Lemma op_eq_identity_and_columns_witness :
  schemas Example.st_pair !! Tuple.tuple_schema Example.tuple
  = schemas Example.st_pair !! Tuple.tuple_schema Example.twin ∧
  Tuple.EqualsNoSchemaCheck StubValue.ops Example.tuple Example.twin Example.st_pair
  = Ok (true, Example.st_pair) ∧
  Tuple.op_eq StubValue.ops Example.tuple Example.twin Example.st_pair
  = Ok (false, Example.st_pair) ∧
  Tuple.op_eq StubValue.ops Example.tuple Example.other Example.st_pair
  = Ok (true, Example.st_pair).
Proof.
  destruct (op_eq_identity_and_columns StubValue.ops Example.st_pair Example.tuple
              Example.twin Example.schema Example.schema) as (Hne & _ & Heq & _).
  { by apply Example_bound_tuple. }
  { by apply Example_bound_twin. }
  split_and!; [by vm_compute | | | by vm_compute].
  - rewrite (Heq eq_refl). by vm_compute.
  - apply Hne. by vm_compute.
Defined.

(** C7. Over one schema, [Compare] returns the first nonzero per-column
    comparator result in schema order, else 0.  Given that [Value]'s comparator
    is antisymmetric and is 0 exactly on value-equal values ([Value]'s side of
    the contract), [t1.Compare(t2) = - t2.Compare(t1)], and [t1.Compare(t2)] is 0
    exactly when [t1.EqualsNoSchemaCheck(t2)] is true. *)
Theorem Compare_lexicographic (V : Value.Interface) (st : State) (t1 t2 : Tuple.t)
    (s : Schema) :
  (∀ a b : Value.t V, Value.Compare V b a = - Value.Compare V a b) →
  (∀ a b : Value.t V,
     Value.Compare V a b = 0 ↔ Value.IsTrue V (Value.OpNotEquals V a b) = false) →
  bound st t1 s → bound st t2 s →
  ∃ d12 d21,
    Tuple.Compare V t1 t2 st = Ok (d12, st) ∧
    Tuple.Compare V t2 t1 st = Ok (d21, st) ∧
    d12 = first_nonzero (column_diffs V (memory st) t1 t2 s) ∧
    d12 = - d21 ∧
    (d12 = 0 ↔ Tuple.EqualsNoSchemaCheck V t1 t2 st = Ok (true, st)) ∧
    (d12 = 0 ↔ ∀ c, c ∈ columns s → column_equal V (memory st) t1 t2 c = true).
Proof.
  intros Hanti Hzero Hb1 Hb2.
  exists (first_nonzero (column_diffs V (memory st) t1 t2 s)),
         (first_nonzero (column_diffs V (memory st) t2 t1 s)).
  rewrite (Compare_bound V st t1 t2 s Hb1 Hb2), (Compare_bound V st t2 t1 s Hb2 Hb1).
  rewrite (EqualsNoSchemaCheck_bound V st t1 t2 s Hb1 Hb2).
  split_and!; [done..| | |].
  - rewrite (first_nonzero_opp _ _ (column_diffs_opp V _ t1 t2 s Hanti)). lia.
  - rewrite (column_diffs_zero V _ _ _ _ Hzero). split; [by intros -> | by inversion 1].
  - rewrite (column_diffs_zero V _ _ _ _ Hzero). unfold columns_equal.
    rewrite forallb_forall. split; intros H c Hc; apply H; by apply list_elem_of_In.
Qed.

Lemma Compare_lexicographic_witness :
  ∃ d12 d21,
    Tuple.Compare StubValue.ops Example.tuple Example.other Example.st_pair
    = Ok (d12, Example.st_pair) ∧
    Tuple.Compare StubValue.ops Example.other Example.tuple Example.st_pair
    = Ok (d21, Example.st_pair) ∧
    d12 = first_nonzero (column_diffs StubValue.ops (memory Example.st_pair) Example.tuple
                           Example.other Example.schema) ∧
    d12 = - d21 ∧
    (d12 = 0 ↔ Tuple.EqualsNoSchemaCheck StubValue.ops Example.tuple Example.other Example.st_pair
               = Ok (true, Example.st_pair)) ∧
    (d12 = 0 ↔ ∀ c, c ∈ columns Example.schema →
               column_equal StubValue.ops (memory Example.st_pair) Example.tuple Example.other c
               = true).
Proof.
  apply (Compare_lexicographic StubValue.ops Example.st_pair Example.tuple Example.other
           Example.schema).
  - exact StubValue_Compare_opp.
  - exact StubValue_Compare_zero.
  - by apply Example_bound_tuple.
  - by apply Example_bound_other.
Defined.

(** C10. [EqualsNoSchemaCheck], [Compare], [HashCode] (both forms) and
    [ExportSerializationSize] are read-only: whenever one of them returns, the
    state it returns in (every byte of every buffer, every payload block and
    every schema object) is the state it was called in. *)
Theorem read_only_operations (V : Value.Interface) (tuple other : Tuple.t) (seed : Z) :
  read_only (Tuple.EqualsNoSchemaCheck V tuple other) ∧
  read_only (Tuple.Compare V tuple other) ∧
  read_only (Tuple.HashCode_seed V tuple seed) ∧
  read_only (Tuple.HashCode V tuple) ∧
  read_only (Tuple.ExportSerializationSize V tuple).
Proof.
  split_and!.
  - apply read_only_EqualsNoSchemaCheck.
  - apply read_only_Compare.
  - apply read_only_HashCode_seed.
  - apply read_only_HashCode.
  - apply read_only_ExportSerializationSize.
Qed.

(** C9. [DeserializeWithHeaderFrom(input)] passes the null pool to every
    per-column [Value::DeserializeFrom] call, made in schema order each on the
    input the call before left, and when it returns its result is 4 (the size
    header) plus the sum of the counts those calls returned; [Value] returning
    the number of bytes it consumed, that is the number of bytes consumed from
    the input.  It returns whenever the header can be read and every call
    succeeds, for an input shorter than [2^63] bytes. *)
Theorem DeserializeWithHeaderFrom_counts (V : Value.Interface) (st : State)
    (tuple : Tuple.t) (s : Schema) (input : list byte) :
  reports_consumption V →
  bound st tuple s →
  (∀ n input' st',
     Tuple.DeserializeWithHeaderFrom V tuple input st = Ok ((n, input'), st') →
     (∃ size input1 counts,
        ReadInt input = Ok (size, input1) ∧
        deserialize_columns V tuple None (columns s) input1 (memory st)
        = Ok ((counts, input'), memory st') ∧
        n = 4 + sum_Z counts) ∧
     (∃ consumed, input = consumed ++ input' ∧ n = Z.of_nat (length consumed)) ∧
     schemas st' = schemas st) ∧
  (∀ size input1 counts input' m',
     ReadInt input = Ok (size, input1) →
     deserialize_columns V tuple None (columns s) input1 (memory st)
     = Ok ((counts, input'), m') →
     Z.of_nat (length input) <= INT64_MAX →
     Tuple.DeserializeWithHeaderFrom V tuple input st
     = Ok ((4 + sum_Z counts, input'), {| memory := m'; schemas := schemas st |})).
Proof.
  intros Hlaw Hb. rewrite (DeserializeWithHeaderFrom_bound V st tuple s Hb). split.
  - intros n input' st' H.
    pose proof (on_memory_schemas _ _ _ _ H) as Hsch.
    unfold on_memory in H.
    destruct (bind _ _ (memory st)) as [[[n0 inp0] m']|e] eqn:Hrun; [|done].
    inversion H; subst. simpl.
    rewrite bind_lift in Hrun. destruct (ReadInt input) as [[size input1]|e] eqn:HR; [|done].
    rewrite bind_lift in Hrun. simpl in Hrun.
    apply header_fold_counts in Hrun as (counts & Hcols & ->).
    split_and!; [by exists size, input1, counts| |done].
    apply ReadInt_consumes in HR as (header & -> & Hlen).
    destruct (deserialize_columns_consumed V tuple None (columns s) Hlaw _ _ _ _ _ Hcols)
      as (consumed & -> & Hsum).
    exists (header ++ consumed). split; [by rewrite app_assoc|]. rewrite length_app. lia.
  - intros size input1 counts input' m' HR Hcols Hfit.
    unfold on_memory. rewrite bind_lift, HR, bind_lift. simpl.
    pose proof (ReadInt_consumes _ _ _ HR) as (header & -> & Hlen).
    rewrite length_app in Hfit.
    change (0 + 4) with 4.
    rewrite (header_fold_total V tuple (columns s) Hlaw 4 input1 (memory st) counts input' m' Hcols)
      by lia.
    done.
Qed.

Lemma DeserializeWithHeaderFrom_counts_witness :
  Tuple.DeserializeWithHeaderFrom StubValue.ops Example.other
    (be_bytes 4 8 ++ be_bytes 4 42 ++ be_bytes 4 (-1) ++ [Byte.x07]) Example.st_null
  = Ok ((4 + sum_Z [4; 4], [Byte.x07]),
        {| memory := memory (Example.state_after (Example.set_row Example.other None)
                               Example.st_null);
           schemas := schemas Example.st_null |}).
Proof.
  destruct (DeserializeWithHeaderFrom_counts StubValue.ops Example.st_null Example.other
              Example.schema (be_bytes 4 8 ++ be_bytes 4 42 ++ be_bytes 4 (-1) ++ [Byte.x07]))
    as [_ H].
  - exact StubValue_reports_consumption.
  - by apply Example_bound_other.
  - apply (H 8 (be_bytes 4 42 ++ be_bytes 4 (-1) ++ [Byte.x07])).
    + by vm_compute.
    + by vm_compute.
    + by vm_compute.
Defined.

(** C8. With the reference [Value], whose allocation for an uninlined
    payload fails with [MissingPoolError] when there is no pool:
    [DeserializeFrom] called with the null pool, and
    [DeserializeWithHeaderFrom], which passes the null pool itself, fail with
    [MissingPoolError] at the first uninlined variable-length column whose
    incoming value is not null (the columns before it having been read). *)
Theorem DeserializeFrom_missing_pool (st : State) (tuple : Tuple.t) (s : Schema)
    (input : list byte) (k : nat) (c : ColumnInfo)
    (size : Z) (input0 : list byte) (counts : list Z) (input_k : list byte) (m_k : Mem)
    (l : Z) (rest : list byte) :
  bound st tuple s →
  columns s !! k = Some c →
  column_is_inlined c = false →
  StubValue.is_object (column_type c) = true →
  ReadInt input = Ok (size, input0) →
  deserialize_columns StubValue.ops tuple None (take k (columns s)) input0 (memory st)
  = Ok ((counts, input_k), m_k) →
  ReadInt input_k = Ok (l, rest) →
  0 <= l <= Z.of_nat (length rest) →
  Tuple.DeserializeFrom StubValue.ops tuple input None st = Err MissingPoolError ∧
  (Z.of_nat (length input) <= INT64_MAX →
   Tuple.DeserializeWithHeaderFrom StubValue.ops tuple input st = Err MissingPoolError).
Proof.
  intros Hb Hc Hinl Hobj HR Hpre HRk Hl.
  pose proof (deserialize_column_no_pool tuple c input_k l rest m_k Hinl Hobj HRk Hl) as Hfail.
  assert (Hsplit : columns s = take k (columns s) ++ c :: drop (S k) (columns s)).
  { by rewrite <- (take_drop_middle _ _ _ Hc) at 1. }
  split.
  - rewrite (DeserializeFrom_bound _ _ _ _ Hb). unfold on_memory.
    rewrite bind_lift, HR. cbn [snd]. rewrite Hsplit, vfold_app.
    unfold bind at 1. rewrite deserialize_columns_vfold, Hpre.
    cbn [vfold]. unfold bind. by rewrite Hfail.
  - intros Hfit. rewrite (DeserializeWithHeaderFrom_bound _ _ _ _ Hb). unfold on_memory.
    rewrite bind_lift, HR, bind_lift. cbn [snd].
    change (int64_add 0 4) with (Ok (A:=Z) 4). cbv iota beta.
    rewrite Hsplit, vfold_app.
    pose proof (ReadInt_consumes _ _ _ HR) as (header & -> & Hlen).
    rewrite length_app in Hfit.
    unfold bind at 1.
    rewrite (header_fold_total StubValue.ops tuple (take k (columns s))
               StubValue_reports_consumption 4 input0 (memory st) counts input_k m_k Hpre)
      by lia.
    cbn [vfold]. unfold bind at 1. unfold header_step at 1. cbn [snd fst].
    unfold bind at 1. by rewrite Hfail.
Qed.

Lemma DeserializeFrom_missing_pool_witness :
  Tuple.DeserializeFrom StubValue.ops Example.other
    (be_bytes 4 19 ++ be_bytes 4 42 ++ be_bytes 4 7 ++ Example.peloton) None Example.st_null
  = Err MissingPoolError ∧
  (Z.of_nat (length (be_bytes 4 19 ++ be_bytes 4 42 ++ be_bytes 4 7 ++ Example.peloton))
   <= INT64_MAX →
   Tuple.DeserializeWithHeaderFrom StubValue.ops Example.other
     (be_bytes 4 19 ++ be_bytes 4 42 ++ be_bytes 4 7 ++ Example.peloton) Example.st_null
   = Err MissingPoolError).
Proof.
  eapply (DeserializeFrom_missing_pool Example.st_null Example.other Example.schema
            (be_bytes 4 19 ++ be_bytes 4 42 ++ be_bytes 4 7 ++ Example.peloton) 1%nat).
  - by apply Example_bound_other.
  - reflexivity.
  - reflexivity.
  - reflexivity.
  - reflexivity.
  - by vm_compute.
  - reflexivity.
  - by vm_compute.
Defined.

Lemma Example_layout : schema_layout Example.schema.
Proof.
  split.
  - intros i j c c' Hij Hi Hj.
    destruct i as [|[|i]], j as [|[|j]]; try done; simpl in Hi, Hj;
      inversion Hi; inversion Hj; subst; unfold slots_apart, stub_slot_size; simpl; lia.
  - intros c Hc. apply list_elem_of_In in Hc. simpl in Hc.
    destruct Hc as [<-|[<-|[]]]; unfold stub_slot_size; simpl; lia.
  - intros c Hc. apply list_elem_of_In in Hc. simpl in Hc.
    destruct Hc as [<-|[<-|[]]]; done.
Qed.

Lemma Example_valid :
  Forall (column_valid (memory Example.st_peloton) Example.tuple) (columns Example.schema).
Proof.
  apply Forall_cons. split; [exact I|].
  apply Forall_cons. split; [|constructor].
  split; [done|]. right. eexists. split; [by vm_compute|]. by vm_compute.
Qed.

Lemma Example_handle_valid c :
  c ∈ columns Example.schema → column_is_inlined c = false →
  handle_valid (memory Example.st_peloton) (tuple_at Example.other 256) c.
Proof.
  intros Hc Hinl. apply list_elem_of_In in Hc. simpl in Hc.
  destruct Hc as [<-|[<-|[]]]; [done|]. right. eexists. by vm_compute.
Qed.

(** C1, as stated, at the row [(42, NULL)]: [Copy] returns, and the uninlined
    column of the destination names no block at all, its record is null and
    nothing was allocated. *)
Lemma Copy_null_column_names_no_block :
  Tuple.Copy StubValue.ops Example.other 256 (Some Example.pool) Example.st_null
  = Ok (tt, Example.state_after
              (Tuple.Copy StubValue.ops Example.other 256 (Some Example.pool))
              Example.st_null) ∧
  ¬ (∀ c, c ∈ columns Example.schema → column_is_inlined c = false →
          refers_to_fresh_block (memory Example.st_null)
            (memory (Example.state_after
                       (Tuple.Copy StubValue.ops Example.other 256 (Some Example.pool))
                       Example.st_null))
            (Some Example.pool) Example.other c).
Proof.
  split; [by vm_compute|]. intros H.
  destruct (H (List.nth 1 (columns Example.schema)
                 {| column_type := VALUE_TYPE_INTEGER; fixed_length := 0; variable_length := 0;
                    column_offset := 0; column_is_inlined := true |}))
    as (p & b & _ & _ & Hlive & _).
  - apply list_elem_of_In. simpl. tauto.
  - done.
  - vm_compute in Hlive. done.
Qed.

(** C1, amended. [Copy(source, pool)] is the raw copy of the fixed-size region
    followed, for each uninlined column in schema order, by reading the value
    through the copied record and writing it back with [SetValueAllocate].
    With the reference [Value] and [Pool]: after [Copy] returns, the record of
    an uninlined column of the destination is null when the source's is (no
    block is allocated for a null value), and otherwise names a block that was
    not live before the call, drawn from [pool] and holding the source's
    payload; no block is named by a record of the destination and by a record
    of the source; and when the payload blocks of one of the two tuples are
    changed or freed, every value read from the other is what it was. *)
Theorem Copy_allocates_fresh_payloads (st st' : State) (tuple : Tuple.t) (s : Schema)
    (source : N) (pool : option N) :
  bound st tuple s →
  schema_layout s →
  buffers_apart (Tuple.tuple_data tuple) source (tuple_length s) →
  (∀ c, c ∈ columns s → column_is_inlined c = false →
        handle_valid (memory st) (tuple_at tuple source) c) →
  Tuple.Copy StubValue.ops tuple source pool st = Ok (tt, st') →
  (∀ V : Value.Interface,
     Tuple.Copy V tuple source pool st = on_memory (copy_memory V tuple s source pool) st) ∧
  copies_apart (memory st) (memory st') pool tuple s source ∧
  schemas st' = schemas st.
Proof.
  intros Hb Hlay Hap Hsrc Hrun. split; [intros V; by apply Copy_bound|].
  pose proof (on_memory_schemas _ _ _ _
                (eq_trans (eq_sym (Copy_bound StubValue.ops st tuple s source pool Hb)) Hrun))
    as Hsch.
  split; [|done].
  rewrite (Copy_bound _ _ _ _ _ _ Hb) in Hrun. unfold on_memory in Hrun.
  destruct (copy_memory StubValue.ops tuple s source pool (memory st)) as [[[] m']|e] eqn:Hcp;
    [|done].
  inversion Hrun; subst st'. simpl.
  by apply (copy_memory_apart tuple s source pool (memory st) m').
Qed.

Lemma Copy_allocates_fresh_payloads_witness :
  copies_apart (memory Example.st_peloton)
    (memory (Example.state_after
               (Tuple.Copy StubValue.ops Example.other 256 (Some Example.pool))
               Example.st_peloton))
    (Some Example.pool) Example.other Example.schema 256.
Proof.
  apply (Copy_allocates_fresh_payloads Example.st_peloton
           (Example.state_after (Tuple.Copy StubValue.ops Example.other 256 (Some Example.pool))
              Example.st_peloton)
           Example.other Example.schema 256 (Some Example.pool)).
  - by apply Example_bound_other.
  - exact Example_layout.
  - unfold buffers_apart. simpl. lia.
  - exact Example_handle_valid.
  - by vm_compute.
Defined.

(** ** The storage format round trip *)

Lemma encoded_fold (V : Value.Interface) m tuple (l : list ColumnInfo) :
  appends_only V →
  ∀ output,
    fold_left (fun out v => Value.SerializeTo V v out) (map (column_value V m tuple) l) output
    = output ++ concat (map (fun c => Value.SerializeTo V (column_value V m tuple c) []) l).
Proof.
  intros Happ. induction l as [|c l IH]; intros output; cbn [map fold_left concat].
  - by rewrite app_nil_r.
  - by rewrite IH, Happ, <- app_assoc.
Qed.

Lemma ExampleInlined_bound_tuple st :
  schemas st = schemas ExampleInlined.empty_state →
  bound st ExampleInlined.tuple ExampleInlined.schema.
Proof. intros H. unfold bound. rewrite H. by vm_compute. Qed.

Lemma ExampleInlined_bound_other st :
  schemas st = schemas ExampleInlined.empty_state →
  bound st ExampleInlined.other ExampleInlined.schema.
Proof. intros H. unfold bound. rewrite H. by vm_compute. Qed.

Lemma ExampleInlined_layout : schema_layout ExampleInlined.schema.
Proof.
  split.
  - intros i j c c' Hij Hi Hj.
    destruct i as [|[|i]], j as [|[|j]]; try done; simpl in Hi, Hj;
      inversion Hi; inversion Hj; subst; unfold slots_apart, stub_slot_size; simpl; lia.
  - intros c Hc. apply list_elem_of_In in Hc. simpl in Hc.
    destruct Hc as [<-|[<-|[]]]; unfold stub_slot_size; simpl; lia.
  - intros c Hc. apply list_elem_of_In in Hc. simpl in Hc.
    destruct Hc as [<-|[<-|[]]]; done.
Qed.

Lemma ExampleInlined_valid :
  Forall (column_valid (memory ExampleInlined.st_peloton) ExampleInlined.tuple)
    (columns ExampleInlined.schema).
Proof.
  apply Forall_cons. split; [exact I|].
  apply Forall_cons. split; [|constructor].
  split; [done|]. split; [done|]. right. by vm_compute.
Qed.

Lemma SerializeTo_tuple (V : Value.Interface) st tuple s :
  bound st tuple s → appends_only V →
  ∃ header,
    length header = 4%nat ∧
    Tuple.SerializeTo V tuple [] st
    = Ok (header ++ encoded_columns V (memory st) tuple s, st).
Proof.
  intros Hb Happ. rewrite (SerializeTo_bound _ _ _ _ _ Hb). cbv zeta.
  unfold column_values. rewrite (encoded_fold _ _ _ _ Happ).
  fold (encoded_columns V (memory st) tuple s).
  eexists (be_bytes 4 _). split; [apply be_bytes_length|].
  unfold WriteIntAt, Position.
  change (Z.to_nat (Z.of_nat (length (@nil byte)))) with 0%nat.
  rewrite take_0, app_nil_l. change (0 + 4)%nat with (length (replicate 4 Byte.x00)).
  by rewrite drop_app_length.
Qed.

Section StorageContract.

Context (V : Value.Interface) (slot : ColumnInfo -> N)
  (valid : Mem -> Tuple.t -> ColumnInfo -> Prop) (ready : Mem -> nat -> Prop).
Hypothesis Hcontract : storage_contract V slot valid ready.

Lemma pairwise_for_from (l : list ColumnInfo) :
  (∀ i j c c', i ≠ j → l !! i = Some c → l !! j = Some c' → apart_for slot c c') →
  pairwise_for slot l.
Proof.
  induction l as [|c l IH]; intros H; simpl; [done|]. split.
  - apply Forall_forall. intros c' Hc'. apply list_elem_of_lookup in Hc' as [j Hj].
    by apply (H 0%nat (S j)).
  - apply IH. intros i j c1 c2 Hij H1 H2. apply (H (S i) (S j)); [lia|done..].
Qed.

Lemma slot_outside_for tuple c (l : list ColumnInfo) x :
  Forall (apart_for slot c) l →
  (column_ptr tuple c <= x < column_ptr tuple c + slot c)%N →
  outside_for slot tuple l x.
Proof.
  intros Hap Hx. unfold outside_for. eapply Forall_impl; [exact Hap|].
  intros c' Hc'. unfold apart_for, column_ptr in *. simpl in *. lia.
Qed.

(** The columns of a row, one after the other: each call finds the bytes of
    its column at the head of the input, and no later call disturbs the slot
    an earlier one filled. *)
Lemma contract_columns m0 tuple tuple' pool (l : list ColumnInfo) :
  ∀ m rest k,
    pairwise_for slot l →
    Forall (valid m0 tuple) l →
    ready m (k + length (List.filter (fun c => negb (column_is_inlined c)) l)) →
    ∃ counts m',
      deserialize_columns V tuple' (Some pool) l
        (concat (map (fun c => Value.SerializeTo V (column_value V m0 tuple c) []) l) ++ rest) m
      = Ok ((counts, rest), m') ∧
      Forall (fun c => value_equal V (column_value V m' tuple' c) (column_value V m0 tuple c) ∧
                       value_equal V (column_value V m0 tuple c) (column_value V m' tuple' c) ∧
                       valid m' tuple' c) l ∧
      (∀ x, outside_for slot tuple' l x → load_byte m x = load_byte m' x) ∧
      heap_extends m m' ∧
      ready m' k.
Proof.
  induction l as [|c l IH]; intros m rest k Hpw Hval Hready.
  - exists [], m. cbn [List.filter length] in Hready. rewrite Nat.add_0_r in Hready.
    split_and!; [done|constructor|done|apply heap_extends_refl|done].
  - destruct Hpw as [Hc Hpw]. apply Forall_cons in Hval as [Hvc Hval].
    cbn [map concat deserialize_columns]. rewrite <- app_assoc.
    set (tail := concat (map (fun c => Value.SerializeTo V (column_value V m0 tuple c) []) l)).
    set (k' := (k + length (List.filter (fun c => negb (column_is_inlined c)) l))%nat).
    assert (Hready' : ready m (if column_is_inlined c then k' else S k')).
    { cbn [List.filter] in Hready. unfold k'.
      destruct (column_is_inlined c); cbn [negb length] in Hready; [done|].
      by rewrite Nat.add_succ_r in Hready. }
    destruct (contract_store V slot valid ready Hcontract m0 tuple c tuple' pool
                (tail ++ rest) m k' Hvc Hready')
      as (n & m1 & Hrun & He1 & He2 & Hvalid1 & Hb1 & Hh1 & Hr1).
    rewrite (bind_Ok _ _ _ _ _ Hrun). cbn [snd fst].
    destruct (IH m1 rest k Hpw Hval Hr1) as (counts & m' & Hrun' & Hall & Hb' & Hh' & Hr').
    rewrite (bind_Ok _ _ _ _ _ Hrun'). exists (n :: counts), m'.
    split; [done|]. split; [|split; [|split; [by eapply heap_extends_trans|done]]].
    + constructor; [|done].
      destruct (contract_read V slot valid ready Hcontract m1 m' tuple' c Hvalid1)
        as [Hsame Hvalid']; [|done|].
      * intros x Hx. apply Hb'. by apply (slot_outside_for tuple' c l x Hc).
      * rewrite Hsame. done.
    + intros x Hx. apply Forall_cons in Hx as [Hxc Hxl].
      rewrite (Hb1 x Hxc). by apply Hb'.
Qed.

Lemma contract_round_trip st tuple tuple' s pool :
  bound st tuple s → bound st tuple' s →
  layout_for slot s →
  buffers_apart (Tuple.tuple_data tuple) (Tuple.tuple_data tuple') (tuple_length s) →
  Forall (valid (memory st) tuple) (columns s) →
  ready (memory st) (SchemaOps.GetUninlinedColumnCount s) →
  ∃ bytes st',
    Tuple.SerializeTo V tuple [] st = Ok (bytes, st) ∧
    Tuple.DeserializeFrom V tuple' bytes (Some pool) st = Ok ([], st') ∧
    Tuple.EqualsNoSchemaCheck V tuple' tuple st' = Ok (true, st') ∧
    Tuple.EqualsNoSchemaCheck V tuple tuple' st' = Ok (true, st').
Proof.
  intros Hb Hb' Hlay Hap Hval Hready.
  destruct (SerializeTo_tuple V st tuple s Hb (contract_appends V slot valid ready Hcontract))
    as (header & Hlen & Hser).
  assert (Hready0 : ready (memory st)
            (0 + length (List.filter (fun c => negb (column_is_inlined c)) (columns s)))).
  { unfold SchemaOps.GetUninlinedColumnCount in Hready.
    by rewrite (Forall2_length _ _ _ (uninlined_columns_infos s)) in Hready. }
  destruct (contract_columns (memory st) tuple tuple' pool (columns s) (memory st) [] 0%nat
              (pairwise_for_from _ (layout_for_apart slot s Hlay)) Hval Hready0)
    as (counts & m' & Hrun & Hall & Hbytes & Hheap & _).
  rewrite app_nil_r in Hrun.
  exists (header ++ encoded_columns V (memory st) tuple s),
    {| memory := m'; schemas := schemas st |}.
  split; [done|]. split.
  { rewrite (DeserializeFrom_bound _ _ _ _ Hb'). unfold on_memory.
    rewrite bind_lift, (ReadInt_header _ _ Hlen). cbn [snd].
    rewrite deserialize_columns_vfold. unfold encoded_columns. by rewrite Hrun. }
  set (st' := {| memory := m'; schemas := schemas st |}).
  assert (Hbs : bound st' tuple s) by (by apply (bound_schemas st)).
  assert (Hbs' : bound st' tuple' s) by (by apply (bound_schemas st)).
  rewrite (EqualsNoSchemaCheck_bound _ _ _ _ _ Hbs' Hbs),
    (EqualsNoSchemaCheck_bound _ _ _ _ _ Hbs Hbs').
  assert (Hsrc : ∀ c, c ∈ columns s →
            column_value V m' tuple c = column_value V (memory st) tuple c).
  { intros c Hc. rewrite Forall_forall in Hval.
    destruct (contract_read V slot valid ready Hcontract (memory st) m' tuple c (Hval c Hc))
      as [Hsame _]; [|done..].
    intros x Hx. apply Hbytes. apply Forall_forall. intros c' Hc'.
    pose proof (layout_for_inside slot s Hlay c Hc).
    pose proof (layout_for_inside slot s Hlay c' Hc').
    unfold buffers_apart, column_ptr in *. lia. }
  rewrite Forall_forall in Hall.
  assert (E1 : columns_equal V m' tuple' tuple s = true).
  { unfold columns_equal. apply forallb_forall. intros c Hc%list_elem_of_In.
    unfold column_equal. rewrite (Hsrc c Hc). destruct (Hall c Hc) as (He & _ & _).
    unfold value_equal in He. by rewrite He. }
  assert (E2 : columns_equal V m' tuple tuple' s = true).
  { unfold columns_equal. apply forallb_forall. intros c Hc%list_elem_of_In.
    unfold column_equal. rewrite (Hsrc c Hc). destruct (Hall c Hc) as (_ & He & _).
    unfold value_equal in He. by rewrite He. }
  cbn [memory st']. by rewrite E1, E2.
Qed.

End StorageContract.

(** *** The reference [Value] meets the contract *)

Lemma fresh_list_gt (l : list N) x :
  x ∈ l → (x < foldr (N.max ∘ N.succ) 0 l)%N.
Proof. induction 1; simpl; lia. Qed.

Lemma fresh_list_le (l : list N) b :
  (∀ x, x ∈ l → (x < b)%N) → (foldr (N.max ∘ N.succ) 0 l <= b)%N.
Proof.
  induction l as [|y l IH]; intros H; simpl; [lia|].
  pose proof (H y ltac:(by left)). pose proof (IH (fun x Hx => H x ltac:(by right))). lia.
Qed.

Lemma fresh_gt (X : gset N) x : x ∈ X → (x < fresh X)%N.
Proof. intros Hx. apply fresh_list_gt. by apply elem_of_elements. Qed.

Lemma fresh_le (X : gset N) b : (∀ x, x ∈ X → (x < b)%N) → (fresh X <= b)%N.
Proof. intros H. apply fresh_list_le. intros x Hx. by apply H, elem_of_elements. Qed.

Lemma pool_room_heap m m' k :
  mem_heap m' = mem_heap m → pool_room m k → pool_room m' k.
Proof. unfold pool_room, StubValue.fresh_handle. by intros ->. Qed.

Lemma pool_room_served m k : pool_room m (S k) → (StubValue.fresh_handle m < 2 ^ 64)%N.
Proof. unfold pool_room. lia. Qed.

Lemma pool_room_less m k : pool_room m (S k) → pool_room m k.
Proof. unfold pool_room. lia. Qed.

Lemma pool_room_allocated m m' k b :
  mem_heap m' = <[StubValue.fresh_handle m := b]> (mem_heap m) →
  pool_room m (S k) → pool_room m' k.
Proof.
  unfold pool_room. intros Hheap Hroom.
  assert (StubValue.fresh_handle m' <= StubValue.fresh_handle m + 1)%N; [|lia].
  unfold StubValue.fresh_handle at 1. apply fresh_le. intros x Hx. rewrite Hheap in Hx.
  apply elem_of_union in Hx as [Hx|Hx].
  - apply elem_of_singleton in Hx as ->. lia.
  - rewrite dom_insert in Hx. apply elem_of_union in Hx as [Hx|Hx].
    + apply elem_of_singleton in Hx as ->. lia.
    + assert (x < StubValue.fresh_handle m)%N; [|lia].
      apply fresh_gt, elem_of_union. by right.
Qed.

(** What a call of the reference [Value::DeserializeFrom] does to the heap,
    and that it is served when the pool has a handle left. *)
Lemma store_object_heap o ptr is_inlined len pool m m' :
  StubValue.store_object o ptr is_inlined len (Some pool) m = Ok (tt, m') →
  mem_heap m' = mem_heap m ∨
  (is_inlined = false ∧ ∃ b, mem_heap m' = <[StubValue.fresh_handle m := b]> (mem_heap m)).
Proof.
  unfold StubValue.store_object. destruct is_inlined.
  - intros [= <-]. by left.
  - destruct o as [p|].
    + unfold bind, StubValue.allocate.
      destruct (StubValue.fresh_handle m <? 2 ^ 64)%N; [|done].
      intros [= <-]. right. split; [done|]. by eexists.
    + intros [= <-]. by left.
Qed.

Lemma store_object_served o ptr is_inlined len pool m :
  (StubValue.fresh_handle m < 2 ^ 64)%N →
  StubValue.store_object o ptr is_inlined len (Some pool) m ≠ Err AllocationFailure.
Proof.
  intros Hroom. unfold StubValue.store_object. destruct is_inlined; [done|].
  destruct o as [p|]; [|done]. unfold bind, StubValue.allocate.
  apply N.ltb_lt in Hroom. by rewrite Hroom.
Qed.

Lemma deserialize_column_heap tuple pool c input m r m' :
  deserialize_column StubValue.ops tuple (Some pool) c input m = Ok (r, m') →
  mem_heap m' = mem_heap m ∨
  (column_is_inlined c = false ∧
   ∃ b, mem_heap m' = <[StubValue.fresh_handle m := b]> (mem_heap m)).
Proof.
  unfold deserialize_column. cbn [Value.DeserializeFrom StubValue.ops].
  unfold StubValue.DeserializeFrom.
  destruct (StubValue.width (column_type c)) as [w|].
  - destruct (decide (w <= length input)%nat); [|done]. intros [= _ <-]. by left.
  - destruct (StubValue.is_object (column_type c)); [|done].
    rewrite bind_lift. destruct (ReadInt input) as [[l rest]|]; [|done].
    destruct (l =? -1).
    + unfold bind.
      destruct (StubValue.store_object None _ _ _ _ m) as [[[] m1]|] eqn:Hst; [|done].
      intros [= _ <-]. by apply store_object_heap in Hst.
    + destruct ((0 <=? l) && (l <=? Z.of_nat (length rest))); [|done]. unfold bind.
      destruct (StubValue.store_object (Some _) _ _ _ _ m) as [[[] m1]|] eqn:Hst; [|done].
      intros [= _ <-]. by apply store_object_heap in Hst.
Qed.

Lemma ReadInt_Err input e : ReadInt input = Err e → e = PreconditionViolation.
Proof. unfold ReadInt. destruct (decide _); [done|]. by intros [= <-]. Qed.

Lemma deserialize_column_served tuple pool c input m :
  (StubValue.fresh_handle m < 2 ^ 64)%N →
  deserialize_column StubValue.ops tuple (Some pool) c input m ≠ Err AllocationFailure.
Proof.
  intros Hroom. unfold deserialize_column. cbn [Value.DeserializeFrom StubValue.ops].
  unfold StubValue.DeserializeFrom.
  destruct (StubValue.width (column_type c)) as [w|].
  - by destruct (decide (w <= length input)%nat).
  - destruct (StubValue.is_object (column_type c)); [|done].
    rewrite bind_lift. destruct (ReadInt input) as [[l rest]|e] eqn:Hread.
    2:{ by rewrite (ReadInt_Err _ _ Hread). }
    destruct (l =? -1).
    + unfold bind.
      pose proof (store_object_served None (column_ptr tuple c) (column_is_inlined c)
                    (fixed_length c) pool m Hroom).
      by destruct (StubValue.store_object None _ _ _ _ m) as [[[] m1]|[]].
    + destruct ((0 <=? l) && (l <=? Z.of_nat (length rest))); [|done]. unfold bind.
      pose proof (store_object_served (Some (take (Z.to_nat l) rest)) (column_ptr tuple c)
                    (column_is_inlined c) (fixed_length c) pool m Hroom).
      by destruct (StubValue.store_object (Some _) _ _ _ _ m) as [[[] m1]|[]].
Qed.

Lemma StubValue_value_equal_refl (v : StubValue.t) : value_equal StubValue.ops v v.
Proof. apply StubValue_Compare_zero, StubValue_Compare_refl. Qed.

Lemma StubValue_storage_contract :
  storage_contract StubValue.ops stub_slot_size column_valid pool_room.
Proof.
  split.
  - exact StubValue_SerializeTo_append.
  - exact column_valid_frame.
  - intros m0 tuple c tuple' pool rest m k Hvalid Hready.
    cbn [Value.SerializeTo StubValue.ops].
    destruct (deserialize_column_roundtrip m0 tuple tuple' c pool rest m Hvalid)
      as [[Hun Hfail]|(n & m' & Hrun & Hv & Hvalid' & Hb & Hh)].
    { exfalso. rewrite Hun in Hready.
      exact (deserialize_column_served tuple' pool c _ m (pool_room_served m k Hready) Hfail). }
    exists n, m'. rewrite Hv.
    split_and!; [done|apply StubValue_value_equal_refl..|done|done|done|].
    destruct (deserialize_column_heap _ _ _ _ _ _ _ Hrun) as [Hheap|[Hun (b & Hheap)]].
    + apply (pool_room_heap m m' k Hheap).
      destruct (column_is_inlined c); [done | by apply pool_room_less].
    + rewrite Hun in Hready. by apply (pool_room_allocated m m' k b).
Qed.

Lemma schema_layout_for s : schema_layout s → layout_for stub_slot_size s.
Proof. intros [Hap Hin _]. by split. Qed.

(** C2. A tuple written with [SerializeTo] and read back with
    [DeserializeFrom] into a tuple over the same schema bound to another
    buffer gives a tuple that is [EqualsNoSchemaCheck]-equal to the first, in
    both directions, and the whole of the bytes is consumed: both calls
    return.  This holds for every schema, with inlined columns only or with
    inlined and uninlined columns, of whatever types, and for every [Value]
    that meets the contract of the storage format column by column
    ([storage_contract]): the columns of the first tuple hold values, the slots
    of the columns do not overlap and lie in the fixed-size region, the two
    buffers do not overlap, and the pool can serve as many blocks as the schema
    has uninlined columns.  The reference [Value] meets the contract. *)
Theorem storage_round_trip (V : Value.Interface) (slot : ColumnInfo -> N)
    (valid : Mem -> Tuple.t -> ColumnInfo -> Prop) (ready : Mem -> nat -> Prop)
    (st : State) (tuple tuple' : Tuple.t) (s : Schema) (pool : N) :
  storage_contract V slot valid ready →
  bound st tuple s →
  bound st tuple' s →
  layout_for slot s →
  buffers_apart (Tuple.tuple_data tuple) (Tuple.tuple_data tuple') (tuple_length s) →
  Forall (valid (memory st) tuple) (columns s) →
  ready (memory st) (SchemaOps.GetUninlinedColumnCount s) →
  ∃ bytes st',
    Tuple.SerializeTo V tuple [] st = Ok (bytes, st) ∧
    Tuple.DeserializeFrom V tuple' bytes (Some pool) st = Ok ([], st') ∧
    Tuple.EqualsNoSchemaCheck V tuple' tuple st' = Ok (true, st') ∧
    Tuple.EqualsNoSchemaCheck V tuple tuple' st' = Ok (true, st').
Proof.
  intros Hcontract Hb Hb' Hlay Hap Hval Hready.
  exact (contract_round_trip V slot valid ready Hcontract st tuple tuple' s pool
           Hb Hb' Hlay Hap Hval Hready).
Qed.

Lemma storage_round_trip_witness :
  (∃ bytes st',
     Tuple.SerializeTo StubValue.ops Example.tuple [] Example.st_peloton
     = Ok (bytes, Example.st_peloton) ∧
     Tuple.DeserializeFrom StubValue.ops Example.other bytes (Some Example.pool)
       Example.st_peloton = Ok ([], st') ∧
     Tuple.EqualsNoSchemaCheck StubValue.ops Example.other Example.tuple st' = Ok (true, st') ∧
     Tuple.EqualsNoSchemaCheck StubValue.ops Example.tuple Example.other st' = Ok (true, st')) ∧
  (∃ bytes st',
     Tuple.SerializeTo StubValue.ops ExampleInlined.tuple [] ExampleInlined.st_peloton
     = Ok (bytes, ExampleInlined.st_peloton) ∧
     Tuple.DeserializeFrom StubValue.ops ExampleInlined.other bytes (Some Example.pool)
       ExampleInlined.st_peloton = Ok ([], st') ∧
     Tuple.EqualsNoSchemaCheck StubValue.ops ExampleInlined.other ExampleInlined.tuple st'
     = Ok (true, st') ∧
     Tuple.EqualsNoSchemaCheck StubValue.ops ExampleInlined.tuple ExampleInlined.other st'
     = Ok (true, st')).
Proof.
  split.
  - apply (storage_round_trip StubValue.ops stub_slot_size column_valid pool_room
             Example.st_peloton Example.tuple Example.other Example.schema Example.pool).
    + exact StubValue_storage_contract.
    + by apply Example_bound_tuple.
    + by apply Example_bound_other.
    + exact (schema_layout_for _ Example_layout).
    + unfold buffers_apart. simpl. lia.
    + exact Example_valid.
    + by vm_compute.
  - apply (storage_round_trip StubValue.ops stub_slot_size column_valid pool_room
             ExampleInlined.st_peloton ExampleInlined.tuple ExampleInlined.other
             ExampleInlined.schema Example.pool).
    + exact StubValue_storage_contract.
    + by apply ExampleInlined_bound_tuple.
    + by apply ExampleInlined_bound_other.
    + exact (schema_layout_for _ ExampleInlined_layout).
    + unfold buffers_apart. simpl. lia.
    + exact ExampleInlined_valid.
    + by vm_compute.
Defined.


(** * Further properties of the code *)

(** ** Size accounting *)

Lemma uninlined_size_fold (V : Value.Interface) m tuple (l : list ColumnInfo) :
  ∀ bytes, 0 <= bytes < UINT64_MOD →
    fold_result (uninlined_size_step V m tuple) l bytes
    = Ok (to_size_t (bytes + sum_Z (map (uninlined_column_bytes V m tuple) l))).
Proof.
  induction l as [|c l IH]; intros bytes Hr; simpl.
  - unfold to_size_t. rewrite Z.add_0_r, Z.mod_small; done.
  - unfold uninlined_size_step at 1, uninlined_column_bytes at 1.
    destruct (is_variable_length (column_type c) && negb (column_is_inlined c)); simpl;
      [|by rewrite IH].
    destruct (Value.IsNull V _); simpl; [by rewrite IH|].
    rewrite size_t_add_to_size_t, IH by apply size_t_add_range.
    by rewrite size_t_add_continue.
Qed.

Lemma all_inlined_no_uninlined_bytes (V : Value.Interface) m tuple (l : list ColumnInfo) :
  forallb column_is_inlined l = true →
  sum_Z (map (uninlined_column_bytes V m tuple) l) = 0.
Proof.
  induction l as [|c l IH]; simpl; [done|].
  intros [Hc Hl]%andb_prop. rewrite (IH Hl). unfold uninlined_column_bytes.
  rewrite Hc. simpl. by rewrite andb_false_r.
Qed.

Lemma GetUninlinedMemorySize_bound (V : Value.Interface) st tuple s :
  bound st tuple s →
  Tuple.GetUninlinedMemorySize V tuple st
  = Ok (to_size_t (uninlined_size_sum V (memory st) tuple s), st).
Proof.
  intros Hb. unfold Tuple.GetUninlinedMemorySize, Tuple.GetColumnCount.
  rewrite (bind_Ok _ _ _ _ _ (schema_GetColumnCount_bound _ _ _ Hb)).
  rewrite (bind_unchanged _ _ _ _ (schema_call_bound _ _ _ _ Hb)).
  destruct (SchemaOps.IsTupleInlined s) eqn:Hin; simpl.
  - unfold uninlined_size_sum. unfold SchemaOps.IsTupleInlined in Hin.
    by rewrite all_inlined_no_uninlined_bytes.
  - rewrite (for_loop_fold _ (uninlined_size_step V (memory st) tuple)).
    + by rewrite uninlined_size_fold by (split; [done | apply UINT64_MOD_pos]).
    + intros j c bytes Hc. unfold bind, Tuple.GetType.
      rewrite (schema_GetType_bound _ _ _ _ _ Hb Hc). unfold uninlined_size_step.
      destruct (column_type c) eqn:Hty; simpl; try done.
      all: rewrite ?(schema_GetType_bound _ _ _ _ _ Hb Hc), ?Hty; simpl; try done.
      all: rewrite (schema_IsInlined_bound _ _ _ _ _ Hb Hc);
        destruct (column_is_inlined c); simpl; [done|];
        rewrite (GetValue_bound _ _ _ _ _ Hb Hc);
        destruct (Value.IsNull V _); simpl; [done|];
        by rewrite (GetValue_bound _ _ _ _ _ Hb Hc).
Qed.

Lemma find_unknown_none (l : list ColumnInfo) :
  Forall (fun c => export_type_known (column_type c) = true) l →
  List.find (fun c => negb (export_type_known (column_type c))) l = None.
Proof. induction 1 as [|c l Hc _ IH]; simpl; [done|]. by rewrite Hc. Qed.

Lemma export_bytes_split (V : Value.Interface) m tuple (l : list ColumnInfo) :
  Forall (fun c => export_type_known (column_type c) = true) l →
  Forall (fun c => is_variable_length (column_type c) = true → column_is_inlined c = false) l →
  sum_Z (map (export_column_bytes V m tuple) l)
  = sum_Z (map (fixed_export_bytes V) l) + sum_Z (map (uninlined_column_bytes V m tuple) l).
Proof.
  induction 1 as [|c l Hk _ IH]; intros Hvar; simpl; [done|].
  apply Forall_cons in Hvar as [Hc Hl]. rewrite (IH Hl).
  assert (export_column_bytes V m tuple c
          = fixed_export_bytes V c + uninlined_column_bytes V m tuple c) as ->; [|lia].
  unfold export_column_bytes, fixed_export_bytes, uninlined_column_bytes.
  destruct (column_type c); simpl in *; try lia; try done.
  all: rewrite Hc by done; simpl; lia.
Qed.

(** X1. [GetUninlinedMemorySize()] on a bound tuple always returns, and
    leaves the state as it is.  The result is the sum, in [size_t] arithmetic,
    of 4 plus the payload length over the columns that are VARCHAR or
    VARBINARY, not inlined, and hold a non-null value; every other column,
    one of an unlisted type included, counts for nothing.  It is the plain sum
    when that fits a [size_t], and 0 for a schema with inlined columns only. *)
Theorem GetUninlinedMemorySize_sum (V : Value.Interface) (st : State) (tuple : Tuple.t)
    (s : Schema) :
  bound st tuple s →
  Tuple.GetUninlinedMemorySize V tuple st
  = Ok (uninlined_size_sum V (memory st) tuple s mod 2 ^ 64, st) ∧
  (0 <= uninlined_size_sum V (memory st) tuple s < 2 ^ 64 →
   Tuple.GetUninlinedMemorySize V tuple st
   = Ok (uninlined_size_sum V (memory st) tuple s, st)) ∧
  (SchemaOps.IsTupleInlined s = true →
   Tuple.GetUninlinedMemorySize V tuple st = Ok (0, st)).
Proof.
  intros Hb. rewrite (GetUninlinedMemorySize_bound _ _ _ _ Hb).
  unfold to_size_t, UINT64_MOD. split_and!; [done| |].
  - intros Hr. by rewrite Z.mod_small.
  - intros Hin. unfold uninlined_size_sum. unfold SchemaOps.IsTupleInlined in Hin.
    by rewrite all_inlined_no_uninlined_bytes.
Qed.

Lemma GetUninlinedMemorySize_sum_witness :
  Tuple.GetUninlinedMemorySize StubValue.ops Example.tuple Example.st_pair
  = Ok (11, Example.st_pair).
Proof.
  destruct (GetUninlinedMemorySize_sum StubValue.ops Example.st_pair Example.tuple
              Example.schema) as (_ & Hsum & _).
  - by apply Example_bound_tuple.
  - rewrite Hsum; by vm_compute.
Defined.

(** X2. Over a schema whose columns all have one of the nine listed types
    and whose VARCHAR and VARBINARY columns are all stored out of line,
    [ExportSerializationSize()] is, in [size_t] arithmetic, the fixed export
    bytes of the schema (8 for each fixed numeric column, the decimal width
    for each decimal column) plus what [GetUninlinedMemorySize()] returns. *)
Theorem ExportSerializationSize_fixed_plus_uninlined (V : Value.Interface) (st : State)
    (tuple : Tuple.t) (s : Schema) :
  bound st tuple s →
  Forall (fun c => export_type_known (column_type c) = true) (columns s) →
  Forall (fun c => is_variable_length (column_type c) = true → column_is_inlined c = false)
         (columns s) →
  ∃ uninlined,
    Tuple.GetUninlinedMemorySize V tuple st = Ok (uninlined, st) ∧
    Tuple.ExportSerializationSize V tuple st
    = Ok ((fixed_export_sum V s + uninlined) mod 2 ^ 64, st).
Proof.
  intros Hb Hknown Hvar. eexists. split; [by apply GetUninlinedMemorySize_bound|].
  rewrite (ExportSerializationSize_bound _ _ _ _ Hb).
  unfold export_size_spec, first_unknown_type.
  rewrite (find_unknown_none _ Hknown). simpl. unfold export_size_sum, uninlined_size_sum, fixed_export_sum.
  rewrite (export_bytes_split _ _ _ _ Hknown Hvar).
  unfold to_size_t, UINT64_MOD. by rewrite Zplus_mod_idemp_r.
Qed.

Lemma ExportSerializationSize_fixed_plus_uninlined_witness :
  ∃ uninlined,
    Tuple.GetUninlinedMemorySize StubValue.ops Example.tuple Example.st_pair
    = Ok (uninlined, Example.st_pair) ∧
    Tuple.ExportSerializationSize StubValue.ops Example.tuple Example.st_pair
    = Ok ((fixed_export_sum StubValue.ops Example.schema + uninlined) mod 2 ^ 64,
          Example.st_pair).
Proof.
  apply (ExportSerializationSize_fixed_plus_uninlined StubValue.ops Example.st_pair
           Example.tuple Example.schema).
  - by apply Example_bound_tuple.
  - repeat constructor.
  - apply Forall_cons. split; [done|]. apply Forall_cons. split; [done|]. by apply Forall_nil.
Defined.

(** ** The storage format *)

Lemma be_bytes_4_0 : be_bytes 4 0 = replicate 4 Byte.x00.
Proof. by vm_compute. Qed.

Lemma SerializeWithHeaderTo_bound (V : Value.Interface) st tuple s output :
  bound st tuple s →
  Tuple.SerializeWithHeaderTo V tuple output st = Tuple.SerializeTo V tuple output st.
Proof.
  intros Hb. unfold Tuple.SerializeWithHeaderTo, Tuple.SerializeTo.
  rewrite (asserts_bound _ _ _ Hb). unfold ReserveBytes, WriteInt.
  by rewrite be_bytes_4_0.
Qed.

(** X3. On a bound tuple [SerializeWithHeaderTo] and [SerializeTo] write the
    same bytes: four bytes kept for the size, the columns in schema order, and
    the size written back over the four bytes. *)
Theorem SerializeWithHeaderTo_as_SerializeTo (V : Value.Interface) (st : State)
    (tuple : Tuple.t) (s : Schema) (output : list byte) :
  bound st tuple s →
  Tuple.SerializeWithHeaderTo V tuple output st = Tuple.SerializeTo V tuple output st.
Proof. apply SerializeWithHeaderTo_bound. Qed.

Lemma SerializeWithHeaderTo_as_SerializeTo_witness :
  Tuple.SerializeWithHeaderTo StubValue.ops Example.tuple [Byte.x01] Example.st_pair
  = Tuple.SerializeTo StubValue.ops Example.tuple [Byte.x01] Example.st_pair.
Proof.
  apply (SerializeWithHeaderTo_as_SerializeTo StubValue.ops Example.st_pair Example.tuple
           Example.schema).
  by apply Example_bound_tuple.
Defined.

Lemma int32_cast_small n : 0 <= n < 2 ^ 31 → int32_cast (to_size_t n) = n.
Proof.
  intros Hn. unfold int32_cast, to_size_t, UINT64_MOD, to_signed.
  rewrite (Z.mod_small n (2 ^ 64)) by lia. rewrite (Z.mod_small n (2 ^ 32)) by lia.
  change (8 * Z.of_nat 4 - 1) with 31.
  destruct (Z.ltb_spec n (2 ^ 31)); [done | lia].
Qed.

(** X4. When [Value::SerializeTo] only appends to the output, [SerializeTo]
    on a bound tuple leaves the bytes written before as they are and adds a
    4-byte big-endian size followed by the encodings of the columns in schema
    order.  When these take fewer than [2^31] bytes the size is their number:
    reading the added bytes back with [ReadInt] gives the length of what
    follows. *)
Theorem SerializeTo_framing (V : Value.Interface) (st : State) (tuple : Tuple.t) (s : Schema)
    (output : list byte) :
  bound st tuple s →
  appends_only V →
  ∃ size,
    Tuple.SerializeTo V tuple output st
    = Ok (output ++ be_bytes 4 size ++ encoded_columns V (memory st) tuple s, st) ∧
    (Z.of_nat (length (encoded_columns V (memory st) tuple s)) < 2 ^ 31 →
     size = Z.of_nat (length (encoded_columns V (memory st) tuple s)) ∧
     ReadInt (be_bytes 4 size ++ encoded_columns V (memory st) tuple s)
     = Ok (Z.of_nat (length (encoded_columns V (memory st) tuple s)),
           encoded_columns V (memory st) tuple s)).
Proof.
  intros Hb Happ. rewrite (SerializeTo_bound _ _ _ _ _ Hb). cbv zeta.
  unfold column_values. rewrite (encoded_fold _ _ _ _ Happ).
  fold (encoded_columns V (memory st) tuple s).
  set (payload := encoded_columns V (memory st) tuple s).
  exists (int32_cast (to_size_t (Z.of_nat (length payload)))). split.
  - unfold WriteIntAt, Position. rewrite Nat2Z.id.
    rewrite <- (app_assoc output). rewrite take_app_length, drop_app_add.
    change 4%nat with (length (replicate 4 Byte.x00)) at 3. rewrite drop_app_length.
    replace (Z.of_nat (length (output ++ replicate 4 Byte.x00 ++ payload))
             - Z.of_nat (length output) - 4) with (Z.of_nat (length payload)); [done|].
    rewrite !length_app, length_replicate. lia.
  - intros Hlen. rewrite int32_cast_small by lia. split; [done|].
    apply ReadInt_be_bytes, in_range_4_length. lia.
Qed.

Lemma SerializeTo_framing_witness :
  ∃ size,
    Tuple.SerializeTo StubValue.ops Example.tuple [Byte.x01] Example.st_pair
    = Ok ([Byte.x01] ++ be_bytes 4 size
          ++ encoded_columns StubValue.ops (memory Example.st_pair) Example.tuple Example.schema,
          Example.st_pair) ∧
    (Z.of_nat (length (encoded_columns StubValue.ops (memory Example.st_pair) Example.tuple
                         Example.schema)) < 2 ^ 31 →
     size = Z.of_nat (length (encoded_columns StubValue.ops (memory Example.st_pair)
                                Example.tuple Example.schema)) ∧
     ReadInt (be_bytes 4 size
              ++ encoded_columns StubValue.ops (memory Example.st_pair) Example.tuple
                   Example.schema)
     = Ok (Z.of_nat (length (encoded_columns StubValue.ops (memory Example.st_pair)
                               Example.tuple Example.schema)),
           encoded_columns StubValue.ops (memory Example.st_pair) Example.tuple
             Example.schema)).
Proof.
  apply (SerializeTo_framing StubValue.ops Example.st_pair Example.tuple Example.schema).
  - by apply Example_bound_tuple.
  - exact StubValue_SerializeTo_append.
Defined.

(** X5. [DeserializeFrom] and [DeserializeWithHeaderFrom] read the 4-byte
    size at the head of the input and make no use of it: two inputs that
    differ only in these four bytes give the same outcome, whatever the size
    says. *)
Theorem Deserialize_ignores_size (V : Value.Interface) (st : State) (tuple : Tuple.t)
    (header header' rest : list byte) (pool : option N) :
  length header = 4%nat → length header' = 4%nat →
  Tuple.DeserializeFrom V tuple (header ++ rest) pool st
  = Tuple.DeserializeFrom V tuple (header' ++ rest) pool st ∧
  Tuple.DeserializeWithHeaderFrom V tuple (header ++ rest) st
  = Tuple.DeserializeWithHeaderFrom V tuple (header' ++ rest) st.
Proof.
  intros H1 H2. unfold Tuple.DeserializeFrom, Tuple.DeserializeWithHeaderFrom, bind.
  destruct (assert _ st) as [[[] st1]|]; [|done].
  destruct (assert _ st1) as [[[] st2]|]; [|done].
  unfold lift at 1 3 4 6. by rewrite !(ReadInt_header _ _ H1), !(ReadInt_header _ _ H2).
Qed.

Lemma Deserialize_ignores_size_witness :
  Tuple.DeserializeFrom StubValue.ops Example.other
    (be_bytes 4 8 ++ be_bytes 4 42 ++ be_bytes 4 (-1)) (Some Example.pool) Example.st_null
  = Tuple.DeserializeFrom StubValue.ops Example.other
      (be_bytes 4 (-7) ++ be_bytes 4 42 ++ be_bytes 4 (-1)) (Some Example.pool) Example.st_null ∧
  Tuple.DeserializeWithHeaderFrom StubValue.ops Example.other
    (be_bytes 4 8 ++ be_bytes 4 42 ++ be_bytes 4 (-1)) Example.st_null
  = Tuple.DeserializeWithHeaderFrom StubValue.ops Example.other
      (be_bytes 4 (-7) ++ be_bytes 4 42 ++ be_bytes 4 (-1)) Example.st_null.
Proof.
  apply (Deserialize_ignores_size StubValue.ops Example.st_null Example.other
           (be_bytes 4 8) (be_bytes 4 (-7))); reflexivity.
Defined.

Lemma int64_add_0_4 : int64_add 0 4 = Ok 4.
Proof. by vm_compute. Qed.

(** X6. On a bound tuple [DeserializeWithHeaderFrom] does to the memory and to
    the input what [DeserializeFrom] does with the null pool.  Whenever the
    first returns, the second returns with the same memory and the same
    input left; and when [Value::DeserializeFrom] returns the number of bytes
    it consumed and the input is shorter than [2^63] bytes, the first returns
    whenever the second does. *)
Theorem DeserializeWithHeaderFrom_as_DeserializeFrom (V : Value.Interface) (st : State)
    (tuple : Tuple.t) (s : Schema) (input : list byte) :
  bound st tuple s →
  (∀ n input' st',
     Tuple.DeserializeWithHeaderFrom V tuple input st = Ok ((n, input'), st') →
     Tuple.DeserializeFrom V tuple input None st = Ok (input', st')) ∧
  (reports_consumption V → Z.of_nat (length input) <= INT64_MAX →
   ∀ input' st',
     Tuple.DeserializeFrom V tuple input None st = Ok (input', st') →
     ∃ n, Tuple.DeserializeWithHeaderFrom V tuple input st = Ok ((n, input'), st')).
Proof.
  intros Hb.
  rewrite (DeserializeWithHeaderFrom_bound V st tuple s Hb),
    (DeserializeFrom_bound V st tuple s Hb).
  unfold on_memory. rewrite !bind_lift.
  destruct (ReadInt input) as [[size input1]|e] eqn:Hread; [|by split].
  rewrite bind_lift, int64_add_0_4. cbn [snd].
  rewrite deserialize_columns_vfold. split.
  - intros n input' st' H.
    destruct (vfold _ _ _ _) as [[[total inp] m']|e] eqn:Hfold; [|done].
    apply header_fold_counts in Hfold as (counts & Hcols & _). rewrite Hcols.
    congruence.
  - intros Hrep Hlen input' st' H.
    destruct (deserialize_columns _ _ _ _ _ _) as [[[counts inp] m']|e] eqn:Hcols; [|done].
    apply ReadInt_consumes in Hread as (header & -> & Hheader).
    rewrite length_app in Hlen.
    rewrite (header_fold_total _ _ _ Hrep _ _ _ _ _ _ Hcols) by lia.
    injection H as <- <-. by eexists.
Qed.

Lemma DeserializeWithHeaderFrom_as_DeserializeFrom_witness :
  Tuple.DeserializeFrom StubValue.ops Example.other
    (be_bytes 4 8 ++ be_bytes 4 42 ++ be_bytes 4 (-1) ++ [Byte.x07]) None Example.st_null
  = Ok ([Byte.x07],
        Example.state_after
          (Tuple.DeserializeWithHeaderFrom StubValue.ops Example.other
             (be_bytes 4 8 ++ be_bytes 4 42 ++ be_bytes 4 (-1) ++ [Byte.x07]))
          Example.st_null).
Proof.
  destruct (DeserializeWithHeaderFrom_as_DeserializeFrom StubValue.ops Example.st_null
              Example.other Example.schema
              (be_bytes 4 8 ++ be_bytes 4 42 ++ be_bytes 4 (-1) ++ [Byte.x07])) as [H _].
  - by apply Example_bound_other.
  - apply (H 12). by vm_compute.
Defined.

(** ** Copy *)

(** X7. Over a schema with inlined columns only, [Copy(source, pool)] into a
    bound tuple whose buffer does not overlap the source is the raw copy and
    nothing else, whatever the pool (the null pool included) and whatever
    [Value] does: it returns; each of the first [GetLength()] bytes of the
    destination holds the byte of the source at the same offset; every byte
    outside the destination buffer, every payload block and every schema is
    as before. *)
Theorem Copy_inlined_is_memcpy (V : Value.Interface) (st : State) (tuple : Tuple.t)
    (s : Schema) (source : N) (pool : option N) :
  bound st tuple s →
  SchemaOps.IsTupleInlined s = true →
  buffers_apart (Tuple.tuple_data tuple) source (tuple_length s) →
  ∃ m',
    Tuple.Copy V tuple source pool st = Ok (tt, {| memory := m'; schemas := schemas st |}) ∧
    mem_heap m' = mem_heap (memory st) ∧
    (∀ i, (i < tuple_length s)%N →
          load_byte m' (Tuple.tuple_data tuple + i) = load_byte (memory st) (source + i)) ∧
    (∀ x, (x < Tuple.tuple_data tuple ∨ Tuple.tuple_data tuple + tuple_length s <= x)%N →
          load_byte m' x = load_byte (memory st) x).
Proof.
  intros Hb Hin _. rewrite (Copy_bound _ _ _ _ _ _ Hb). unfold copy_memory.
  rewrite (uninlined_infos_nil _ Hin). cbn [vfold].
  exists (memcpy (Tuple.tuple_data tuple) source (tuple_length s) (memory st)).
  split; [done|]. split; [apply memcpy_heap|]. split.
  - intros i Hi. by apply memcpy_inside.
  - intros x Hx. by apply memcpy_outside.
Qed.

Lemma Copy_inlined_is_memcpy_witness :
  ∃ m',
    Tuple.Copy StubValue.ops ExampleInlined.other 256 None ExampleInlined.st_peloton
    = Ok (tt, {| memory := m'; schemas := schemas ExampleInlined.st_peloton |}) ∧
    mem_heap m' = mem_heap (memory ExampleInlined.st_peloton) ∧
    (∀ i, (i < tuple_length ExampleInlined.schema)%N →
          load_byte m' (Tuple.tuple_data ExampleInlined.other + i)
          = load_byte (memory ExampleInlined.st_peloton) (256 + i)) ∧
    (∀ x, (x < Tuple.tuple_data ExampleInlined.other
           ∨ Tuple.tuple_data ExampleInlined.other + tuple_length ExampleInlined.schema <= x)%N →
          load_byte m' x = load_byte (memory ExampleInlined.st_peloton) x).
Proof.
  apply (Copy_inlined_is_memcpy StubValue.ops ExampleInlined.st_peloton ExampleInlined.other
           ExampleInlined.schema 256 None).
  - by apply ExampleInlined_bound_other.
  - reflexivity.
  - unfold buffers_apart. simpl. lia.
Defined.

(** An inlined slot read at another address with the same bytes gives the
    same value. *)
Lemma Deserialize_moved m m2 p p2 type :
  (∀ i, (i < stub_extent m p type true)%N → load_byte m2 (p2 + i) = load_byte m (p + i)) →
  StubValue.Deserialize m2 p2 type true = StubValue.Deserialize m p type true.
Proof.
  intros Hb.
  assert (Hbytes : ∀ k n, (N.of_nat (k + n) <= stub_extent m p type true)%N →
            load_bytes m2 (p2 + N.of_nat k) n = load_bytes m (p + N.of_nat k) n).
  { intros k n Hle. apply list_eq. intros i.
    destruct (decide (i < n)%nat) as [Hi|Hi].
    - rewrite !load_bytes_lookup by done. f_equal. rewrite <- !N.add_assoc. apply Hb. lia.
    - rewrite !lookup_ge_None_2; [done|rewrite load_bytes_length; lia..]. }
  unfold stub_extent in Hb, Hbytes. unfold StubValue.Deserialize.
  destruct (StubValue.width type) as [w|].
  - specialize (Hbytes 0%nat w). rewrite !N.add_0_r in Hbytes. rewrite Hbytes; [done|].
    simpl. lia.
  - destruct (StubValue.is_object type); [|done].
    assert (Hl : load_byte m2 p2 = load_byte m p).
    { specialize (Hb 0%N). rewrite !N.add_0_r in Hb. apply Hb.
      destruct (_ =? 255); lia. }
    rewrite Hl. destruct (Z.eqb_spec (Z_of_byte (load_byte m p)) 255); [done|].
    do 2 f_equal. specialize (Hbytes 1%nat (Z.to_nat (Z_of_byte (load_byte m p)))).
    rewrite <- !N.add_1_r. apply Hbytes.
    pose proof (Z_of_byte_range (load_byte m p)). lia.
Qed.

(** [Copy] on the memory: the slot of an inlined column of the destination
    ends with the bytes of the source's slot. *)
Lemma copy_memory_inlined_bytes tuple s source pool m0 m' c :
  schema_layout s →
  (∀ c, c ∈ columns s → column_is_inlined c = false →
        handle_valid m0 (tuple_at tuple source) c) →
  copy_memory StubValue.ops tuple s source pool m0 = Ok (tt, m') →
  c ∈ columns s → column_is_inlined c = true →
  ∀ i, (i < stub_slot_size c)%N →
       load_byte m' (column_ptr tuple c + i)
       = load_byte m0 (column_ptr (tuple_at tuple source) c + i).
Proof.
  intros Hlay Hsrc Hrun Hc Hinl i Hi. unfold copy_memory in Hrun.
  apply bind_inv in Hrun as ([] & m1 & Hcp & Hloop). inversion Hcp; subst m1. clear Hcp.
  set (m1 := memcpy (Tuple.tuple_data tuple) source (tuple_length s) m0) in *.
  assert (Hun : ∀ c, c ∈ uninlined_infos s →
            c ∈ columns s ∧ column_is_inlined c = false ∧
            StubValue.is_object (column_type c) = true ∧
            (column_offset c + 8 <= tuple_length s)%N).
  { intros c' [Hc' Hinl']%uninlined_infos_elem.
    pose proof (layout_uninlined s Hlay c' Hc' Hinl') as Hobj.
    pose proof (layout_inside s Hlay c' Hc') as Hin.
    rewrite (uninlined_slot_size c' Hinl' Hobj) in Hin. done. }
  destruct (copy_columns_spec tuple pool (uninlined_infos s) m1 m')
    as (_ & Hframe & _); [| | |done|].
  { apply Forall_forall. intros c' Hc'. destruct (Hun c' Hc') as (_ & ? & ? & _). done. }
  { apply slots_pairwise_filter, layout_pairwise, Hlay. }
  { apply Forall_forall. intros c' Hc'. destruct (Hun c' Hc') as (Hcs & Hinl' & _ & Hin).
    unfold handle_valid, m1. rewrite (handle_at_memcpy s tuple source m0 c' Hin).
    by apply Hsrc. }
  rewrite <- Hframe.
  - unfold m1, column_ptr, tuple_at. simpl. rewrite <- !N.add_assoc. apply memcpy_inside.
    pose proof (layout_inside s Hlay c Hc). lia.
  - apply (slot_outside_slots tuple c); [|lia].
    apply Forall_forall. intros c' Hc'. destruct (Hun c' Hc') as (Hcs & Hinl' & _).
    apply list_elem_of_lookup in Hc as [k Hk]. apply list_elem_of_lookup in Hcs as [j Hj].
    apply (layout_apart s Hlay k j); [|done..].
    intros ->. rewrite Hk in Hj. inversion Hj; subst. congruence.
Qed.

Lemma column_valid_handle_valid m tuple c :
  column_is_inlined c = false → StubValue.is_object (column_type c) = true →
  column_valid m tuple c → handle_valid m tuple c.
Proof.
  intros Hinl Hobj Hv. unfold column_valid in Hv.
  rewrite (is_object_width _ Hobj), Hinl in Hv.
  destruct Hv as [_ [Hz|(b & Hb & _)]]; [by left|right]. by exists b.
Qed.

Lemma tuple_at_bound st tuple s source :
  bound st tuple s → source ≠ 0%N → bound st (tuple_at tuple source) s.
Proof. intros (Hs & _ & Hl) Hnz. by split_and!. Qed.

Lemma columns_equal_same (V : Value.Interface) m t1 t2 (l : list ColumnInfo) :
  (∀ v : Value.t V, Value.IsTrue V (Value.OpNotEquals V v v) = false) →
  (∀ c, c ∈ l → column_value V m t1 c = column_value V m t2 c) →
  forallb (column_equal V m t1 t2) l = true.
Proof.
  intros Hrefl Hall. apply forallb_forall. intros c Hc%list_elem_of_In.
  unfold column_equal. by rewrite (Hall c Hc), Hrefl.
Qed.

(** X8. With the reference [Value] and [Pool]: when [Copy(source, pool)]
    into a bound tuple returns, the source holding valid values in a buffer
    that does not overlap the destination's, every column of the destination
    reads as the value the source's column held, the source's columns read as
    before, and the destination compares equal to the source:
    [EqualsNoSchemaCheck] answers true, [Compare] answers 0 and the two
    [HashCode()]s agree. *)
Theorem Copy_equals_source (st st' : State) (tuple : Tuple.t) (s : Schema) (source : N)
    (pool : option N) :
  bound st tuple s →
  source ≠ 0%N →
  schema_layout s →
  buffers_apart (Tuple.tuple_data tuple) source (tuple_length s) →
  Forall (column_valid (memory st) (tuple_at tuple source)) (columns s) →
  Tuple.Copy StubValue.ops tuple source pool st = Ok (tt, st') →
  (∀ c, c ∈ columns s →
        column_value StubValue.ops (memory st') tuple c
        = column_value StubValue.ops (memory st) (tuple_at tuple source) c ∧
        column_value StubValue.ops (memory st') (tuple_at tuple source) c
        = column_value StubValue.ops (memory st) (tuple_at tuple source) c) ∧
  Tuple.EqualsNoSchemaCheck StubValue.ops tuple (tuple_at tuple source) st' = Ok (true, st') ∧
  Tuple.Compare StubValue.ops tuple (tuple_at tuple source) st' = Ok (0, st') ∧
  Tuple.HashCode StubValue.ops tuple st'
  = Tuple.HashCode StubValue.ops (tuple_at tuple source) st'.
Proof.
  intros Hb Hnz Hlay Hap Hvalid Hrun. rewrite (Copy_bound _ _ _ _ _ _ Hb) in Hrun.
  unfold on_memory in Hrun.
  destruct (copy_memory _ _ _ _ _ _) as [[[] m']|e] eqn:Hmem; [|done].
  inversion Hrun; subst st'. clear Hrun. cbn [memory].
  rewrite Forall_forall in Hvalid.
  assert (Hsrc : ∀ c, c ∈ columns s → column_is_inlined c = false →
            handle_valid (memory st) (tuple_at tuple source) c).
  { intros c Hc Hinl. apply column_valid_handle_valid; [done| |by apply Hvalid].
    by apply (layout_uninlined s Hlay). }
  destruct (copy_memory_spec tuple s source pool (memory st) m' Hlay Hap Hsrc Hmem)
    as (Hall & Hout & Hext).
  rewrite Forall_forall in Hall.
  assert (Hvalues : ∀ c, c ∈ columns s →
            column_value StubValue.ops m' tuple c
            = column_value StubValue.ops (memory st) (tuple_at tuple source) c ∧
            column_value StubValue.ops m' (tuple_at tuple source) c
            = column_value StubValue.ops (memory st) (tuple_at tuple source) c).
  { intros c Hc. split.
    - destruct (column_is_inlined c) eqn:Hinl.
      + unfold column_value. rewrite Hinl. cbn [Value.Deserialize StubValue.ops].
        apply Deserialize_moved. intros i Hi.
        apply (copy_memory_inlined_bytes tuple s source pool (memory st) m' c); try done.
        pose proof (column_valid_extent _ _ _ (Hvalid c Hc)) as Hle.
        rewrite Hinl in Hle. lia.
      + apply (copied_column_value (memory st) m' pool); [done| |].
        * by apply (layout_uninlined s Hlay).
        * apply Hall. by apply uninlined_infos_elem.
    - apply column_valid_frame; [by apply Hvalid| |done].
      intros x Hx. symmetry. apply Hout.
      pose proof (layout_inside s Hlay c Hc) as Hin.
      unfold buffers_apart, column_ptr, tuple_at in *. simpl in *. lia. }
  assert (Hsame : ∀ c, c ∈ columns s →
            column_value StubValue.ops m' tuple c
            = column_value StubValue.ops m' (tuple_at tuple source) c).
  { intros c Hc. destruct (Hvalues c Hc) as [-> ->]. done. }
  set (st' := {| memory := m'; schemas := schemas st |}).
  assert (Hb1 : bound st' tuple s) by done.
  assert (Hb2 : bound st' (tuple_at tuple source) s) by by apply tuple_at_bound.
  split; [done|]. split; [|split].
  - rewrite (EqualsNoSchemaCheck_bound _ _ _ _ _ Hb1 Hb2). do 2 f_equal.
    apply columns_equal_same; [|done].
    intros v. apply StubValue_Compare_zero, StubValue_Compare_refl.
  - rewrite (Compare_bound _ _ _ _ _ Hb1 Hb2). do 2 f_equal.
    apply first_nonzero_zero. unfold column_diffs. apply Forall_map, Forall_forall.
    intros c Hc. cbn [memory st']. rewrite (Hsame c Hc). apply StubValue_Compare_refl.
  - unfold Tuple.HashCode.
    rewrite (HashCode_seed_bound _ _ _ _ Hb1), (HashCode_seed_bound _ _ _ _ Hb2).
    do 2 f_equal. unfold hash_fold, column_values. f_equal.
    apply map_ext_in. intros c Hc%list_elem_of_In. by apply Hsame.
Qed.

Lemma Copy_equals_source_witness :
  Tuple.EqualsNoSchemaCheck StubValue.ops Example.other (tuple_at Example.other 256)
    (Example.state_after (Tuple.Copy StubValue.ops Example.other 256 (Some Example.pool))
       Example.st_peloton)
  = Ok (true,
        Example.state_after (Tuple.Copy StubValue.ops Example.other 256 (Some Example.pool))
          Example.st_peloton).
Proof.
  destruct (Copy_equals_source Example.st_peloton
              (Example.state_after
                 (Tuple.Copy StubValue.ops Example.other 256 (Some Example.pool))
                 Example.st_peloton)
              Example.other Example.schema 256 (Some Example.pool)) as (_ & H & _).
  - by apply Example_bound_other.
  - done.
  - exact Example_layout.
  - unfold buffers_apart. simpl. lia.
  - exact Example_valid.
  - by vm_compute.
  - exact H.
Defined.

(** ** Ordering and equality *)

Section Ordering.

Context (V : Value.Interface).
Hypothesis Hanti : compare_antisymmetric V.
Hypothesis Htrans : compare_transitive V.

Lemma compare_chain (a b c : Value.t V) :
  Value.Compare V a b <= 0 → Value.Compare V b c <= 0 →
  Value.Compare V a c <= 0 ∧
  (Value.Compare V a c = 0 → Value.Compare V a b = 0 ∧ Value.Compare V b c = 0).
Proof.
  intros Hab Hbc. split; [by apply (Htrans a b c)|]. intros Hac.
  pose proof (Hanti a c) as Hca. pose proof (Hanti a b) as Hba. pose proof (Hanti b c) as Hcb.
  pose proof (Htrans c a b ltac:(lia) Hab). pose proof (Htrans b c a Hbc ltac:(lia)). lia.
Qed.

Lemma compare_zero_chain (a b c : Value.t V) :
  Value.Compare V a b = 0 → Value.Compare V b c = 0 → Value.Compare V a c = 0.
Proof.
  intros Hab Hbc.
  pose proof (Hanti a c) as Hca. pose proof (Hanti a b) as Hba. pose proof (Hanti b c) as Hcb.
  pose proof (Htrans a b c ltac:(lia) ltac:(lia)).
  pose proof (Htrans c b a ltac:(lia) ltac:(lia)). lia.
Qed.

Lemma column_diffs_chain m t1 t2 t3 (l : list ColumnInfo) :
  let diff x y := first_nonzero (map (fun c => Value.Compare V (column_value V m x c)
                                                 (column_value V m y c)) l) in
  diff t1 t2 <= 0 → diff t2 t3 <= 0 →
  diff t1 t3 <= 0 ∧ (diff t1 t3 = 0 → diff t1 t2 = 0 ∧ diff t2 t3 = 0).
Proof.
  cbv zeta. induction l as [|c l IH]; [done|]. cbn [map].
  rewrite !first_nonzero_cons.
  set (a := column_value V m t1 c). set (b := column_value V m t2 c).
  set (d := column_value V m t3 c).
  destruct (Z.eqb_spec (Value.Compare V a b) 0) as [Hab|Hab];
    destruct (Z.eqb_spec (Value.Compare V b d) 0) as [Hbd|Hbd].
  - rewrite (compare_zero_chain a b d Hab Hbd). simpl. apply IH.
  - intros _ Hle. destruct (compare_chain a b d ltac:(lia) Hle) as [Hle' Hz].
    destruct (Z.eqb_spec (Value.Compare V a d) 0) as [Had|Had]; [|lia].
    destruct (Hz Had). lia.
  - intros Hle _. destruct (compare_chain a b d Hle ltac:(lia)) as [Hle' Hz].
    destruct (Z.eqb_spec (Value.Compare V a d) 0) as [Had|Had]; [|lia].
    destruct (Hz Had). lia.
  - intros Hle1 Hle2. destruct (compare_chain a b d Hle1 Hle2) as [Hle' Hz].
    destruct (Z.eqb_spec (Value.Compare V a d) 0) as [Had|Had]; [|lia].
    destruct (Hz Had). lia.
Qed.

End Ordering.

(** X9. When [Value::Compare] is antisymmetric and transitive, so is
    [Compare] on tuples bound to one schema: the three comparisons of three
    tuples return, and if the first is at most the second and the second at
    most the third, the first is at most the third; when moreover the first
    and the third compare equal, all three do. *)
Theorem Compare_transitive (V : Value.Interface) (st : State) (t1 t2 t3 : Tuple.t)
    (s : Schema) :
  compare_antisymmetric V → compare_transitive V →
  bound st t1 s → bound st t2 s → bound st t3 s →
  ∃ d12 d23 d13,
    Tuple.Compare V t1 t2 st = Ok (d12, st) ∧
    Tuple.Compare V t2 t3 st = Ok (d23, st) ∧
    Tuple.Compare V t1 t3 st = Ok (d13, st) ∧
    (d12 <= 0 → d23 <= 0 → d13 <= 0 ∧ (d13 = 0 → d12 = 0 ∧ d23 = 0)).
Proof.
  intros Hanti Htrans Hb1 Hb2 Hb3.
  rewrite (Compare_bound _ _ _ _ _ Hb1 Hb2), (Compare_bound _ _ _ _ _ Hb2 Hb3),
    (Compare_bound _ _ _ _ _ Hb1 Hb3).
  do 3 eexists. split_and!; [done..|].
  apply (column_diffs_chain V Hanti Htrans).
Qed.

Lemma compare_bytes_trans a :
  ∀ b c, StubValue.compare_bytes a b <= 0 → StubValue.compare_bytes b c <= 0 →
         StubValue.compare_bytes a c <= 0.
Proof.
  induction a as [|x a IH]; intros [|y b] [|z c]; simpl; try lia.
  destruct (Z.compare_spec (Z_of_byte x) (Z_of_byte y)),
           (Z.compare_spec (Z_of_byte y) (Z_of_byte z)),
           (Z.compare_spec (Z_of_byte x) (Z_of_byte z)); try lia.
  apply IH.
Qed.

Lemma sign_compare_le x y : StubValue.sign (x ?= y) <= 0 ↔ x <= y.
Proof. destruct (Z.compare_spec x y); simpl; lia. Qed.

Lemma StubValue_compare_is_antisymmetric : compare_antisymmetric StubValue.ops.
Proof. intros a b. apply StubValue_Compare_opp. Qed.

Lemma StubValue_compare_is_transitive : compare_transitive StubValue.ops.
Proof.
  intros a b c. cbn [Value.Compare StubValue.ops].
  destruct a as [ta x|ta [p|]|x|], b as [tb y|tb [q|]|y|], c as [tc z|tc [r|]|z|];
    cbn [StubValue.Compare StubValue.rank]; try (simpl; lia).
  - rewrite !sign_compare_le. lia.
  - apply compare_bytes_trans.
  - rewrite !sign_compare_le. lia.
Qed.

Lemma Compare_transitive_witness :
  ∃ d12 d23 d13,
    Tuple.Compare StubValue.ops Example.tuple Example.other Example.st_pair
    = Ok (d12, Example.st_pair) ∧
    Tuple.Compare StubValue.ops Example.other Example.twin Example.st_pair
    = Ok (d23, Example.st_pair) ∧
    Tuple.Compare StubValue.ops Example.tuple Example.twin Example.st_pair
    = Ok (d13, Example.st_pair) ∧
    (d12 <= 0 → d23 <= 0 → d13 <= 0 ∧ (d13 = 0 → d12 = 0 ∧ d23 = 0)).
Proof.
  apply (Compare_transitive StubValue.ops Example.st_pair Example.tuple Example.other
           Example.twin Example.schema).
  - exact StubValue_compare_is_antisymmetric.
  - exact StubValue_compare_is_transitive.
  - by apply Example_bound_tuple.
  - by apply Example_bound_other.
  - by apply Example_bound_twin.
Defined.

(** X10. When [Value::Compare] is antisymmetric and transitive and
    [Value::OpNotEquals] is false exactly on the values it finds equal,
    [EqualsNoSchemaCheck] is an equivalence on the tuples bound to one schema:
    a tuple equals itself, the answer does not depend on which of two tuples
    is asked, and two tuples equal to a third are equal. *)
Theorem EqualsNoSchemaCheck_equivalence (V : Value.Interface) (st : State)
    (t1 t2 t3 : Tuple.t) (s : Schema) :
  compare_antisymmetric V → compare_transitive V → compare_zero_is_equal V →
  bound st t1 s → bound st t2 s → bound st t3 s →
  Tuple.EqualsNoSchemaCheck V t1 t1 st = Ok (true, st) ∧
  Tuple.EqualsNoSchemaCheck V t1 t2 st = Tuple.EqualsNoSchemaCheck V t2 t1 st ∧
  (Tuple.EqualsNoSchemaCheck V t1 t2 st = Ok (true, st) →
   Tuple.EqualsNoSchemaCheck V t2 t3 st = Ok (true, st) →
   Tuple.EqualsNoSchemaCheck V t1 t3 st = Ok (true, st)).
Proof.
  intros Hanti Htrans Hzero Hb1 Hb2 Hb3.
  rewrite (EqualsNoSchemaCheck_bound _ _ _ _ _ Hb1 Hb1),
    (EqualsNoSchemaCheck_bound _ _ _ _ _ Hb1 Hb2),
    (EqualsNoSchemaCheck_bound _ _ _ _ _ Hb2 Hb1),
    (EqualsNoSchemaCheck_bound _ _ _ _ _ Hb2 Hb3),
    (EqualsNoSchemaCheck_bound _ _ _ _ _ Hb1 Hb3).
  set (m := memory st).
  assert (Hopp : ∀ x y, first_nonzero (column_diffs V m y x s)
                        = - first_nonzero (column_diffs V m x y s)).
  { intros x y. apply first_nonzero_opp, column_diffs_opp, Hanti. }
  assert (Heq : ∀ x y, columns_equal V m x y s = true
                       ↔ first_nonzero (column_diffs V m x y s) = 0).
  { intros x y. symmetry. by apply column_diffs_zero. }
  split_and!.
  - do 2 f_equal. apply Heq. pose proof (Hopp t1 t1). lia.
  - do 2 f_equal. apply eq_true_iff_eq. rewrite !Heq, (Hopp t1 t2). lia.
  - intros H12 H23.
    assert (E12 : columns_equal V m t1 t2 s = true) by congruence.
    assert (E23 : columns_equal V m t2 t3 s = true) by congruence.
    apply Heq in E12, E23. do 2 f_equal. apply Heq.
    pose proof (Hopp t1 t2) as O12. pose proof (Hopp t2 t3) as O23.
    pose proof (Hopp t1 t3) as O13.
    destruct (column_diffs_chain V Hanti Htrans m t1 t2 t3 (columns s)) as [Hle _];
      [unfold column_diffs in *; lia..|].
    destruct (column_diffs_chain V Hanti Htrans m t3 t2 t1 (columns s)) as [Hge _];
      [unfold column_diffs in *; lia..|].
    unfold column_diffs in *. lia.
Qed.

Lemma EqualsNoSchemaCheck_equivalence_witness :
  Tuple.EqualsNoSchemaCheck StubValue.ops Example.tuple Example.tuple Example.st_pair
  = Ok (true, Example.st_pair) ∧
  Tuple.EqualsNoSchemaCheck StubValue.ops Example.tuple Example.other Example.st_pair
  = Tuple.EqualsNoSchemaCheck StubValue.ops Example.other Example.tuple Example.st_pair ∧
  (Tuple.EqualsNoSchemaCheck StubValue.ops Example.tuple Example.other Example.st_pair
   = Ok (true, Example.st_pair) →
   Tuple.EqualsNoSchemaCheck StubValue.ops Example.other Example.twin Example.st_pair
   = Ok (true, Example.st_pair) →
   Tuple.EqualsNoSchemaCheck StubValue.ops Example.tuple Example.twin Example.st_pair
   = Ok (true, Example.st_pair)).
Proof.
  apply (EqualsNoSchemaCheck_equivalence StubValue.ops Example.st_pair Example.tuple
           Example.other Example.twin Example.schema).
  - exact StubValue_compare_is_antisymmetric.
  - exact StubValue_compare_is_transitive.
  - exact StubValue_Compare_zero.
  - by apply Example_bound_tuple.
  - by apply Example_bound_other.
  - by apply Example_bound_twin.
Defined.

(** ** What the serializers leave alone *)

Lemma read_only_serialize_loop V tuple n (output : list byte) :
  read_only (for_loop (fun column_itr output =>
                         value <- Tuple.GetValue V tuple column_itr ;;
                         ret (Value.SerializeTo V value output)) 0 n output).
Proof. apply read_only_for_loop. intros i acc. eauto with read_only. Qed.

Lemma read_only_SerializeTo V tuple output : read_only (Tuple.SerializeTo V tuple output).
Proof.
  unfold Tuple.SerializeTo, ReserveBytes, Tuple.schema_GetColumnCount.
  apply read_only_bind; [eauto with read_only|]. intros n.
  apply read_only_bind; [apply read_only_serialize_loop|]. intros out.
  eauto with read_only.
Qed.

Lemma read_only_SerializeWithHeaderTo V tuple output :
  read_only (Tuple.SerializeWithHeaderTo V tuple output).
Proof.
  unfold Tuple.SerializeWithHeaderTo, Tuple.schema_GetColumnCount.
  apply read_only_bind; [eauto with read_only|]. intros _.
  apply read_only_bind; [eauto with read_only|]. intros _.
  apply read_only_bind; [eauto with read_only|]. intros n.
  apply read_only_bind; [apply read_only_serialize_loop|]. intros out.
  eauto with read_only.
Qed.

Lemma read_only_SerializeToExport V tuple output colOffset null_array :
  read_only (Tuple.SerializeToExport V tuple output colOffset null_array).
Proof.
  unfold Tuple.SerializeToExport, Tuple.GetColumnCount, Tuple.schema_GetColumnCount,
    Tuple.IsNull.
  apply read_only_bind; [eauto with read_only|]. intros n.
  apply read_only_for_loop. intros i [out bitmap].
  apply read_only_bind; [eauto with read_only|]. intros is_null.
  apply read_only_if; eauto 10 with read_only.
Qed.

Lemma read_only_GetUninlinedMemorySize V tuple :
  read_only (Tuple.GetUninlinedMemorySize V tuple).
Proof.
  unfold Tuple.GetUninlinedMemorySize, Tuple.GetColumnCount, Tuple.schema_GetColumnCount,
    Tuple.GetType, Tuple.schema_GetType, Tuple.schema_IsInlined.
  apply read_only_bind; [eauto with read_only|]. intros n.
  apply read_only_bind; [eauto with read_only|]. intros is_inlined.
  apply read_only_if; [|eauto with read_only].
  apply read_only_for_loop. intros i acc.
  apply read_only_bind; [eauto with read_only|]. intros ty.
  apply read_only_bind.
  { apply read_only_if; eauto with read_only. }
  intros is_var. apply read_only_bind.
  { apply read_only_if; eauto with read_only. }
  intros cond. apply read_only_if; [|eauto with read_only].
  apply read_only_bind; [eauto with read_only|]. intros v.
  apply read_only_if; eauto with read_only.
Qed.

Lemma read_only_op_eq V tuple other : read_only (Tuple.op_eq V tuple other).
Proof.
  unfold Tuple.op_eq. apply read_only_if; [eauto with read_only|].
  apply read_only_EqualsNoSchemaCheck.
Qed.

(** X11. The three serializers, [GetUninlinedMemorySize], [operator==] and
    [operator!=] write to nothing but the output and the bitmap they are
    given: whenever one of them returns, the memory (every byte of every
    buffer, every payload block) and every schema object are as they were. *)
Theorem read_only_serializers (V : Value.Interface) (tuple other : Tuple.t)
    (output : list byte) (colOffset : Z) (null_array : list byte) :
  read_only (Tuple.SerializeTo V tuple output) ∧
  read_only (Tuple.SerializeWithHeaderTo V tuple output) ∧
  read_only (Tuple.SerializeToExport V tuple output colOffset null_array) ∧
  read_only (Tuple.GetUninlinedMemorySize V tuple) ∧
  read_only (Tuple.op_eq V tuple other) ∧
  read_only (Tuple.op_ne V tuple other).
Proof.
  split_and!.
  - apply read_only_SerializeTo.
  - apply read_only_SerializeWithHeaderTo.
  - apply read_only_SerializeToExport.
  - apply read_only_GetUninlinedMemorySize.
  - apply read_only_op_eq.
  - unfold Tuple.op_ne. apply read_only_bind; [apply read_only_op_eq|].
    intros b. apply read_only_ret.
Qed.

(** ** Release *)

Lemma uninlined_columns_nil s :
  SchemaOps.IsTupleInlined s = true → SchemaOps.uninlined_columns s = [].
Proof.
  intros Hin. pose proof (uninlined_columns_infos s) as Hids.
  rewrite (uninlined_infos_nil _ Hin) in Hids. by apply Forall2_nil_inv_r in Hids.
Qed.

Lemma FreeUninlinedData_bound (V : Value.Interface) (free : Value.t V -> VM unit)
    st tuple s :
  bound st tuple s →
  (SchemaOps.GetUninlinedColumnCount s < 2 ^ 16)%nat →
  Tuple.FreeUninlinedData V free tuple st
  = on_memory (vfold (fun c _ => free_column V free tuple c) (uninlined_infos s) tt) st.
Proof.
  intros Hb Hcount. unfold Tuple.FreeUninlinedData.
  destruct Hb as (Hs & Hd & Hl). apply N.eqb_neq in Hd as Hd'. rewrite Hd'.
  assert (Hb : bound st tuple s) by done.
  rewrite (bind_unchanged _ _ _ _ (schema_call_bound _ _ _ _ Hb)).
  unfold Tuple.uint16_cast. rewrite Nat.mod_small by done.
  pose proof (uninlined_columns_infos s) as Hids.
  unfold SchemaOps.GetUninlinedColumnCount. rewrite (Forall2_length _ _ _ Hids).
  apply for_loop_on_memory. intros j c [] st' Hsch Hc.
  pose proof (bound_schemas _ _ _ _ Hsch Hb) as Hb'.
  destruct (Forall2_lookup_r _ _ _ _ _ Hids Hc) as (id & Hid & Hcol).
  rewrite (bind_unchanged _ _ _ _ (schema_call_bound _ _ _ _ Hb')).
  unfold SchemaOps.GetUninlinedColumnIndex. rewrite Hid. simpl.
  rewrite (bind_Ok _ _ _ _ _ (GetValue_bound _ _ _ _ _ Hb' Hcol V)).
  unfold free_column. rewrite on_memory_bind. by unfold bind, get, on_memory.
Qed.

(** X12. [FreeUninlinedData], whatever [Value]'s release does: on a tuple
    whose buffer pointer is null it returns at once and changes nothing, even
    when the schema pointer is null or dangling; on a bound tuple over a schema
    with inlined columns only it releases nothing and changes nothing; on a
    bound tuple with fewer than [2^16] uninlined columns it reads and releases
    the values of the uninlined columns, in schema order, each read from the
    memory the releases before it left, and no other column is read. *)
Theorem FreeUninlinedData_cases (V : Value.Interface) (free : Value.t V -> VM unit)
    (st : State) (tuple : Tuple.t) :
  (Tuple.tuple_data tuple = 0%N → Tuple.FreeUninlinedData V free tuple st = Ok (tt, st)) ∧
  (∀ s, bound st tuple s →
        (SchemaOps.IsTupleInlined s = true →
         Tuple.FreeUninlinedData V free tuple st = Ok (tt, st)) ∧
        ((SchemaOps.GetUninlinedColumnCount s < 2 ^ 16)%nat →
         Tuple.FreeUninlinedData V free tuple st
         = on_memory (vfold (fun c _ => free_column V free tuple c) (uninlined_infos s) tt)
             st)).
Proof.
  split.
  - intros Hnull. unfold Tuple.FreeUninlinedData. by rewrite Hnull.
  - intros s Hb. split; [|by apply FreeUninlinedData_bound].
    intros Hin. rewrite (FreeUninlinedData_bound V free st tuple s Hb).
    + rewrite (uninlined_infos_nil _ Hin). by destruct st.
    + unfold SchemaOps.GetUninlinedColumnCount. rewrite (uninlined_columns_nil _ Hin).
      cbn [length]. apply Nat.neq_0_lt_0, Nat.pow_nonzero. lia.
Qed.

Lemma FreeUninlinedData_cases_witness :
  Tuple.FreeUninlinedData StubValue.ops release_by_payload
    {| Tuple.tuple_schema := 0; Tuple.tuple_data := 0 |} Example.st_peloton
  = Ok (tt, Example.st_peloton) ∧
  Tuple.FreeUninlinedData StubValue.ops release_by_payload
    ExampleInlined.tuple ExampleInlined.st_peloton
  = Ok (tt, ExampleInlined.st_peloton) ∧
  Tuple.FreeUninlinedData StubValue.ops release_by_payload Example.tuple Example.st_peloton
  = on_memory (vfold (fun c _ => free_column StubValue.ops release_by_payload Example.tuple c)
                 (uninlined_infos Example.schema) tt) Example.st_peloton ∧
  Tuple.FreeUninlinedData StubValue.ops release_by_payload Example.tuple Example.st_peloton
  = Ok (tt, {| memory := {| mem_bytes := mem_bytes (memory Example.st_peloton);
                            mem_heap := ∅ |};
               schemas := schemas Example.st_peloton |}) ∧
  mem_heap (memory Example.st_peloton) ≠ ∅.
Proof.
  split; [|split; [|split; [|split]]].
  - by apply (proj1 (FreeUninlinedData_cases StubValue.ops release_by_payload
                       Example.st_peloton {| Tuple.tuple_schema := 0; Tuple.tuple_data := 0 |})).
  - destruct (proj2 (FreeUninlinedData_cases StubValue.ops release_by_payload
                       ExampleInlined.st_peloton ExampleInlined.tuple) ExampleInlined.schema)
      as [H _].
    + by apply ExampleInlined_bound_tuple.
    + apply H. reflexivity.
  - destruct (proj2 (FreeUninlinedData_cases StubValue.ops release_by_payload
                       Example.st_peloton Example.tuple) Example.schema) as [_ H].
    + by apply Example_bound_tuple.
    + apply H. apply Nat.ltb_lt. by vm_compute.
  - destruct (proj2 (FreeUninlinedData_cases StubValue.ops release_by_payload
                       Example.st_peloton Example.tuple) Example.schema) as [_ H].
    + by apply Example_bound_tuple.
    + rewrite H; [by vm_compute|]. apply Nat.ltb_lt. by vm_compute.
  - by vm_compute.
Defined.

(** ** The export format against its size *)

Section ExportContract.

Context (V : Value.Interface).
Hypothesis Happ : export_appends_only V.
Hypothesis Hwithin : export_within_count V.
Hypothesis Hprec : 0 <= 4 + Value.max_decimal_precision V + 1 + 1.

Lemma export_column_bytes_nonneg m tuple c :
  export_type_known (column_type c) = true → 0 <= export_column_bytes V m tuple c.
Proof.
  intros Hk. destruct (Value.IsNull V (column_value V m tuple c)) eqn:Hnull.
  - unfold export_column_bytes. rewrite Hnull. destruct (column_type c); lia.
  - pose proof (Hwithin m tuple c Hnull Hk). lia.
Qed.

Lemma export_output_length m tuple (l : list ColumnInfo) :
  Forall (fun c => export_type_known (column_type c) = true) l →
  ∀ output, ∃ written,
    export_output_spec V m tuple l output = output ++ written ∧
    Z.of_nat (length written) + 8 * Z.of_nat (length (null_fixed_columns V m tuple l))
    <= sum_Z (map (export_column_bytes V m tuple) l).
Proof.
  induction 1 as [|c l Hk _ IH]; intros output.
  - exists []. by rewrite app_nil_r.
  - unfold export_output_spec, null_fixed_columns.
    cbn [fold_left map sum_Z fold_right List.filter].
    fold (sum_Z (map (export_column_bytes V m tuple) l)).
    fold (null_fixed_columns V m tuple l).
    destruct (Value.IsNull V (column_value V m tuple c)) eqn:Hnull.
    + destruct (IH output) as (written & Hw & Hlen). exists written.
      split; [done|]. pose proof (export_column_bytes_nonneg m tuple c Hk) as Hnn.
      destruct (is_fixed_numeric (column_type c)) eqn:Hfix; cbn [andb length]; [|lia].
      assert (export_column_bytes V m tuple c = 8) as ->; [|lia].
      unfold export_column_bytes. by destruct (column_type c).
    + rewrite Happ, andb_false_r.
      destruct (IH (output ++ Value.SerializeToExport V (column_value V m tuple c) []))
        as (written & Hw & Hlen).
      exists (Value.SerializeToExport V (column_value V m tuple c) [] ++ written).
      split.
      * unfold export_output_spec in Hw. by rewrite Hw, app_assoc.
      * rewrite length_app. pose proof (Hwithin m tuple c Hnull Hk). lia.
Qed.

End ExportContract.

(** X13. [ExportSerializationSize()] is an upper bound on what
    [SerializeToExport] writes.  When [Value]'s export encoding only appends to
    the output and takes, for a non-null value, at most the bytes counted for
    its column, then on a bound tuple over columns of the nine listed types
    (the bitmap having room for the columns from [colOffset] on, and the
    counted bytes fitting a [size_t]) both calls return, the output keeps
    what it held, and the bytes added are at most the size returned; a null
    column of a fixed numeric type is counted for 8 bytes and writes none, so
    the bytes added fall short of the size by at least 8 for each. *)
Theorem SerializeToExport_within_size (V : Value.Interface) (st : State) (tuple : Tuple.t)
    (s : Schema) (output : list byte) (colOffset : Z) (null_array : list byte) :
  bound st tuple s →
  0 <= colOffset →
  colOffset + Z.of_nat (length (columns s)) <= 8 * Z.of_nat (length null_array) →
  colOffset + Z.of_nat (length (columns s)) <= INT32_MAX + 1 →
  Forall (fun c => export_type_known (column_type c) = true) (columns s) →
  export_appends_only V →
  export_within_count V →
  0 <= 4 + Value.max_decimal_precision V + 1 + 1 →
  export_size_sum V (memory st) tuple s < 2 ^ 64 →
  ∃ written null_array' size,
    Tuple.SerializeToExport V tuple output colOffset null_array st
    = Ok ((output ++ written, null_array'), st) ∧
    Tuple.ExportSerializationSize V tuple st = Ok (size, st) ∧
    Z.of_nat (length written)
    + 8 * Z.of_nat (length (null_fixed_columns V (memory st) tuple (columns s)))
    <= size.
Proof.
  intros Hb H0 Hlen Hmax Hknown Happ Hwithin Hprec Hfit.
  rewrite (SerializeToExport_bound _ _ _ _ _ _ _ Hb).
  destruct (export_fold V (memory st) tuple colOffset (indexed_columns s) output null_array)
    as (bm & Hrun & _).
  { apply Forall_forall. intros [i c] Hin.
    apply list_elem_of_lookup in Hin as [j Hj].
    apply indexed_columns_lookup in Hj as [Hi Hc]. simpl in *. subst j.
    apply lookup_lt_Some in Hc. lia. }
  rewrite Hrun. unfold indexed_columns. rewrite snd_zip by (rewrite length_seq; lia).
  destruct (export_output_length V Happ Hwithin Hprec (memory st) tuple (columns s) Hknown
              output) as (written & -> & Hle).
  exists written, bm, (export_size_sum V (memory st) tuple s). split; [done|].
  split; [|done].
  rewrite (ExportSerializationSize_bound _ _ _ _ Hb).
  unfold export_size_spec, first_unknown_type.
  rewrite (find_unknown_none _ Hknown). simpl. unfold to_size_t, UINT64_MOD. rewrite Z.mod_small; [done|].
  unfold export_size_sum in *. lia.
Qed.

Lemma StubValue_export_appends_only : export_appends_only StubValue.ops.
Proof.
  intros v output. cbn [Value.SerializeToExport StubValue.ops].
  destruct v as [type n|type [p|]| |]; cbn [StubValue.SerializeToExport];
    rewrite ?app_nil_l, ?app_nil_r; done.
Qed.

Lemma StubValue_export_within_count : export_within_count StubValue.ops.
Proof.
  intros m tuple c Hnull Hk. unfold export_column_bytes. rewrite Hnull.
  revert Hnull. unfold column_value. cbn [Value.Deserialize Value.IsNull Value.SerializeToExport
    Value.PeekObjectLength Value.max_decimal_precision StubValue.ops].
  unfold StubValue.Deserialize.
  destruct (column_type c) eqn:Hty; try done; cbn [StubValue.width StubValue.is_object];
    cbn [StubValue.SerializeToExport length]; rewrite ?length_app, ?be_bytes_length;
    try (intros; simpl; lia).
  all: destruct (column_is_inlined c);
    repeat match goal with
           | |- context [if ?b then _ else _] => destruct b
           | |- context [match ?o with Some _ => _ | None => _ end] => destruct o
           end;
    cbn [StubValue.SerializeToExport StubValue.PeekObjectLength StubValue.IsNull length];
    rewrite ?length_app, ?be_bytes_length; try done; intros; simpl; lia.
Qed.

Lemma SerializeToExport_within_size_witness :
  ∃ written null_array' size,
    Tuple.SerializeToExport StubValue.ops Example.tuple [] 0 [Byte.x00] Example.st_null
    = Ok (([] ++ written, null_array'), Example.st_null) ∧
    Tuple.ExportSerializationSize StubValue.ops Example.tuple Example.st_null
    = Ok (size, Example.st_null) ∧
    Z.of_nat (length written)
    + 8 * Z.of_nat (length (null_fixed_columns StubValue.ops (memory Example.st_null)
                              Example.tuple (columns Example.schema)))
    <= size.
Proof.
  apply (SerializeToExport_within_size StubValue.ops Example.st_null Example.tuple
           Example.schema [] 0 [Byte.x00]).
  - by apply Example_bound_tuple.
  - lia.
  - by vm_compute.
  - by vm_compute.
  - repeat constructor.
  - exact StubValue_export_appends_only.
  - exact StubValue_export_within_count.
  - by vm_compute.
  - by vm_compute.
Defined.

(** ** Field mutation with the reference [Value] *)

Lemma null_of_in_range w : (1 <= w)%nat → StubValue.in_range w (StubValue.null_of w) = true.
Proof.
  intros Hw. unfold StubValue.in_range, StubValue.null_of.
  assert (0 < 2 ^ (8 * Z.of_nat w - 1)) by (apply Z.pow_pos_nonneg; lia).
  apply andb_true_intro. split; [apply Z.leb_le | apply Z.ltb_lt]; lia.
Qed.

Lemma CastAs_inv v type v' :
  StubValue.CastAs v type = Ok v' →
  (∃ w n, StubValue.width type = Some w ∧ v' = StubValue.Num type n ∧
          StubValue.in_range w n = true) ∨
  (StubValue.is_object type = true ∧ ∃ o, v' = StubValue.Obj type o).
Proof.
  destruct v as [ty n|ty o|b|]; cbn [StubValue.CastAs]; try done.
  - destruct (StubValue.width type) as [w|] eqn:Hw; [|done].
    destruct (StubValue.IsNull _).
    + intros [= <-]. left. exists w, (StubValue.null_of w).
      split_and!; [done..|]. apply null_of_in_range. by eapply width_pos.
    + destruct (StubValue.in_range w n) eqn:Hr; [|done].
      intros [= <-]. left. by exists w, n.
  - destruct (StubValue.is_object type) eqn:Hobj; [|done].
    intros [= <-]. right. split; [done|]. by exists o.
Qed.

Lemma stub_store_column v tuple c pool m :
  (∃ ty, StubValue.CastAs ty (column_type c) = Ok v) →
  storable c v →
  (column_is_inlined c = false ∧
   StubValue.SerializeWithAllocation v (column_ptr tuple c) (column_is_inlined c)
     (if negb (column_is_inlined c) then variable_length c else fixed_length c) (Some pool) m
   = Err AllocationFailure) ∨
  ∃ m',
    StubValue.SerializeWithAllocation v (column_ptr tuple c) (column_is_inlined c)
      (if negb (column_is_inlined c) then variable_length c else fixed_length c) (Some pool) m
    = Ok (tt, m') ∧
    column_value StubValue.ops m' tuple c = v ∧
    bytes_agree_outside m m' (column_ptr tuple c) (stub_slot_size c) ∧
    heap_extends m m'.
Proof.
  intros [v0 Hcast] Hfit.
  apply CastAs_inv in Hcast as [(w & n & Hw & -> & Hr)|(Hobj & o & ->)].
  - right. cbn [StubValue.SerializeWithAllocation]. rewrite Hw.
    exists (store_bytes (column_ptr tuple c) (StubValue.le_bytes w n) m).
    split; [done|].
    destruct (store_num_column w n tuple c m Hw Hr) as (Hv & _ & Hout & Hext). done.
  - cbn [StubValue.SerializeWithAllocation]. destruct Hfit as [Hinl Hlen].
    destruct (store_object_column o tuple c pool m Hobj Hinl Hlen)
      as [[Hun Herr]|(m' & Hrun & Hv & _ & Hout & Hext)].
    + left. split; [done|]. rewrite Hun in *. exact Herr.
    + right. exists m'. split; [|done].
      destruct (column_is_inlined c); exact Hrun.
Qed.

Lemma SerializeWithAllocation_served v ptr is_inlined len pool m :
  (StubValue.fresh_handle m < 2 ^ 64)%N →
  StubValue.SerializeWithAllocation v ptr is_inlined len (Some pool) m ≠ Err AllocationFailure.
Proof.
  intros Hroom. destruct v as [ty n|ty o|b|]; cbn [StubValue.SerializeWithAllocation]; try done.
  - by destruct (StubValue.width ty).
  - by apply store_object_served.
Qed.

(** X14. With the reference [Value] and [Pool]: [SetValueAllocate(i, value,
    pool)] on a bound tuple, for a value that casts to the column's type and
    fits its slot, returns whenever the pool can hand out one more block (an
    inlined column needs none), and then [GetValue(i)] is the cast value, and
    [GetValue(j)] of every other column that held a valid value is the value
    it held before.  No payload block is released: the block an uninlined
    column named before stays live. *)
Theorem SetValueAllocate_then_GetValue (st : State) (tuple : Tuple.t) (s : Schema) (i : nat)
    (c : ColumnInfo) (value value' : StubValue.t) (pool : N) :
  bound st tuple s →
  schema_layout s →
  columns s !! i = Some c →
  StubValue.CastAs value (column_type c) = Ok value' →
  storable c value' →
  (column_is_inlined c = false → pool_room (memory st) 1) →
  ∃ st',
    Tuple.SetValueAllocate StubValue.ops tuple i value (Some pool) st = Ok (tt, st') ∧
    Tuple.GetValue StubValue.ops tuple i st' = Ok (value', st') ∧
    (∀ j c', j ≠ i → columns s !! j = Some c' → column_valid (memory st) tuple c' →
             Tuple.GetValue StubValue.ops tuple j st'
             = Ok (column_value StubValue.ops (memory st) tuple c', st')) ∧
    heap_extends (memory st) (memory st').
Proof.
  intros Hb Hlay Hc Hcast Hfit Hroom.
  rewrite (SetValueAllocate_bound StubValue.ops st tuple s Hb i c value (Some pool) st eq_refl Hc).
  rewrite on_memory_bind, bind_on_memory_lift.
  cbn [Value.CastAs Value.SerializeWithAllocation StubValue.ops]. rewrite Hcast.
  unfold on_memory.
  destruct (stub_store_column value' tuple c pool (memory st) (ex_intro _ value Hcast) Hfit)
    as [[Hun Herr]|(m' & Hrun & Hv & Hout & Hext)].
  - exfalso. revert Herr. apply SerializeWithAllocation_served.
    by apply (pool_room_served _ 0), Hroom.
  - rewrite Hrun. eexists. split; [done|].
    set (st' := {| memory := m'; schemas := schemas st |}).
    assert (Hb' : bound st' tuple s) by done.
    split; [|split; [|done]].
    + rewrite (GetValue_bound _ _ _ _ _ Hb' Hc). by rewrite <- Hv.
    + intros j c' Hji Hc' Hvalid. rewrite (GetValue_bound _ _ _ _ _ Hb' Hc').
      do 2 f_equal. apply column_valid_frame; [done| |done].
      apply (bytes_agree_outside_inside _ _ _ _ _ _ Hout).
      pose proof (layout_apart s Hlay j i c' c Hji Hc' Hc) as Hapart.
      unfold slots_apart, column_ptr in *. lia.
Qed.

Lemma SetValueAllocate_then_GetValue_witness :
  ∃ st',
    Tuple.SetValueAllocate StubValue.ops Example.tuple 1
      (StubValue.Obj VALUE_TYPE_VARBINARY (Some [Byte.x41])) (Some Example.pool)
      Example.st_peloton = Ok (tt, st') ∧
    Tuple.GetValue StubValue.ops Example.tuple 1 st'
    = Ok (StubValue.Obj VALUE_TYPE_VARCHAR (Some [Byte.x41]), st') ∧
    (∀ j c', j ≠ 1%nat → columns Example.schema !! j = Some c' →
             column_valid (memory Example.st_peloton) Example.tuple c' →
             Tuple.GetValue StubValue.ops Example.tuple j st'
             = Ok (column_value StubValue.ops (memory Example.st_peloton) Example.tuple c',
                   st')) ∧
    heap_extends (memory Example.st_peloton) (memory st').
Proof.
  apply (SetValueAllocate_then_GetValue Example.st_peloton Example.tuple Example.schema 1
           {| column_type := VALUE_TYPE_VARCHAR; fixed_length := 8; variable_length := 64;
              column_offset := 4; column_is_inlined := false |}
           (StubValue.Obj VALUE_TYPE_VARBINARY (Some [Byte.x41]))).
  - by apply Example_bound_tuple.
  - exact Example_layout.
  - reflexivity.
  - reflexivity.
  - split; [done|]. intros p [= <-]. by vm_compute.
  - intros _. by vm_compute.
Defined.

(** ** The header-counted round trip with the reference [Value] *)

Lemma deserialize_column_inlined_pool tuple c input pool pool' :
  column_is_inlined c = true →
  deserialize_column StubValue.ops tuple pool c input
  = deserialize_column StubValue.ops tuple pool' c input.
Proof.
  intros Hinl. unfold deserialize_column. rewrite Hinl.
  cbn [Value.DeserializeFrom StubValue.ops]. unfold StubValue.DeserializeFrom.
  destruct (StubValue.width (column_type c)); [done|].
  destruct (StubValue.is_object (column_type c)); [|done].
  destruct (ReadInt input) as [[l rest]|]; done.
Qed.

Lemma deserialize_columns_inlined_pool tuple pool pool' (l : list ColumnInfo) :
  forallb column_is_inlined l = true →
  ∀ input m, deserialize_columns StubValue.ops tuple pool l input m
             = deserialize_columns StubValue.ops tuple pool' l input m.
Proof.
  induction l as [|c l IH]; [done|]. intros [Hc Hl]%andb_prop input m.
  cbn [deserialize_columns]. unfold bind.
  rewrite (deserialize_column_inlined_pool tuple c input pool pool' Hc).
  destruct (deserialize_column _ _ _ _ _ m) as [[r m1]|]; [|done].
  by rewrite (IH Hl).
Qed.

Lemma DeserializeFrom_columns st tuple s input pool :
  bound st tuple s →
  Tuple.DeserializeFrom StubValue.ops tuple input pool st
  = match ReadInt input with
    | Ok (_, input1) =>
        match deserialize_columns StubValue.ops tuple pool (columns s) input1 (memory st) with
        | Ok ((_, input'), m') => Ok (input', {| memory := m'; schemas := schemas st |})
        | Err e => Err e
        end
    | Err e => Err e
    end.
Proof.
  intros Hb. rewrite (DeserializeFrom_bound StubValue.ops st tuple s Hb).
  unfold on_memory. rewrite bind_lift.
  destruct (ReadInt input) as [[size input1]|e]; [|done]. cbn [snd].
  rewrite deserialize_columns_vfold.
  by destruct (deserialize_columns _ _ _ _ _ _) as [[[counts inp] m']|e].
Qed.

(** X15. With the reference [Value]: over a schema with inlined columns only,
    what [SerializeWithHeaderTo] writes for a bound tuple holding valid values
    is read back by [DeserializeWithHeaderFrom] into a tuple bound to another
    buffer.  The read consumes the whole of the bytes, returns their number
    (the row being shorter than [2^63] bytes), and leaves a tuple that is
    [EqualsNoSchemaCheck]-equal to the first. *)
Theorem header_counted_round_trip (st : State) (tuple tuple' : Tuple.t) (s : Schema) :
  bound st tuple s →
  bound st tuple' s →
  schema_layout s →
  buffers_apart (Tuple.tuple_data tuple) (Tuple.tuple_data tuple') (tuple_length s) →
  Forall (column_valid (memory st) tuple) (columns s) →
  SchemaOps.IsTupleInlined s = true →
  4 + Z.of_nat (length (encoded_columns StubValue.ops (memory st) tuple s)) <= INT64_MAX →
  ∃ bytes st',
    Tuple.SerializeWithHeaderTo StubValue.ops tuple [] st = Ok (bytes, st) ∧
    Tuple.DeserializeWithHeaderFrom StubValue.ops tuple' bytes st
    = Ok ((Z.of_nat (length bytes), []), st') ∧
    Tuple.EqualsNoSchemaCheck StubValue.ops tuple' tuple st' = Ok (true, st').
Proof.
  intros Hb Hb' Hlay Hap Hvalid Hin Hlen.
  destruct (roundtrip_equal st tuple tuple' s 0%N Hb Hb' Hlay Hap Hvalid)
    as (bytes & Hser & [[Hun _]|(st' & Hde & Heq & _)]); [congruence|].
  exists bytes, st'. rewrite (SerializeWithHeaderTo_bound _ _ _ _ _ Hb).
  split; [done|]. split; [|done].
  destruct (StubValue_SerializeTo_tuple st tuple s Hb) as (header & Hheader & Hser').
  rewrite Hser in Hser'. injection Hser' as ->.
  fold (encoded_columns StubValue.ops (memory st) tuple s) in Hlen.
  rewrite (DeserializeFrom_columns _ _ _ _ _ Hb') in Hde.
  rewrite (DeserializeWithHeaderFrom_bound StubValue.ops st tuple' s Hb').
  unfold on_memory. rewrite bind_lift. rewrite (ReadInt_header _ _ Hheader) in *.
  rewrite bind_lift, int64_add_0_4. cbn [snd].
  rewrite (deserialize_columns_inlined_pool tuple' (Some 0%N) None) in Hde by done.
  destruct (deserialize_columns _ _ _ _ _ _) as [[[counts inp] m']|e] eqn:Hcols; [|done].
  injection Hde as -> <-.
  destruct (deserialize_columns_consumed _ _ _ _ StubValue_reports_consumption _ _ _ _ _ Hcols)
    as (consumed & Hcons & Hsum).
  rewrite app_nil_r in Hcons.
  assert (Hsame : length (serialized_columns (memory st) tuple (columns s))
                  = length (encoded_columns StubValue.ops (memory st) tuple s)) by done.
  rewrite (header_fold_total _ _ _ StubValue_reports_consumption _ _ _ _ _ _ Hcols) by lia.
  do 3 f_equal. rewrite Hsum, length_app, Hheader, <- Hcons. lia.
Qed.

Lemma header_counted_round_trip_witness :
  ∃ bytes st',
    Tuple.SerializeWithHeaderTo StubValue.ops ExampleInlined.tuple [] ExampleInlined.st_peloton
    = Ok (bytes, ExampleInlined.st_peloton) ∧
    Tuple.DeserializeWithHeaderFrom StubValue.ops ExampleInlined.other bytes
      ExampleInlined.st_peloton
    = Ok ((Z.of_nat (length bytes), []), st') ∧
    Tuple.EqualsNoSchemaCheck StubValue.ops ExampleInlined.other ExampleInlined.tuple st'
    = Ok (true, st').
Proof.
  apply (header_counted_round_trip ExampleInlined.st_peloton ExampleInlined.tuple
           ExampleInlined.other ExampleInlined.schema).
  - by apply ExampleInlined_bound_tuple.
  - by apply ExampleInlined_bound_other.
  - exact ExampleInlined_layout.
  - unfold buffers_apart. simpl. lia.
  - exact ExampleInlined_valid.
  - reflexivity.
  - by vm_compute.
Defined.
